(** * SFaucet: ranking engine and feature visualizer

    A shallow embedding of [search.js] (text / audio-feature ranking), of
    the [Visualizer] and [BackgroundVisualizer] classes of [visualizer.js],
    of the row normalization of [data.js] and of the search panel of
    [ui.js], together with the properties the specification states about
    them and further properties read off the code.

    Modelling conventions.
    - JavaScript numbers are idealised as real numbers ([R]); the two
      non-finite situations the code guards against ([undefined], [NaN])
      are explicit constructors of [jsnum].
    - Strings are byte strings ([String.string]); [toLowerCase] folds the
      ASCII letters and the white-space class is the ASCII part of [\s].
    - [Array.prototype.sort] is a stable sort; it is modelled by a stable
      insertion sort driven by the comparator.
    - [Math.random] is an oracle: the sequence of values it returns, read
      through a counter kept in the visualizer state.
    - [parseFloat] is a parameter of the loader: it returns a finite number
      or [NaN].
    - The DOM is not modelled; of the search panel, the state of the [UI]
      object and the content it decides to show are. *)

From Stdlib Require Import Reals Lra Lia List String Ascii ZArith Bool.
From Stdlib Require Import DecimalString Sorting.Sorted Sorting.Permutation.
Import ListNotations.

(* ------------------------------------------------------------------ *)
(** ** JavaScript string primitives used by the ranking engine         *)
(* ------------------------------------------------------------------ *)

Module JSString.

Local Open Scope string_scope.

(** The ASCII members of the [\s] class (also the set removed by [trim]):
    TAB, LF, VT, FF, CR and SPACE. *)
Definition is_ws (c : ascii) : bool :=
  let n := nat_of_ascii c in
  ((9 <=? n)%nat && (n <=? 13)%nat) || (n =? 32)%nat.

Definition lower_char (c : ascii) : ascii :=
  let n := nat_of_ascii c in
  if ((65 <=? n)%nat && (n <=? 90)%nat)%bool then ascii_of_nat (n + 32) else c.

(** [s.toLowerCase()] *)
Fixpoint toLowerCase (s : string) : string :=
  match s with
  | EmptyString => EmptyString
  | String c s' => String (lower_char c) (toLowerCase s')
  end.

Fixpoint trimStart (s : string) : string :=
  match s with
  | EmptyString => EmptyString
  | String c s' => if is_ws c then trimStart s' else s
  end.

Fixpoint trimEnd (s : string) : string :=
  match s with
  | EmptyString => EmptyString
  | String c s' =>
      match trimEnd s' with
      | EmptyString => if is_ws c then EmptyString else String c EmptyString
      | r => String c r
      end
  end.

(** [s.trim()] *)
Definition trim (s : string) : string := trimEnd (trimStart s).

(** [s.length > 0] *)
Definition nonempty (s : string) : bool :=
  match s with EmptyString => false | String _ _ => true end.

(** [s.startsWith(p)] *)
Definition startsWith (s p : string) : bool := String.prefix p s.

(** [s.includes(sub)]: [sub] occurs at some offset of [s]. *)
Fixpoint includes (s sub : string) : bool :=
  String.prefix sub s ||
  match s with
  | EmptyString => false
  | String _ s' => includes s' sub
  end.

(** [s.split(/\s+/)].  [acc] is the piece being read; [in_sep] tells that
    the previous character belonged to a separator run.  As in JavaScript, a
    separator at either end of [s] leaves an empty piece there, and the
    empty string splits into one empty piece. *)
Fixpoint split_ws_from (s acc : string) (in_sep : bool) : list string :=
  match s with
  | EmptyString => [acc]
  | String c s' =>
      if is_ws c then
        if in_sep then split_ws_from s' "" true
        else acc :: split_ws_from s' "" true
      else split_ws_from s' (acc ++ String c "") false
  end.

Definition split_ws (s : string) : list string := split_ws_from s "" false.

(** The double-quote character, for the templates that quote the query. *)
Definition dquote : string := String (ascii_of_nat 34) "".

(** [parts.join(sep)] *)
Fixpoint join (sep : string) (parts : list string) : string :=
  match parts with
  | [] => ""
  | [p] => p
  | p :: rest => p ++ sep ++ join sep rest
  end.

(** Decimal rendering of an integer, as [String(n)] does for an integral
    number of moderate size. *)
Definition string_of_Z (n : Z) : string := NilZero.string_of_int (Z.to_int n).

(** [ends_ok s b]: the last character of [s] is not white space, [b]
    telling whether that holds of what precedes [s]. *)
Fixpoint ends_ok (s : string) (b : bool) : bool :=
  match s with
  | EmptyString => b
  | String c s' => ends_ok s' (negb (is_ws c))
  end.

(** A text with no white space at either end. *)
Definition tight (s : string) : bool :=
  match s with
  | EmptyString => false
  | String c s' => negb (is_ws c) && ends_ok s' true
  end.

(** [s.split(sep)] for a separator of one character: a separator at
    either end leaves an empty piece there, and the empty string splits
    into one empty piece. *)
Fixpoint split_char_from (sep : ascii) (s acc : string) : list string :=
  match s with
  | EmptyString => [acc]
  | String c s' =>
      if Ascii.eqb c sep then acc :: split_char_from sep s' ""
      else split_char_from sep s' (acc ++ String c "")
  end.

Definition split_char (sep : ascii) (s : string) : list string :=
  split_char_from sep s "".

(** The character [sep] does not occur in the text. *)
Fixpoint free_of (sep : ascii) (s : string) : bool :=
  match s with
  | EmptyString => true
  | String c s' => negb (Ascii.eqb c sep) && free_of sep s'
  end.

(** The text consists of white space only (or is empty). *)
Fixpoint all_ws (s : string) : bool :=
  match s with
  | EmptyString => true
  | String c s' => is_ws c && all_ws s'
  end.

End JSString.

(* ------------------------------------------------------------------ *)
(** ** Numbers                                                         *)
(* ------------------------------------------------------------------ *)

Module JSNum.

Local Open Scope R_scope.

(** A value read from a numeric field of a JavaScript object: the property
    may be absent ([undefined]), hold [null], hold [NaN], or hold a finite
    number. *)
Inductive jsnum : Type :=
| JUndefined
| JNull
| JNaN
| JNum (r : R).

(** [v || 0]: every falsy value ([undefined], [null], [NaN], [0]) yields 0. *)
Definition orZero (v : jsnum) : R :=
  match v with JNum r => r | _ => 0 end.

(** [v || d] for a number [v] that is already defined: only 0 is falsy. *)
Definition orDefault (v d : R) : R :=
  if Req_dec_T v 0 then d else v.

(** [v !== null] *)
Definition not_null (v : jsnum) : bool :=
  match v with JNull => false | _ => true end.

(** The numeric coercion applied by an arithmetic operator. *)
Definition toNumber (v : jsnum) : jsnum :=
  match v with
  | JNull => JNum 0
  | JUndefined => JNaN
  | _ => v
  end.

(** [Math.max(0, Math.min(1, (v - 40) / 180))]; [NaN] propagates. *)
Definition normalizeTempo (v : jsnum) : jsnum :=
  match toNumber v with
  | JNum r => JNum (Rmax 0 (Rmin 1 ((r - 40) / 180)))
  | _ => JNaN
  end.

(** [Math.floor] *)
Definition Math_floor (x : R) : Z := Int_part x.

(** [Math.round]: the integer nearest to [x], halves rounded towards
    plus infinity. *)
Definition Math_round (x : R) : Z := Int_part (x + 1 / 2).

(** The integer [n] chosen by [Number.prototype.toFixed(0)] for a
    non-negative [x]: the one for which [n - x] is closest to zero, the
    larger one when two are equally close. *)
Definition nearest_int (x : R) : Z :=
  if Rlt_dec (x - IZR (Int_part x)) (1 / 2) then Int_part x
  else (Int_part x + 1)%Z.

(** [x.toFixed(0)]: a negative [x] is printed as a minus sign followed by
    the rendering of its opposite. *)
Definition toFixed0 (x : R) : string :=
  if Rlt_dec x 0
  then ("-" ++ JSString.string_of_Z (nearest_int (- x)))%string
  else JSString.string_of_Z (nearest_int x).

(** [`${Math.round(v)}`] for a field that may be missing. *)
Definition round_to_string (v : jsnum) : string :=
  match toNumber v with
  | JNum r => JSString.string_of_Z (Math_round r)
  | _ => "NaN"%string
  end.

(** [arr.sort(cmp)]: stable; [a] is placed before [b] when [cmp a b < 0],
    and elements that compare equal keep their order. *)
Section Sort.

Context {A : Type} (cmp : A -> A -> R).

Fixpoint insert (x : A) (l : list A) : list A :=
  match l with
  | [] => [x]
  | y :: l' =>
      if Rlt_dec (cmp y x) 0 then y :: insert x l' else x :: y :: l'
  end.

Definition sort (l : list A) : list A := fold_right insert [] l.

End Sort.

(** [arr.slice(0, n)] for an integer [n]: a negative [n] counts from the
    end of the array. *)
Definition slice0 {A : Type} (l : list A) (n : Z) : list A :=
  if (n <? 0)%Z
  then firstn (Z.to_nat (Z.max (Z.of_nat (List.length l) + n) 0)) l
  else firstn (Z.to_nat n) l.

(** The elements of rank [v], for a ranking function [rank]. *)
Definition has_rank {A : Type} (rank : A -> R) (v : R) (a : A) : bool :=
  if Req_dec_T (rank a) v then true else false.

End JSNum.

(* ------------------------------------------------------------------ *)
(** ** The ranking engine ([search.js])                                *)
(* ------------------------------------------------------------------ *)

Module Search.

Import JSString JSNum.
Local Open Scope R_scope.

(** A track record, with the fields the engine and the visualizer read.
    Text fields may be absent; numeric fields are [jsnum]s. *)
Record Track : Type := mkTrack {
  Track_Name : option string;        (* track['Track Name'] *)
  Artist_Names : option string;      (* track['Artist Name(s)'] *)
  Album_Name : option string;        (* track['Album Name'] *)
  Danceability : jsnum;
  Energy : jsnum;
  Valence : jsnum;
  Tempo : jsnum;
  tempoNorm : jsnum;
  Acousticness : jsnum;
  loudnessNorm : jsnum;
  Liveness : jsnum;
  Instrumentalness : jsnum
}.

(** The members of [FEATURE_KEYS], in the order of the array. *)
Inductive feature_key : Type :=
| K_Danceability | K_Energy | K_Valence | K_tempoNorm | K_Acousticness.

Definition FEATURE_KEYS : list feature_key :=
  [K_Danceability; K_Energy; K_Valence; K_tempoNorm; K_Acousticness].

Definition key_name (k : feature_key) : string :=
  match k with
  | K_Danceability => "Danceability"
  | K_Energy => "Energy"
  | K_Valence => "Valence"
  | K_tempoNorm => "tempoNorm"
  | K_Acousticness => "Acousticness"
  end.

Definition is_tempoNorm (k : feature_key) : bool :=
  match k with K_tempoNorm => true | _ => false end.

(** [track[key]] *)
Definition track_get (t : Track) (k : feature_key) : jsnum :=
  match k with
  | K_Danceability => Danceability t
  | K_Energy => Energy t
  | K_Valence => Valence t
  | K_tempoNorm => tempoNorm t
  | K_Acousticness => Acousticness t
  end.

(** The raw slider object: four values in the unit interval and a tempo in
    BPM, each possibly [null]. *)
Record Sliders : Type := mkSliders {
  s_Danceability : jsnum;
  s_Energy : jsnum;
  s_Valence : jsnum;
  s_Tempo : jsnum;
  s_Acousticness : jsnum
}.

(** [Object.values(sliders)] *)
Definition slider_values (s : Sliders) : list jsnum :=
  [s_Danceability s; s_Energy s; s_Valence s; s_Tempo s; s_Acousticness s].

(** The object built for [normalizedSliders]. *)
Record NormalizedSliders : Type := mkNormalized {
  n_Danceability : jsnum;
  n_Energy : jsnum;
  n_Valence : jsnum;
  n_tempoNorm : jsnum;
  n_Acousticness : jsnum
}.

(** [target[key]] *)
Definition target_get (n : NormalizedSliders) (k : feature_key) : jsnum :=
  match k with
  | K_Danceability => n_Danceability n
  | K_Energy => n_Energy n
  | K_Valence => n_Valence n
  | K_tempoNorm => n_tempoNorm n
  | K_Acousticness => n_Acousticness n
  end.

(** [params], after the destructuring defaults [query = ''] and
    [sliders = null] have been applied. *)
Record Params : Type := mkParams {
  query : string;
  sliders : option Sliders
}.

Record Result : Type := mkResult {
  track : Track;
  score : R;
  reasons : list string
}.

(** [field || ''] *)
Definition orEmpty (f : option string) : string :=
  match f with Some s => s | None => ""%string end.

Definition computeTextScore (t : Track) (queryLower : string) : R :=
  let name := toLowerCase (orEmpty (Track_Name t)) in
  let artist := toLowerCase (orEmpty (Artist_Names t)) in
  let album := toLowerCase (orEmpty (Album_Name t)) in
  let score := 0 in
  let score :=
    if String.eqb name queryLower then score + 1
    else if startsWith name queryLower then score + 0.8
    else if includes name queryLower then score + 0.6
    else score in
  let score :=
    if String.eqb artist queryLower then score + 0.9
    else if includes artist queryLower then score + 0.5
    else score in
  let score :=
    if includes album queryLower then score + 0.2 else score in
  let words := split_ws queryLower in
  let score :=
    if (1 <? List.length words)%nat then
      let matchedWords :=
        filter (fun w => includes name w || includes artist w) words in
      score + INR (List.length matchedWords) / INR (List.length words) * 0.3
    else score in
  Rmin score 1.

Definition euclideanDistance (t : Track) (target : NormalizedSliders) : R :=
  let sum :=
    fold_left
      (fun sum key =>
         let diff := orZero (track_get t key) - orZero (target_get target key) in
         sum + diff * diff)
      FEATURE_KEYS 0 in
  sqrt sum.

(** The three sentences [buildTextReason] can return. *)
Definition inNameReason (query : string) : string :=
  ("Matched your search " ++ dquote ++ query ++ dquote
     ++ " in the track name")%string.

Definition amongArtistsReason (query : string) : string :=
  ("Found " ++ dquote ++ query ++ dquote ++ " among the artists")%string.

Definition partialReason (query : string) : string :=
  ("Partial match for " ++ dquote ++ query ++ dquote)%string.

Definition buildTextReason (t : Track) (query : string) : string :=
  let name := orEmpty (Track_Name t) in
  let artist := orEmpty (Artist_Names t) in
  if includes (toLowerCase name) (toLowerCase query) then
    inNameReason query
  else if includes (toLowerCase artist) (toLowerCase query) then
    amongArtistsReason query
  else
    partialReason query.

(** One entry of the [diffs] array of [buildSliderReason]. *)
Record Diff : Type := mkDiff {
  key : feature_key;
  diff : R;
  trackVal : R;
  targetVal : R
}.

Definition mkDiffs (t : Track) (normalizedSliders : NormalizedSliders)
  : list Diff :=
  map (fun key =>
         {| key := key;
            diff := Rabs (orZero (track_get t key)
                          - orZero (target_get normalizedSliders key));
            trackVal := orZero (track_get t key);
            targetVal := orZero (target_get normalizedSliders key) |})
      FEATURE_KEYS.

(** [diffs.sort((a, b) => a.diff - b.diff)[0]] *)
Definition bestDiff (t : Track) (normalizedSliders : NormalizedSliders)
  : option Diff :=
  hd_error (sort (fun a b => diff a - diff b) (mkDiffs t normalizedSliders)).

Definition displayName (k : feature_key) : string :=
  if is_tempoNorm k then "Tempo"%string else key_name k.

Definition trackDisplay (t : Track) (best : Diff) : string :=
  if is_tempoNorm (key best)
  then (round_to_string (Tempo t) ++ " BPM")%string
  else (toFixed0 (trackVal best * 100) ++ "%")%string.

Definition sliderReasonText (name display : string) : string :=
  ("Closest on " ++ name ++ " (" ++ display
     ++ ") — strong alignment with your slider settings")%string.

Definition buildSliderReason (t : Track)
  (normalizedSliders : NormalizedSliders) (rawSliders : Sliders) : string :=
  match bestDiff t normalizedSliders with
  | Some best => sliderReasonText (displayName (key best)) (trackDisplay t best)
  | None => ""%string   (* not reached: [FEATURE_KEYS] is not empty *)
  end.

Definition hasQuery (p : Params) : bool := nonempty (trim (query p)).

(** [sliders && Object.values(sliders).some(v => v !== null)] *)
Definition hasSliders (p : Params) : bool :=
  match sliders p with
  | Some s => existsb not_null (slider_values s)
  | None => false
  end.

Definition normalize (s : Sliders) : NormalizedSliders :=
  {| n_Danceability := s_Danceability s;
     n_Energy := s_Energy s;
     n_Valence := s_Valence s;
     n_tempoNorm := normalizeTempo (s_Tempo s);
     n_Acousticness := s_Acousticness s |}.

(** [hasSliders ? {...} : null], paired with the raw object it was built
    from. *)
Definition normalizedSliders (p : Params)
  : option (NormalizedSliders * Sliders) :=
  if hasSliders p then
    match sliders p with
    | Some s => Some (normalize s, s)
    | None => None
    end
  else None.

(** The three numbers computed for one track inside the [map] callback. *)
Definition textScore (p : Params) (t : Track) : R :=
  if hasQuery p then computeTextScore t (toLowerCase (trim (query p))) else 0.

Definition featureScore (p : Params) (t : Track) : R :=
  match normalizedSliders p with
  | Some (ns, _) =>
      let dist := euclideanDistance t ns in
      let maxDist := sqrt (INR (List.length FEATURE_KEYS)) in
      1 - dist / maxDist
  | None => 0
  end.

Definition combinedScore (p : Params) (t : Track) : R :=
  if hasQuery p && hasSliders p then
    textScore p t * 0.55 + featureScore p t * 0.45
  else if hasQuery p then textScore p t
  else featureScore p t.

Definition buildReasons (p : Params) (t : Track) : list string :=
  let reasons := [] in
  let reasons :=
    if hasQuery p && (if Rlt_dec 0 (textScore p t) then true else false)
    then reasons ++ [buildTextReason t (trim (query p))]
    else reasons in
  match normalizedSliders p with
  | Some (ns, raw) => reasons ++ [buildSliderReason t ns raw]
  | None => reasons
  end.

(** The [map] callback of [search]. *)
Definition scoreTrack (p : Params) (t : Track) : Result :=
  {| track := t; score := combinedScore p t; reasons := buildReasons p t |}.

Definition positive_score (s : Result) : bool :=
  if Rlt_dec 0 (score s) then true else false.

Definition search (tracks : list Track) (p : Params) (limit : Z)
  : list Result :=
  if negb (hasQuery p) && negb (hasSliders p) then []
  else
    let scored := map (scoreTrack p) tracks in
    let filtered :=
      if hasQuery p then filter positive_score scored else scored in
    let sorted := sort (fun a b => score b - score a) filtered in
    slice0 sorted limit.

(** [search(tracks, params)]: the default value of [limit]. *)
Definition search_default (tracks : list Track) (p : Params) : list Result :=
  search tracks p 5.

(** How a call completes: by returning a value or by throwing. *)
Inductive Completion (A : Type) : Type :=
| Returns (v : A)
| Throws (condition : string).
Arguments Returns {A} v.
Arguments Throws {A} condition.

(** The body of [search] contains no [throw] and no test of [limit]; every
    operation it performs is defined on the values modelled here, so a call
    always completes by returning. *)
Definition search_call (tracks : list Track) (p : Params) (limit : Z)
  : Completion (list Result) :=
  Returns (search tracks p limit).

Definition buildExplanation (result : Result) : string :=
  let parts := reasons result in
  let scorePercent := toFixed0 (score result * 100) in
  let intro := ("Match confidence: " ++ scorePercent ++ "%. ")%string in
  (intro ++ join ". " parts ++ ".")%string.

End Search.

(* ------------------------------------------------------------------ *)
(** ** The particle visualizer ([visualizer.js], class [Visualizer])   *)
(* ------------------------------------------------------------------ *)

Module Visualizer.

Import JSNum.
Local Open Scope R_scope.

(** The object stored in [this.targetFeatures] and [this.features]: every
    field is a number, since [setTrack] builds it with [|| 0]. *)
Record Features : Type := mkFeatures {
  valence : R;
  energy : R;
  danceability : R;
  tempo : R;
  loudness : R;
  acousticness : R;
  liveness : R;
  instrumentalness : R
}.

(** [Object.keys(this.targetFeatures)], in insertion order. *)
Inductive fkey : Type :=
| F_valence | F_energy | F_danceability | F_tempo
| F_loudness | F_acousticness | F_liveness | F_instrumentalness.

Definition feature_keys : list fkey :=
  [F_valence; F_energy; F_danceability; F_tempo;
   F_loudness; F_acousticness; F_liveness; F_instrumentalness].

(** [f[key]] *)
Definition fget (f : Features) (k : fkey) : R :=
  match k with
  | F_valence => valence f
  | F_energy => energy f
  | F_danceability => danceability f
  | F_tempo => tempo f
  | F_loudness => loudness f
  | F_acousticness => acousticness f
  | F_liveness => liveness f
  | F_instrumentalness => instrumentalness f
  end.

(** [f[key] = v] *)
Definition fset (f : Features) (k : fkey) (v : R) : Features :=
  match k with
  | F_valence =>
      mkFeatures v (energy f) (danceability f) (tempo f) (loudness f)
        (acousticness f) (liveness f) (instrumentalness f)
  | F_energy =>
      mkFeatures (valence f) v (danceability f) (tempo f) (loudness f)
        (acousticness f) (liveness f) (instrumentalness f)
  | F_danceability =>
      mkFeatures (valence f) (energy f) v (tempo f) (loudness f)
        (acousticness f) (liveness f) (instrumentalness f)
  | F_tempo =>
      mkFeatures (valence f) (energy f) (danceability f) v (loudness f)
        (acousticness f) (liveness f) (instrumentalness f)
  | F_loudness =>
      mkFeatures (valence f) (energy f) (danceability f) (tempo f) v
        (acousticness f) (liveness f) (instrumentalness f)
  | F_acousticness =>
      mkFeatures (valence f) (energy f) (danceability f) (tempo f)
        (loudness f) v (liveness f) (instrumentalness f)
  | F_liveness =>
      mkFeatures (valence f) (energy f) (danceability f) (tempo f)
        (loudness f) (acousticness f) v (instrumentalness f)
  | F_instrumentalness =>
      mkFeatures (valence f) (energy f) (danceability f) (tempo f)
        (loudness f) (acousticness f) (liveness f) v
  end.

Record Particle : Type := mkParticle {
  x : R;
  y : R;
  vx : R;
  vy : R;
  size : R;
  life : R;
  phase : R;
  organic : bool
}.

(** A CSS colour as the code formats it. *)
Inductive Color : Type :=
| Rgba (r g b a : R)
| Hsla (h s l a : R).

(** The drawing requests sent to the 2D context in a tick, each with the
    style in force when it is issued. *)
Inductive DrawCmd : Type :=
| FillRect (fillStyle : Color) (x y w h : R)
| Ellipse (fillStyle : Color) (x y radiusX radiusY rotation : R)
| Diamond (fillStyle : Color) (x y rotation size : R)
| RoundRect (fillStyle : Color) (x y w h radius : R)
| GlowArc (fillStyle shadowColor : Color) (globalAlpha shadowBlur : R)
          (x y radius : R)
| Line (strokeStyle : Color) (lineWidth x1 y1 x2 y2 : R).

(** The state of a [Visualizer] object.  [animId] tells whether a frame
    request is pending (the handle is then a non-zero number); [draws] counts
    the calls to [Math.random] made so far. *)
Record State : Type := mkState {
  particles : list Particle;
  features : option Features;
  targetFeatures : option Features;
  animId : bool;
  time : R;
  width : R;
  height : R;
  draws : nat
}.

(** [new Visualizer(canvas)] on a canvas whose parent measures [w] by [h]. *)
Definition new_visualizer (w h : R) : State :=
  {| particles := []; features := None; targetFeatures := None;
     animId := false; time := 0; width := w; height := h; draws := 0 |}.

(** The object literal built by [setTrack]. *)
Definition featuresOf (t : Search.Track) : Features :=
  {| valence := orZero (Search.Valence t);
     energy := orZero (Search.Energy t);
     danceability := orZero (Search.Danceability t);
     tempo := orZero (Search.tempoNorm t);
     loudness := orZero (Search.loudnessNorm t);
     acousticness := orZero (Search.Acousticness t);
     liveness := orZero (Search.Liveness t);
     instrumentalness := orZero (Search.Instrumentalness t) |}.

(** [x % y], the remainder of the division truncated towards zero. *)
Definition trunc (r : R) : Z :=
  if Rlt_dec r 0 then (- Int_part (- r))%Z else Int_part r.

Definition js_rem (a b : R) : R := a - b * IZR (trunc (a / b)).

Section WithRandom.

(** [random n] is the value returned by the [n]-th call of [Math.random]. *)
Variable random : nat -> R.

(** [f.field || d] where [f = this.targetFeatures || this.features || {}]. *)
Definition particle_source (s : State) : option Features :=
  match targetFeatures s with
  | Some f => Some f
  | None => features s
  end.

Definition field_or (f : option Features) (proj : Features -> R) (d : R) : R :=
  match f with
  | Some f => orDefault (proj f) d
  | None => d
  end.

(** [createParticle()], when [n] calls of [Math.random] precede it. *)
Definition createParticle (s : State) (n : nat) : Particle :=
  let f := particle_source s in
  {| x := random n * width s;
     y := random (n + 1) * height s;
     vx := (random (n + 2) - 0.5) * 2;
     vy := (random (n + 3) - 0.5) * 2;
     size := 1.5 + random (n + 4) * 3 * (0.5 + field_or f loudness 0.5);
     life := random (n + 5);
     phase := random (n + 6) * PI * 2;
     organic :=
       if Rlt_dec (random (n + 7)) (field_or f acousticness 0.3)
       then true else false |}.

(** [Math.floor(80 + (this.targetFeatures.danceability || 0) * 180)];
    [initParticles] is only called once the target is set. *)
Definition particle_count (s : State) : nat :=
  match targetFeatures s with
  | Some f => Z.to_nat (Math_floor (80 + orDefault (danceability f) 0 * 180))
  | None => 0%nat
  end.

Definition initParticles (s : State) : State :=
  let count := particle_count s in
  {| particles :=
       map (fun i => createParticle s (draws s + 8 * i)) (seq 0 count);
     features := features s;
     targetFeatures := targetFeatures s;
     animId := animId s;
     time := time s;
     width := width s;
     height := height s;
     draws := draws s + 8 * count |}.

Definition rate : R := 0.03.

(** The loop of [lerpFeatures] over the keys of the target. *)
Definition lerp (target current : Features) : Features :=
  fold_left
    (fun cur k => fset cur k (fget cur k + (fget target k - fget cur k) * rate))
    feature_keys current.

Definition lerpFeatures (s : State) : option Features :=
  match targetFeatures s, features s with
  | Some t, Some f => Some (lerp t f)
  | _, _ => features s
  end.

Definition getHue (f : Features) : R := 240 - valence f * 210.

Definition pulseFreq (f : Features) : R := 0.5 + tempo f * 4.

Definition pulse (f : Features) (t : R) : R :=
  sin (t * pulseFreq f) * 0.5 + 0.5.

(** The position update of one particle, with the wrap around the edges. *)
Definition moveParticle (f : Features) (t w h : R) (n : nat) (p : Particle)
  : Particle :=
  let speed := 0.3 + energy f * 3 in
  let jitter := liveness f * 3 in
  let dx := cos (phase p + t * pulseFreq f * 0.3) * speed in
  let dy := sin (phase p + t * pulseFreq f * 0.2) * speed in
  let x1 := x p + (vx p * speed + dx * 0.3 + (random n - 0.5) * jitter) in
  let y1 := y p + (vy p * speed + dy * 0.3 + (random (n + 1) - 0.5) * jitter) in
  let x2 := if Rlt_dec x1 (-10) then w + 10 else x1 in
  let x3 := if Rlt_dec (w + 10) x2 then -10 else x2 in
  let y2 := if Rlt_dec y1 (-10) then h + 10 else y1 in
  let y3 := if Rlt_dec (h + 10) y2 then -10 else y2 in
  {| x := x3; y := y3; vx := vx p; vy := vy p; size := size p;
     life := life p; phase := phase p; organic := organic p |}.

Definition particleHue (f : Features) (p : Particle) : R :=
  let hueOffset := life p * 60 - 30 in
  js_rem (getHue f + hueOffset + 360) 360.

Definition saturation (f : Features) : R := 60 + energy f * 30.

Definition lightness (f : Features) (t : R) : R :=
  45 + pulse f t * 15 + loudness f * 15.

Definition alpha (f : Features) (t : R) : R :=
  0.3 + pulse f t * 0.4 * energy f.

Definition particleColor (f : Features) (t : R) (p : Particle) : Color :=
  Hsla (particleHue f p) (saturation f) (lightness f t) (alpha f t).

Definition drawSize (f : Features) (t : R) (p : Particle) : R :=
  size p * (0.8 + pulse f t * 0.4 * danceability f).

(** The shape drawn for a particle that has already been moved. *)
Definition drawShape (f : Features) (t : R) (p : Particle) : DrawCmd :=
  let style := particleColor f t p in
  let size := drawSize f t p in
  if organic p then
    let r := size in
    let wobble := sin (t * 2 + phase p) * size * 0.2 * acousticness f in
    Ellipse style (x p) (y p) (r + wobble) (r - wobble * 0.5) (phase p)
  else if Rlt_dec 0.3 (instrumentalness f) then
    Diamond style (x p) (y p) (t * 0.5 + phase p) size
  else
    let half := size in
    RoundRect style (x p - half) (y p - half) (half * 2) (half * 2)
      (size * 0.3).

Definition drawGlow (f : Features) (t : R) (p : Particle) : list DrawCmd :=
  if Rlt_dec 0.6 (energy f) then
    [GlowArc (particleColor f t p)
       (Hsla (particleHue f p) (saturation f) (lightness f t) 0.6)
       (alpha f t * 0.3) (drawSize f t p * 4) (x p) (y p)
       (drawSize f t p * 0.5)]
  else [].

(** The body of the loop over [this.particles]: the particles are updated
    in place, two random numbers being drawn for each. *)
Fixpoint drawParticles (f : Features) (t w h : R) (n : nat)
  (ps : list Particle) : list Particle * list DrawCmd :=
  match ps with
  | [] => ([], [])
  | p :: rest =>
      let p' := moveParticle f t w h n p in
      let '(rest', cmds) := drawParticles f t w h (n + 2) rest in
      (p' :: rest', drawShape f t p' :: drawGlow f t p' ++ cmds)
  end.

(** The particles of index 0, 3, 6, ... *)
Fixpoint stride3 (ps : list Particle) : list Particle :=
  match ps with
  | [] => []
  | p :: rest =>
      p :: match rest with
           | _ :: _ :: rest' => stride3 rest'
           | _ => []
           end
  end.

Definition connect (f : Features) (pi pj : Particle) : list DrawCmd :=
  let connectDist := 60 + danceability f * 40 in
  let dx := x pi - x pj in
  let dy := y pi - y pj in
  let dist := sqrt (dx * dx + dy * dy) in
  if Rlt_dec dist connectDist then
    [Line (Hsla (getHue f) 50 60 (0.03 + danceability f * 0.05)) 0.5
       (x pi) (y pi) (x pj) (y pj)]
  else [].

Fixpoint connectAll (f : Features) (ps : list Particle) : list DrawCmd :=
  match ps with
  | [] => []
  | pi :: rest => flat_map (connect f pi) rest ++ connectAll f rest
  end.

Definition drawLines (f : Features) (ps : list Particle) : list DrawCmd :=
  if Rlt_dec 0.5 (danceability f) then connectAll f (stride3 ps) else [].

(** One tick: [animate()]. *)
Definition animate (s : State) : State * list DrawCmd :=
  let t := time s + 0.016 in
  let fs := lerpFeatures s in
  match fs with
  | None =>
      ({| particles := particles s; features := fs;
          targetFeatures := targetFeatures s; animId := true; time := t;
          width := width s; height := height s; draws := draws s |}, [])
  | Some f =>
      let w := width s in
      let h := height s in
      let trail := 0.08 + (1 - energy f) * 0.15 in
      let background := FillRect (Rgba 10 10 26 trail) 0 0 w h in
      let '(ps, cmds) := drawParticles f t w h (draws s) (particles s) in
      ({| particles := ps; features := fs;
          targetFeatures := targetFeatures s; animId := true; time := t;
          width := w; height := h;
          draws := draws s + 2 * List.length (particles s) |},
       background :: cmds ++ drawLines f ps)
  end.

Definition setTrack (s : State) (t : Search.Track) : State * list DrawCmd :=
  let target := featuresOf t in
  let current :=
    match features s with
    | None => Some target
    | Some f => Some f
    end in
  let s1 :=
    initParticles
      {| particles := particles s; features := current;
         targetFeatures := Some target; animId := animId s; time := time s;
         width := width s; height := height s; draws := draws s |} in
  if animId s1 then (s1, []) else animate s1.

(** [resize()], after the parent of the canvas took the size [w] by [h]. *)
Definition resize (s : State) (w h : R) : State :=
  {| particles := particles s; features := features s;
     targetFeatures := targetFeatures s; animId := animId s; time := time s;
     width := w; height := h; draws := draws s |}.

Definition destroy (s : State) : State :=
  {| particles := particles s; features := features s;
     targetFeatures := targetFeatures s; animId := false; time := time s;
     width := width s; height := height s; draws := draws s |}.

(** What can happen to a visualizer: a call of [setTrack], the display
    refresh (which runs the pending frame callback, if any), a resize of
    the window, a call of [destroy]. *)
Inductive Event : Type :=
| SetTrack (t : Search.Track)
| Frame
| Resize (w h : R)
| Destroy.

Definition step (s : State) (e : Event) : State * list DrawCmd :=
  match e with
  | SetTrack t => setTrack s t
  | Frame => if animId s then animate s else (s, [])
  | Resize w h => (resize s w h, [])
  | Destroy => (destroy s, [])
  end.

(** The state reached and every drawing request issued along a sequence of
    events. *)
Fixpoint run (s : State) (es : list Event) : State * list DrawCmd :=
  match es with
  | [] => (s, [])
  | e :: rest =>
      let '(s1, out1) := step s e in
      let '(s2, out2) := run s1 rest in
      (s2, out1 ++ out2)
  end.

(** [n] consecutive refreshes. *)
Definition frames (n : nat) : list Event := repeat Frame n.

End WithRandom.

(** A drawing request the canvas accepts: [ellipse], [arc] and [roundRect]
    throw on a negative radius. *)
Definition valid_cmd (c : DrawCmd) : Prop :=
  match c with
  | Ellipse _ _ _ rx ry _ => 0 <= rx /\ 0 <= ry
  | RoundRect _ _ _ _ _ radius => 0 <= radius
  | GlowArc _ _ _ _ _ _ radius => 0 <= radius
  | _ => True
  end.

(** The channels of a CSS colour lie in their ranges. *)
Definition color_ok (c : Color) : Prop :=
  match c with
  | Rgba r g b a =>
      0 <= r <= 255 /\ 0 <= g <= 255 /\ 0 <= b <= 255 /\ 0 <= a <= 1
  | Hsla h s l a =>
      0 <= h < 360 /\ 0 <= s <= 100 /\ 0 <= l <= 100 /\ 0 <= a <= 1
  end.

(** The styles of a drawing request are meaningful. *)
Definition styles_ok (c : DrawCmd) : Prop :=
  match c with
  | FillRect style _ _ _ _ => color_ok style
  | Ellipse style _ _ _ _ _ => color_ok style
  | Diamond style _ _ _ size => color_ok style /\ 0 <= size
  | RoundRect style _ _ w h _ => color_ok style /\ 0 <= w /\ 0 <= h
  | GlowArc style shadow globalAlpha shadowBlur _ _ _ =>
      color_ok style /\ color_ok shadow /\
      0 <= globalAlpha <= 1 /\ 0 <= shadowBlur
  | Line style lineWidth _ _ _ _ => color_ok style /\ 0 < lineWidth
  end.

(** The three ways a particle is rendered. *)
Inductive Shape : Type := SoftEllipse | DiamondShape | RoundedRect.

Definition shape_of (c : DrawCmd) : option Shape :=
  match c with
  | Ellipse _ _ _ _ _ _ => Some SoftEllipse
  | Diamond _ _ _ _ _ => Some DiamondShape
  | RoundRect _ _ _ _ _ _ => Some RoundedRect
  | _ => None
  end.

(** The same visualizer holding other particles. *)
Definition with_particles (s : State) (ps : list Particle) : State :=
  {| particles := ps; features := features s;
     targetFeatures := targetFeatures s; animId := animId s; time := time s;
     width := width s; height := height s; draws := draws s |}.

End Visualizer.

(* ------------------------------------------------------------------ *)
(** ** The scoring schemes as the specification words them             *)
(* ------------------------------------------------------------------ *)

Module Scheme.

Import JSString JSNum Search.
Local Open Scope R_scope.

(** Case-insensitive comparison of two strings. *)
Definition ci_equal (a b : string) : bool :=
  String.eqb (toLowerCase a) (toLowerCase b).

Definition ci_starts_with (a b : string) : bool :=
  String.prefix (toLowerCase b) (toLowerCase a).

Definition ci_contains (a b : string) : bool :=
  includes (toLowerCase a) (toLowerCase b).

(** The words of a text: its maximal runs of characters that are not white
    space. *)
Fixpoint words_from (s acc : string) : list string :=
  match s with
  | EmptyString => if nonempty acc then [acc] else []
  | String c s' =>
      if is_ws c then
        if nonempty acc then acc :: words_from s' "" else words_from s' ""
      else words_from s' (acc ++ String c "")
  end.

Definition words (s : string) : list string := words_from s "".

Definition name_bonus (name q : string) : R :=
  if ci_equal name q then 1
  else if ci_starts_with name q then 0.8
  else if ci_contains name q then 0.6
  else 0.

Definition artist_bonus (artist q : string) : R :=
  if ci_equal artist q then 0.9
  else if ci_contains artist q then 0.5
  else 0.

Definition album_bonus (album q : string) : R :=
  if ci_contains album q then 0.2 else 0.

Definition word_matches (name artist w : string) : bool :=
  ci_contains name w || ci_contains artist w.

Definition word_bonus (name artist q : string) : R :=
  let ws := words q in
  let wordCount := List.length ws in
  let matchedWordCount :=
    List.length (filter (word_matches name artist) ws) in
  if (1 <? wordCount)%nat
  then INR matchedWordCount / INR wordCount * 0.3
  else 0.

(** The text score of a track for a trimmed query [q]. *)
Definition text_score (t : Track) (q : string) : R :=
  let name := orEmpty (Track_Name t) in
  let artist := orEmpty (Artist_Names t) in
  let album := orEmpty (Album_Name t) in
  Rmin (name_bonus name q + artist_bonus artist q + album_bonus album q
        + word_bonus name artist q) 1.

(** The point of feature space a track occupies, and the one the sliders
    aim at; a missing coordinate counts as 0. *)
Definition track_point (t : Track) : list R :=
  [orZero (Danceability t); orZero (Energy t); orZero (Valence t);
   orZero (tempoNorm t); orZero (Acousticness t)].

Definition target_point (s : Sliders) : list R :=
  [orZero (s_Danceability s); orZero (s_Energy s); orZero (s_Valence s);
   orZero (normalizeTempo (s_Tempo s)); orZero (s_Acousticness s)].

Fixpoint sum_sq_diff (a b : list R) : R :=
  match a, b with
  | u :: a', v :: b' => (u - v) * (u - v) + sum_sq_diff a' b'
  | _, _ => 0
  end.

(** The Euclidean distance between two points. *)
Definition distance (a b : list R) : R := sqrt (sum_sq_diff a b).

End Scheme.

(* ------------------------------------------------------------------ *)
(** ** The ambient background ([visualizer.js], [BackgroundVisualizer]) *)
(* ------------------------------------------------------------------ *)

Module Background.

Import JSNum.
Local Open Scope R_scope.

Record Orb : Type := mkOrb {
  x : R;
  y : R;
  r : R;
  vx : R;
  vy : R;
  hue : R
}.

(** The requests sent to the 2D context: the clearing of the surface and,
    for an orb, the disc filled with a radial gradient from the centre to
    the radius [r]. *)
Inductive DrawCmd : Type :=
| ClearRect (x y w h : R)
| GradientDisc (x y r : R) (inner outer : Visualizer.Color).

(** [createRadialGradient] and [arc] throw on a negative radius. *)
Definition valid_cmd (c : DrawCmd) : Prop :=
  match c with
  | ClearRect _ _ _ _ => True
  | GradientDisc _ _ r _ _ => 0 <= r
  end.

Record State : Type := mkState {
  orbs : list Orb;
  time : R;
  width : R;
  height : R
}.

(** The movement of one orb in a tick, with the wrap around the edges. *)
Definition moveOrb (t w h : R) (o : Orb) : Orb :=
  let x1 := x o + (vx o + sin (t + hue o) * 0.2) in
  let y1 := y o + (vy o + cos (t + hue o) * 0.2) in
  let x2 := if Rlt_dec x1 (- r o) then w + r o else x1 in
  let x3 := if Rlt_dec (w + r o) x2 then - r o else x2 in
  let y2 := if Rlt_dec y1 (- r o) then h + r o else y1 in
  let y3 := if Rlt_dec (h + r o) y2 then - r o else y2 in
  {| x := x3; y := y3; r := r o; vx := vx o; vy := vy o; hue := hue o |}.

Definition drawOrb (o : Orb) : DrawCmd :=
  GradientDisc (x o) (y o) (r o)
    (Visualizer.Hsla (hue o) 70 40 0.08)
    (Visualizer.Hsla (hue o) 70 20 0).

(** One tick: [animate()]; the next one is always requested. *)
Definition animate (s : State) : State * list DrawCmd :=
  let t := time s + 0.005 in
  let moved := map (moveOrb t (width s) (height s)) (orbs s) in
  ({| orbs := moved; time := t; width := width s; height := height s |},
   ClearRect 0 0 (width s) (height s) :: map drawOrb moved).

(** [resize()], the window measuring [w] by [h]. *)
Definition resize (s : State) (w h : R) : State :=
  {| orbs := orbs s; time := time s; width := w; height := h |}.

Section WithRandom.

Variable random : nat -> R.

(** The orb pushed by the [i]-th turn of the loop of [initOrbs]. *)
Definition newOrb (w h : R) (i : nat) : Orb :=
  {| x := random (6 * i) * w;
     y := random (6 * i + 1) * h;
     r := 100 + random (6 * i + 2) * 200;
     vx := (random (6 * i + 3) - 0.5) * 0.3;
     vy := (random (6 * i + 4) - 0.5) * 0.3;
     hue := 240 + random (6 * i + 5) * 80 |}.

Definition initOrbs (s : State) : State :=
  {| orbs := orbs s ++ map (newOrb (width s) (height s)) (seq 0 5);
     time := time s; width := width s; height := height s |}.

(** [new BackgroundVisualizer(canvas)] in a window of [w] by [h]: the
    constructor measures the window, creates the orbs and runs a first
    tick. *)
Definition create (w h : R) : State * list DrawCmd :=
  animate
    (initOrbs {| orbs := []; time := 0; width := w; height := h |}).

End WithRandom.

Inductive Event : Type :=
| Frame
| Resize (w h : R).

Definition step (s : State) (e : Event) : State * list DrawCmd :=
  match e with
  | Frame => animate s
  | Resize w h => (resize s w h, [])
  end.

Fixpoint run (s : State) (es : list Event) : State * list DrawCmd :=
  match es with
  | [] => (s, [])
  | e :: rest =>
      let '(s1, out1) := step s e in
      let '(s2, out2) := run s1 rest in
      (s2, out1 ++ out2)
  end.

(** What an orb keeps for ever: a radius in [100, 300), a hue in
    [240, 320) and a slow drift. *)
Definition orb_ok (o : Orb) : Prop :=
  100 <= r o < 300 /\ 240 <= hue o < 320 /\
  -0.15 <= vx o < 0.15 /\ -0.15 <= vy o < 0.15.

(** The orb overlaps the surface or touches it. *)
Definition orb_in_reach (w h : R) (o : Orb) : Prop :=
  - r o <= x o <= w + r o /\ - r o <= y o <= h + r o.

(** A tick may move an orb; it changes nothing else of it. *)
Definition same_orb (o o' : Orb) : Prop :=
  r o' = r o /\ vx o' = vx o /\ vy o' = vy o /\ hue o' = hue o.

End Background.

(* ------------------------------------------------------------------ *)
(** ** The loading of the library ([data.js])                          *)
(* ------------------------------------------------------------------ *)

Module Data.

Import JSString JSNum.
Local Open Scope R_scope.

(** The members of [NUMERIC_FIELDS], in the order of the array. *)
Inductive numeric_field : Type :=
| N_Danceability | N_Energy | N_Valence | N_Tempo | N_Acousticness
| N_Loudness | N_Speechiness | N_Instrumentalness | N_Liveness
| N_Popularity | N_Duration | N_Key | N_Mode | N_Time_Signature.

Definition NUMERIC_FIELDS : list numeric_field :=
  [N_Danceability; N_Energy; N_Valence; N_Tempo; N_Acousticness;
   N_Loudness; N_Speechiness; N_Instrumentalness; N_Liveness;
   N_Popularity; N_Duration; N_Key; N_Mode; N_Time_Signature].

Definition numeric_field_eqb (a b : numeric_field) : bool :=
  match a, b with
  | N_Danceability, N_Danceability | N_Energy, N_Energy
  | N_Valence, N_Valence | N_Tempo, N_Tempo
  | N_Acousticness, N_Acousticness | N_Loudness, N_Loudness
  | N_Speechiness, N_Speechiness
  | N_Instrumentalness, N_Instrumentalness | N_Liveness, N_Liveness
  | N_Popularity, N_Popularity | N_Duration, N_Duration | N_Key, N_Key
  | N_Mode, N_Mode | N_Time_Signature, N_Time_Signature => true
  | _, _ => false
  end.

(** A row of the parsed CSV: the text of each cell, [None] for a column
    the row does not have. *)
Record Row : Type := mkRow {
  row_Track_Name : option string;
  row_Track_URI : option string;
  row_Artist_Names : option string;
  row_Album_Name : option string;
  row_numeric : numeric_field -> option string
}.

(** The object returned by [normalizeTracks]: the text columns of the row,
    the numeric columns cast to numbers, and the derived fields. *)
Record LoadedTrack : Type := mkLoaded {
  Track_Name : option string;
  Track_URI : option string;
  Artist_Names : option string;
  Album_Name : option string;
  numeric : numeric_field -> R;
  spotifyId : option string;
  tempoNorm : R;
  loudnessNorm : R
}.

(** A text cell is truthy when it is present and not empty. *)
Definition truthy (cell : option string) : bool :=
  match cell with
  | Some s => nonempty s
  | None => false
  end.

(** [cell || ''] *)
Definition orEmpty (cell : option string) : string :=
  match cell with Some s => s | None => ""%string end.

(** [parts.length === 3 ? parts[2] : null] for the parts of the URI. *)
Definition spotifyId_of (uri : option string) : option string :=
  match split_char ":"%char (orEmpty uri) with
  | [_; _; id] => Some id
  | _ => None
  end.

Section WithParseFloat.

(** [parseFloat], applied to the content of a cell: a number, or [NaN]
    when the cell is absent or does not start with a number. *)
Variable parseFloat : option string -> jsnum.

(** The loop [for (const field of NUMERIC_FIELDS) track[field] =
    parseFloat(track[field]) || 0], the numeric fields being kept in a
    function that the loop updates field after field. *)
Definition castNumeric (cells : numeric_field -> option string)
  : numeric_field -> R :=
  fold_left
    (fun (numbers : numeric_field -> R) (field : numeric_field) =>
       fun f =>
         if numeric_field_eqb f field
         then orZero (parseFloat (cells field))
         else numbers f)
    NUMERIC_FIELDS (fun _ => 0).

Definition normalizeTracks (row : Row) : option LoadedTrack :=
  if negb (truthy (row_Track_Name row)) || negb (truthy (row_Track_URI row))
  then None
  else
    let numbers := castNumeric (row_numeric row) in
    Some
      {| Track_Name := row_Track_Name row;
         Track_URI := row_Track_URI row;
         Artist_Names := row_Artist_Names row;
         Album_Name := row_Album_Name row;
         numeric := numbers;
         spotifyId := spotifyId_of (row_Track_URI row);
         tempoNorm := Rmax 0 (Rmin 1 ((numbers N_Tempo - 40) / 180));
         loudnessNorm := Rmax 0 (Rmin 1 ((numbers N_Loudness + 60) / 60)) |}.

(** The [complete] callback of [loadCSV]:
    [results.data.map(normalizeTracks).filter(Boolean)]. *)
Definition complete (data : list Row) : list LoadedTrack :=
  flat_map (fun row => match normalizeTracks row with
                       | Some t => [t]
                       | None => []
                       end) data.

End WithParseFloat.

(** A loaded track as the ranking engine and the visualizer read it. *)
Definition to_track (t : LoadedTrack) : Search.Track :=
  Search.mkTrack (Track_Name t) (Artist_Names t) (Album_Name t)
    (JNum (numeric t N_Danceability)) (JNum (numeric t N_Energy))
    (JNum (numeric t N_Valence)) (JNum (numeric t N_Tempo))
    (JNum (tempoNorm t)) (JNum (numeric t N_Acousticness))
    (JNum (loudnessNorm t)) (JNum (numeric t N_Liveness))
    (JNum (numeric t N_Instrumentalness)).

(** The rows that [normalizeTracks] keeps. *)
Definition kept (row : Row) : bool :=
  truthy (row_Track_Name row) && truthy (row_Track_URI row).

(** The number of colons of a text. *)
Fixpoint colons (s : string) : nat :=
  match s with
  | EmptyString => 0%nat
  | String c s' => if Ascii.eqb c ":"%char then S (colons s') else colons s'
  end.

(** The features no derived field covers lie in the unit interval. *)
Definition unit_features (t : LoadedTrack) : Prop :=
  forall f,
    In f [N_Danceability; N_Energy; N_Valence; N_Acousticness; N_Liveness;
          N_Instrumentalness] ->
    0 <= numeric t f <= 1.

End Data.

(* ------------------------------------------------------------------ *)
(** ** The search panel ([ui.js], class [UI])                          *)
(* ------------------------------------------------------------------ *)

Module UI.

Import JSNum.
Local Open Scope R_scope.

(** The keys of [SLIDERS_CONFIG]. *)
Inductive slider_key : Type :=
| S_Danceability | S_Energy | S_Valence | S_Tempo | S_Acousticness.

Record SliderConfig : Type := mkConfig {
  key : slider_key;
  min : R;
  max : R;
  step : R;
  default : R
}.

Definition SLIDERS_CONFIG : list SliderConfig :=
  [mkConfig S_Danceability 0 1 0.01 0.65;
   mkConfig S_Energy 0 1 0.01 0.70;
   mkConfig S_Valence 0 1 0.01 0.50;
   mkConfig S_Tempo 40 220 1 128;
   mkConfig S_Acousticness 0 1 0.01 0.15].

(** [this.sliderValues[key] = val] *)
Definition set_slider (s : Search.Sliders) (k : slider_key) (val : jsnum)
  : Search.Sliders :=
  match k with
  | S_Danceability =>
      Search.mkSliders val (Search.s_Energy s) (Search.s_Valence s)
        (Search.s_Tempo s) (Search.s_Acousticness s)
  | S_Energy =>
      Search.mkSliders (Search.s_Danceability s) val (Search.s_Valence s)
        (Search.s_Tempo s) (Search.s_Acousticness s)
  | S_Valence =>
      Search.mkSliders (Search.s_Danceability s) (Search.s_Energy s) val
        (Search.s_Tempo s) (Search.s_Acousticness s)
  | S_Tempo =>
      Search.mkSliders (Search.s_Danceability s) (Search.s_Energy s)
        (Search.s_Valence s) val (Search.s_Acousticness s)
  | S_Acousticness =>
      Search.mkSliders (Search.s_Danceability s) (Search.s_Energy s)
        (Search.s_Valence s) (Search.s_Tempo s) val
  end.

(** [this.sliderValues[key]] *)
Definition get_slider (s : Search.Sliders) (k : slider_key) : jsnum :=
  match k with
  | S_Danceability => Search.s_Danceability s
  | S_Energy => Search.s_Energy s
  | S_Valence => Search.s_Valence s
  | S_Tempo => Search.s_Tempo s
  | S_Acousticness => Search.s_Acousticness s
  end.

(** The assignments of [renderSliders]: every slider takes its default. *)
Definition renderSliders (s : Search.Sliders) : Search.Sliders :=
  fold_left (fun values config => set_slider values (key config)
                                    (JNum (default config)))
    SLIDERS_CONFIG s.

(** What the results section shows. *)
Inductive Panel : Type :=
| Hidden
| NoMatches
| Listed (results : list Search.Result) (active : nat).

(** The part of a [UI] object that the searches read and write: the
    library, the visualizer, the selection, the slider values, and what has
    been written into the results section and the explanation. *)
Record State : Type := mkState {
  tracks : list Search.Track;
  visualizer : Visualizer.State;
  selectedResult : option Search.Result;
  sliderValues : Search.Sliders;
  panel : Panel;
  explanationText : string
}.

(** [new UI(tracks, visualizer)]: the slider object starts empty and
    [renderSliders] fills it. *)
Definition create (tracks : list Search.Track) (v : Visualizer.State)
  : State :=
  {| tracks := tracks; visualizer := v; selectedResult := None;
     sliderValues :=
       renderSliders
         (Search.mkSliders JUndefined JUndefined JUndefined JUndefined
            JUndefined);
     panel := Hidden; explanationText := ""%string |}.

Section WithRandom.

Variable random : nat -> R.

(** [selectResult(result, params)]: the selection, the call of the
    visualizer and the explanation. *)
Definition selectResult (ui : State) (result : Search.Result)
  : State * list Visualizer.DrawCmd :=
  let '(v, out) := Visualizer.setTrack random (visualizer ui)
                     (Search.track result) in
  ({| tracks := tracks ui; visualizer := v;
      selectedResult := Some result; sliderValues := sliderValues ui;
      panel := panel ui;
      explanationText := Search.buildExplanation result |}, out).

Definition with_panel (ui : State) (p : Panel) : State :=
  {| tracks := tracks ui; visualizer := visualizer ui;
     selectedResult := selectedResult ui; sliderValues := sliderValues ui;
     panel := p; explanationText := explanationText ui |}.

(** [renderResults(results, params)]: the list is written and the first
    result selected. *)
Definition renderResults (ui : State) (results : list Search.Result)
  : State * list Visualizer.DrawCmd :=
  match results with
  | first :: _ => selectResult (with_panel ui (Listed results 0)) first
  | [] => (with_panel ui (Listed results 0), [])   (* not called so *)
  end.

(** [performSearch()], the search box holding [query]. *)
Definition performSearch (ui : State) (query : string)
  : State * list Visualizer.DrawCmd :=
  let params := Search.mkParams query (Some (sliderValues ui)) in
  let results := Search.search (tracks ui) params 5 in
  match results with
  | [] => (with_panel ui NoMatches, [])
  | _ :: _ => renderResults ui results
  end.

(** What the user does: moving a slider to [val], running a search,
    clicking on the [i]-th result of the list. *)
Inductive Event : Type :=
| SliderInput (k : slider_key) (val : R)
| Search (query : string)
| Click (i : nat).

Definition dispatch (ui : State) (e : Event) : State * list Visualizer.DrawCmd :=
  match e with
  | SliderInput k val =>
      ({| tracks := tracks ui; visualizer := visualizer ui;
          selectedResult := selectedResult ui;
          sliderValues := set_slider (sliderValues ui) k (JNum val);
          panel := panel ui; explanationText := explanationText ui |}, [])
  | Search query => performSearch ui query
  | Click i =>
      match panel ui with
      | Listed results _ =>
          match nth_error results i with
          | Some result => selectResult (with_panel ui (Listed results i)) result
          | None => (ui, [])
          end
      | _ => (ui, [])
      end
  end.

Fixpoint run (ui : State) (es : list Event) : State * list Visualizer.DrawCmd :=
  match es with
  | [] => (ui, [])
  | e :: rest =>
      let '(s1, out1) := dispatch ui e in
      let '(s2, out2) := run s1 rest in
      (s2, out1 ++ out2)
  end.

End WithRandom.

(** Every slider holds a number. *)
Definition sliders_set (s : Search.Sliders) : Prop :=
  forall k, exists val, get_slider s k = JNum val.

End UI.

(* ------------------------------------------------------------------ *)
(** ** Vocabulary for the statements about the ranking engine         *)
(* ------------------------------------------------------------------ *)

Module Ranking.

Import JSString JSNum Search.
Local Open Scope R_scope.

(** The results (or tracks) whose combined score is [v]. *)
Definition score_is (v : R) (r : Result) : bool :=
  if Req_dec_T (score r) v then true else false.

Definition scores (p : Params) (v : R) (t : Track) : bool :=
  score_is v (scoreTrack p t).

Definition candidates (tracks : list Track) (p : Params) : list Result :=
  let scored := map (scoreTrack p) tracks in
  if hasQuery p then filter positive_score scored else scored.

(** A feature field that holds a finite number of the unit interval. *)
Definition feature_in_range (v : jsnum) : Prop :=
  match v with
  | JNum r => 0 <= r <= 1
  | _ => False
  end.

Definition track_in_range (t : Track) : Prop :=
  forall k, feature_in_range (track_get t k).

(** A slider of the unit interval: unset, or set to a value of [0,1]. *)
Definition slider_in_range (v : jsnum) : Prop := 0 <= orZero v <= 1.

(** The slider ranges of the user interface; the tempo slider is free,
    its value being clamped by the normalization. *)
Definition sliders_in_range (p : Params) : Prop :=
  match sliders p with
  | Some s =>
      slider_in_range (s_Danceability s) /\ slider_in_range (s_Energy s) /\
      slider_in_range (s_Valence s) /\ slider_in_range (s_Acousticness s)
  | None => True
  end.

(** The text of an explanation whose percentage is [pct]. *)
Definition explanation (pct : Z) (parts : list string) : string :=
  ("Match confidence: " ++ string_of_Z pct ++ "%. "
     ++ join ". " parts ++ ".")%string.

(** The absolute difference between a track and the target on one
    dimension. *)
Definition gap (t : Track) (ns : NormalizedSliders) (k : feature_key) : R :=
  Rabs (orZero (track_get t k) - orZero (target_get ns k)).

(** How the value of the track on dimension [k] is displayed. *)
Definition display (t : Track) (k : feature_key) : string :=
  if is_tempoNorm k
  then (round_to_string (Tempo t) ++ " BPM")%string
  else (toFixed0 (orZero (track_get t k) * 100) ++ "%")%string.

(** The whole ranking: the search with a limit as large as the library. *)
Definition ranking (tracks : list Track) (p : Params) : list Result :=
  search tracks p (Z.of_nat (List.length tracks)).

(** The lower-cased query [q] touches no text of the track: it occurs in
    none of the name, the artist and the album, and, when it has several
    words, none of them occurs in the name or the artist. *)
Definition no_text_match (t : Track) (q : string) : Prop :=
  let name := toLowerCase (orEmpty (Track_Name t)) in
  let artist := toLowerCase (orEmpty (Artist_Names t)) in
  let album := toLowerCase (orEmpty (Album_Name t)) in
  includes name q = false /\
  includes artist q = false /\
  includes album q = false /\
  ((List.length (split_ws q) <= 1)%nat \/
   forall w, In w (split_ws q) ->
             includes name w = false /\ includes artist w = false).

(** Every slider of the object is [null]. *)
Definition all_null (s : Sliders) : Prop :=
  forall v, In v (slider_values s) -> v = JNull.

End Ranking.

(* ------------------------------------------------------------------ *)
(** ** Vocabulary for the statements about the visualizer             *)
(* ------------------------------------------------------------------ *)

Module Animation.

Import JSNum Visualizer.
Local Open Scope R_scope.

(** The features a [setTrack] leaves in [this.features] before any tick:
    the current ones, or the target when there are none yet. *)
Definition seeded (s : State) (t : Search.Track) : Features :=
  match features s with
  | Some f => f
  | None => featuresOf t
  end.

(** The largest gap between two feature records, up to a margin. *)
Definition span (a b : Features) : R :=
  1 + fold_right (fun k acc => Rabs (fget a k - fget b k) + acc) 0
        feature_keys.

(** [v] lies strictly between [a] and [b]. *)
Definition strictly_between (a b v : R) : Prop :=
  (a < v < b) \/ (b < v < a).

(** The threshold the random draw is compared with: [f.acousticness || 0.3]. *)
Definition organic_threshold (target : Features) : R :=
  orDefault (acousticness target) 0.3.

(** The number of particles generated for a target. *)
Definition count_for (target : Features) : nat :=
  Z.to_nat (Math_floor (80 + danceability target * 180)).

Definition shape_for (f : Features) (p : Particle) : Shape :=
  if organic p then SoftEllipse
  else if Rlt_dec 0.3 (instrumentalness f) then DiamondShape
  else RoundedRect.

(** Every feature lies in the unit interval. *)
Definition features_in_unit (f : Features) : Prop :=
  forall k, 0 <= fget f k <= 1.

Definition particle_ok (p : Particle) : Prop :=
  0 < size p /\ 0 <= life p < 1.

(** What the feature records and the particles of a visualizer satisfy as
    long as it is fed tracks whose features are in range. *)
Record Inv (s : State) : Prop := mkInv {
  inv_features : forall f, features s = Some f -> features_in_unit f;
  inv_target : forall f, targetFeatures s = Some f -> features_in_unit f;
  inv_particles : Forall particle_ok (particles s)
}.

(** A request the canvas accepts and whose styles are meaningful. *)
Definition cmd_ok (c : DrawCmd) : Prop := valid_cmd c /\ styles_ok c.

Definition event_in_range (e : Event) : Prop :=
  match e with
  | SetTrack t => features_in_unit (featuresOf t)
  | _ => True
  end.

(** The field of the track record each visualizer feature is read from. *)
Definition raw_field (t : Search.Track) (k : fkey) : jsnum :=
  match k with
  | F_valence => Search.Valence t
  | F_energy => Search.Energy t
  | F_danceability => Search.Danceability t
  | F_tempo => Search.tempoNorm t
  | F_loudness => Search.loudnessNorm t
  | F_acousticness => Search.Acousticness t
  | F_liveness => Search.Liveness t
  | F_instrumentalness => Search.Instrumentalness t
  end.

(** A tick may move a particle; it changes nothing else of it. *)
Definition same_attributes (p p' : Particle) : Prop :=
  vx p' = vx p /\ vy p' = vy p /\ size p' = size p /\ life p' = life p /\
  phase p' = phase p /\ organic p' = organic p.

(** The particle lies on the surface or within 10 pixels of it. *)
Definition in_margin (w h : R) (p : Particle) : Prop :=
  -10 <= x p <= w + 10 /\ -10 <= y p <= h + 10.

(** What a particle looks like when it has just been created on a surface
    of [w] by [h]. *)
Definition freshly_created (w h : R) (p : Particle) : Prop :=
  0 <= x p <= w /\ 0 <= y p <= h /\
  -1 <= vx p < 1 /\ -1 <= vy p < 1 /\
  1.5 <= size p < 6 /\ 0 <= life p < 1 /\ 0 <= phase p < 2 * PI.

(** The particle shapes among the requests of a tick, in order. *)
Definition shapes_drawn (cmds : list DrawCmd) : list Shape :=
  flat_map (fun c => match shape_of c with
                     | Some sh => [sh]
                     | None => []
                     end) cmds.

(** The connecting lines among the requests of a tick. *)
Definition is_line (c : DrawCmd) : bool :=
  match c with Line _ _ _ _ _ _ => true | _ => false end.

(** A [setTrack] whose track comes from the loaded library and has its
    plain features in the unit interval. *)
Definition loaded_event (library : list Data.LoadedTrack) (e : Event) : Prop :=
  match e with
  | SetTrack t =>
      exists lt, In lt library /\ Data.unit_features lt /\ t = Data.to_track lt
  | _ => True
  end.

Section WithRandom.

Variable random : nat -> R.

(** The current features after [setTrack A], [setTrack B] and [n]
    refreshes on a new visualizer. *)
Definition current_after (w h : R) (A B : Search.Track) (n : nat)
  : option Features :=
  features
    (fst (run random (new_visualizer w h)
            ([SetTrack A; SetTrack B] ++ frames n))).

(** The class given to the [i]-th particle generated when [n] random
    numbers have been drawn before. *)
Definition class_of_draw (target : Features) (n i : nat) : bool :=
  if Rlt_dec (random (n + 8 * i + 7)) (organic_threshold target)
  then true else false.

End WithRandom.

End Animation.

(* ------------------------------------------------------------------ *)
(** ** Sample data                                                     *)
(* ------------------------------------------------------------------ *)

Module Samples.

Import JSNum Search.
Local Open Scope R_scope.

Definition sun : Track :=
  mkTrack (Some "Sun"%string) (Some "Aria"%string) (Some "Dawn"%string)
    (JNum 0.8) (JNum 0.5) (JNum 0.5) (JNum 130) (JNum 0.5) (JNum 0.1)
    (JNum 0.5) (JNum 0.1) (JNum 0).

Definition moon : Track :=
  mkTrack (Some "Moon"%string) (Some "Luna"%string) (Some "Dusk"%string)
    (JNum 0.2) (JNum 0.5) (JNum 0.5) (JNum 130) (JNum 0.5) (JNum 0.1)
    (JNum 0.5) (JNum 0.1) (JNum 0).

Definition text_only (q : string) : Params := mkParams q None.

Definition dance_only (d : R) : Params :=
  mkParams ""%string (Some (mkSliders (JNum d) JNull JNull JNull JNull)).

Definition silent : Track :=
  mkTrack (Some "Rest"%string) (Some "Nobody"%string) None
    (JNum 0) (JNum 0) (JNum 0) (JNum 40) (JNum 0) (JNum 0)
    (JNum 0) (JNum 0) (JNum 0).

(** A track by the artist of [sun]. *)
Definition star : Track :=
  mkTrack (Some "Star"%string) (Some "Aria"%string) (Some "Night"%string)
    (JNum 0.3) (JNum 0.6) (JNum 0.4) (JNum 220) (JNum 1) (JNum 0.7)
    (JNum 0.5) (JNum 0.2) (JNum 0.9).

(** A random source stuck on one value. *)
Definition constant_random (v : R) : nat -> R := fun _ => v.

(** A record that lacks some features and holds [NaN] in another. *)
Definition sparse : Search.Track :=
  Search.mkTrack (Some "Sparse"%string) None None
    (JNum 0.9) JUndefined JNaN (JNum 100) JUndefined (JNum 0.4)
    JNull (JNum 1) (JNum 0.5).

(** A record whose normalized loudness is far below 0. *)
Definition muffled : Search.Track :=
  Search.mkTrack (Some "Muffled"%string) None None
    (JNum 0) (JNum 0) (JNum 0) (JNum 40) (JNum 0) (JNum 0)
    (JNum (-10)) (JNum 0) (JNum 0).

(** A running visualizer with a few particles, on its way from the
    features of [sun] to those of [moon]. *)
Definition speck : Visualizer.Particle :=
  Visualizer.mkParticle 795 10 1 (-1) 2 0.5 0 false.

Definition running : Visualizer.State :=
  Visualizer.mkState [speck; speck; speck; speck]
    (Some (Visualizer.featuresOf sun)) (Some (Visualizer.featuresOf moon))
    true 0 800 600 0.

(** A row of the file, and a stand-in for [parseFloat] that knows the two
    numbers of the row. *)
Definition sample_row : Data.Row :=
  Data.mkRow (Some "Sun"%string) (Some "spotify:track:abc"%string)
    (Some "Aria"%string) None
    (fun f => match f with
              | Data.N_Tempo => Some "120"%string
              | Data.N_Loudness => None
              | _ => Some "0.5"%string
              end).

Definition sample_parseFloat (cell : option string) : jsnum :=
  match cell with
  | Some s =>
      if String.eqb s "120" then JNum 120
      else if String.eqb s "0.5" then JNum 0.5
      else JNaN
  | None => JNaN
  end.

(** A query with a text and the danceability slider. *)
Definition both (q : string) (d : R) : Params :=
  mkParams q (Some (mkSliders (JNum d) JNull JNull JNull JNull)).

End Samples.

(* ================================================================== *)
(** * Properties                                                       *)
(* ================================================================== *)

Import JSString JSNum Ranking Animation Samples.

(* ------------------------------------------------------------------ *)
(** ** Strings                                                         *)
(* ------------------------------------------------------------------ *)

Section StringFacts.

Local Open Scope string_scope.

Example split_two : split_ws "daft  punk" = ["daft"; "punk"].
Proof. reflexivity. Qed.

Example split_edges : split_ws " a " = [""; "a"; ""].
Proof. reflexivity. Qed.

Example trim_ex : trim "  Get Lucky " = "Get Lucky".
Proof. reflexivity. Qed.

Example lower_ex : toLowerCase "Get Lucky" = "get lucky".
Proof. reflexivity. Qed.

Example includes_ex :
  includes "get lucky" "luck" = true /\ includes "get lucky" "duck" = false.
Proof. split; reflexivity. Qed.

Example string_of_Z_ex : string_of_Z 87 = "87" /\ string_of_Z 0 = "0".
Proof. split; reflexivity. Qed.

Example words_ex : Scheme.words "  daft   punk " = ["daft"; "punk"].
Proof. reflexivity. Qed.

Lemma is_ws_lower (c : ascii) : is_ws (lower_char c) = is_ws c.
Proof. destruct c as [[] [] [] [] [] [] [] []]; reflexivity. Qed.

Lemma toLowerCase_app (a b : string) :
  toLowerCase (a ++ b) = toLowerCase a ++ toLowerCase b.
Proof.
  induction a as [|c a IH]; simpl; [reflexivity|].
  now rewrite IH.
Qed.

Lemma string_app_assoc (a b c : string) : (a ++ b) ++ c = a ++ b ++ c.
Proof. induction a as [|x a IH]; simpl; [reflexivity|]. now rewrite IH. Qed.

Lemma nonempty_snoc (acc : string) (c : ascii) :
  nonempty (acc ++ String c "") = true.
Proof. destruct acc; reflexivity. Qed.

(** Splitting commutes with lower-casing. *)
Lemma split_ws_from_lower (s acc : string) (b : bool) :
  split_ws_from (toLowerCase s) (toLowerCase acc) b
  = map toLowerCase (split_ws_from s acc b).
Proof.
  revert acc b.
  induction s as [|c s IH]; intros acc b; simpl; [reflexivity|].
  rewrite is_ws_lower.
  destruct (is_ws c).
  - destruct b; simpl; [apply (IH "")|].
    f_equal. apply (IH "").
  - rewrite <- IH, toLowerCase_app. reflexivity.
Qed.

Lemma split_ws_lower (s : string) :
  split_ws (toLowerCase s) = map toLowerCase (split_ws s).
Proof. apply (split_ws_from_lower s ""). Qed.

Lemma split_ws_from_words (s acc : string) :
  ends_ok s (nonempty acc) = true ->
  split_ws_from s acc (negb (nonempty acc)) = Scheme.words_from s acc.
Proof.
  revert acc.
  induction s as [|c s IH]; intros acc H; simpl in *.
  - now rewrite H.
  - destruct (is_ws c); simpl in H.
    + destruct (nonempty acc); simpl.
      * f_equal. apply (IH ""). exact H.
      * apply (IH ""). exact H.
    + specialize (IH (acc ++ String c "")).
      rewrite nonempty_snoc in IH. simpl in IH.
      destruct (nonempty acc); simpl; apply IH; exact H.
Qed.

(** On a text with no white space at its ends, [split(/\s+/)] yields
    exactly its words. *)
Lemma split_ws_tight (s : string) :
  tight s = true -> split_ws s = Scheme.words s.
Proof.
  destruct s as [|c s]; simpl; [discriminate|].
  intros H. apply andb_prop in H. destruct H as [Hc He].
  unfold split_ws, Scheme.words. simpl.
  destruct (is_ws c); [discriminate|].
  apply (split_ws_from_words s (String c "")). exact He.
Qed.

Lemma ends_ok_trimEnd (s : string) (b : bool) :
  ends_ok (trimEnd s) b = if nonempty (trimEnd s) then true else b.
Proof.
  revert b.
  induction s as [|c s IH]; intros b; simpl; [reflexivity|].
  destruct (trimEnd s) as [|d r] eqn:E.
  - destruct (is_ws c) eqn:W; simpl; [reflexivity|]. now rewrite W.
  - simpl. specialize (IH (negb (is_ws c))). simpl in IH. exact IH.
Qed.

Lemma trimStart_head (s : string) :
  match trimStart s with
  | EmptyString => True
  | String c _ => is_ws c = false
  end.
Proof.
  induction s as [|c s IH]; simpl; [exact I|].
  destruct (is_ws c) eqn:W; [exact IH|exact W].
Qed.

Lemma trimEnd_head (c : ascii) (s : string) :
  is_ws c = false -> exists r, trimEnd (String c s) = String c r.
Proof.
  intros W. simpl. destruct (trimEnd s) as [|d r].
  - rewrite W. now exists "".
  - now exists (String d r).
Qed.

(** A trimmed text that is not empty has no white space at its ends. *)
Lemma trim_tight (s : string) : nonempty (trim s) = true -> tight (trim s) = true.
Proof.
  unfold trim. intros H.
  pose proof (trimStart_head s) as Hh.
  destruct (trimStart s) as [|c s'] eqn:E; [discriminate H|].
  destruct (trimEnd_head c s' Hh) as [r Hr].
  pose proof (ends_ok_trimEnd (String c s') false) as He.
  rewrite Hr in *. simpl in *. now rewrite Hh in *.
Qed.

(** The pieces obtained from the lower-cased trimmed query are the
    lower-cased words of the query. *)
Lemma split_query_words (q : string) :
  nonempty (trim q) = true ->
  split_ws (toLowerCase (trim q)) = map toLowerCase (Scheme.words (trim q)).
Proof.
  intros H. rewrite split_ws_lower. f_equal.
  apply split_ws_tight, trim_tight, H.
Qed.

Lemma filter_map_length {A B : Type} (f : A -> B) (P : B -> bool)
  (l : list A) :
  List.length (filter P (map f l))
  = List.length (filter (fun a => P (f a)) l).
Proof.
  induction l as [|a l IH]; simpl; [reflexivity|].
  destruct (P (f a)); simpl; now rewrite IH.
Qed.

End StringFacts.

(* ------------------------------------------------------------------ *)
(** ** Ranking engine: text score                                      *)
(* ------------------------------------------------------------------ *)

Section TextScore.

Import Search.
Local Open Scope R_scope.

Example text_score_exact_name : textScore (text_only " SUN ") sun = 1.
Proof.
  unfold textScore, computeTextScore; simpl.
  unfold Rmin. destruct (Rle_dec _ _); lra.
Qed.

Example text_score_artist : textScore (text_only "aria") sun = 0.9.
Proof.
  unfold textScore, computeTextScore; simpl.
  unfold Rmin. destruct (Rle_dec _ _); lra.
Qed.

Example text_score_album_only : textScore (text_only "dawn") sun = 0.2.
Proof.
  unfold textScore, computeTextScore; simpl.
  unfold Rmin. destruct (Rle_dec _ _); lra.
Qed.

Example text_score_words : textScore (text_only "sun luna") sun = 0.15.
Proof.
  unfold textScore, computeTextScore; simpl.
  unfold Rmin. destruct (Rle_dec _ _); lra.
Qed.

Lemma matched_words_count (name artist q : string) :
  nonempty (trim q) = true ->
  let name' := toLowerCase name in
  let artist' := toLowerCase artist in
  let ws := split_ws (toLowerCase (trim q)) in
  List.length ws = List.length (Scheme.words (trim q)) /\
  List.length (filter (fun w => includes name' w || includes artist' w) ws)
  = List.length (filter (Scheme.word_matches name artist)
                   (Scheme.words (trim q))).
Proof.
  intros H; cbv zeta. rewrite (split_query_words q H). split.
  - apply length_map.
  - rewrite filter_map_length. reflexivity.
Qed.

(** C1. For every track and every query whose trimmed text is not empty,
    the text score that [search] computes is the additive scheme of the
    specification clamped at 1: 1.0 / 0.8 / 0.6 for a case-insensitive
    exact / prefix / substring match of the trimmed query in the name, 0.9 /
    0.5 for an exact / substring match in the artist, 0.2 for a substring
    match in the album, and (matched words / words) * 0.3 when the query has
    more than one word. *)
Theorem C1_text_score_scheme (p : Params) (t : Track) :
  hasQuery p = true ->
  textScore p t = Scheme.text_score t (trim (query p)).
Proof.
  intros H. unfold textScore. rewrite H.
  unfold computeTextScore, Scheme.text_score.
  destruct (matched_words_count (orEmpty (Track_Name t))
              (orEmpty (Artist_Names t)) (query p) H) as [Hlen Hcnt].
  cbv zeta in Hlen, Hcnt. cbv zeta.
  unfold Scheme.word_bonus, Scheme.name_bonus, Scheme.artist_bonus,
    Scheme.album_bonus, Scheme.ci_equal, Scheme.ci_starts_with,
    Scheme.ci_contains, startsWith.
  cbv zeta. rewrite Hcnt, Hlen.
  f_equal.
  repeat match goal with
         | |- context [if ?b then _ else _] => destruct b
         end; lra.
Qed.

Lemma C1_text_score_scheme_witness :
  hasQuery (text_only "sun luna") = true /\
  textScore (text_only "sun luna") sun
  = Scheme.text_score sun (trim "sun luna").
Proof.
  split; [reflexivity|].
  apply (C1_text_score_scheme (text_only "sun luna") sun). reflexivity.
Defined.

End TextScore.

(* ------------------------------------------------------------------ *)
(** ** Ranking engine: feature score                                   *)
(* ------------------------------------------------------------------ *)

Section FeatureScore.

Import Search.
Local Open Scope R_scope.

Lemma maxDist_sqrt5 : sqrt (INR (List.length FEATURE_KEYS)) = sqrt 5.
Proof. f_equal. simpl. lra. Qed.

Lemma sqrt5_pos : 0 < sqrt 5.
Proof. apply sqrt_lt_R0. lra. Qed.

Lemma euclideanDistance_distance (t : Track) (s : Sliders) :
  euclideanDistance t (normalize s)
  = Scheme.distance (Scheme.track_point t) (Scheme.target_point s).
Proof.
  unfold euclideanDistance, Scheme.distance. f_equal.
  simpl. ring.
Qed.

Lemma normalizedSliders_active (p : Params) (s : Sliders) :
  sliders p = Some s -> hasSliders p = true ->
  normalizedSliders p = Some (normalize s, s).
Proof. intros Hs Hh. unfold normalizedSliders. now rewrite Hh, Hs. Qed.

Lemma featureScore_active (p : Params) (s : Sliders) (t : Track) :
  sliders p = Some s -> hasSliders p = true ->
  featureScore p t
  = 1 - Scheme.distance (Scheme.track_point t) (Scheme.target_point s)
        / sqrt 5.
Proof.
  intros Hs Hh. unfold featureScore.
  rewrite (normalizedSliders_active p s Hs Hh). cbv zeta.
  now rewrite maxDist_sqrt5, euclideanDistance_distance.
Qed.

Lemma sum_sq_diff_same (a : list R) : Scheme.sum_sq_diff a a = 0.
Proof. induction a as [|u a IH]; simpl; [reflexivity|]. rewrite IH. ring. Qed.

(** C2. With at least one slider set, the feature score of a track is
    [1 - d / sqrt 5], [d] being the Euclidean distance between the track and
    the normalized slider target over the five feature dimensions (missing
    values counting as 0).  Hence it is exactly 1 when the target coincides
    with the track, and it strictly decreases as the distance grows. *)
Theorem C2_feature_score (p : Params) (s : Sliders) (t : Track) :
  sliders p = Some s -> hasSliders p = true ->
  let d := Scheme.distance (Scheme.track_point t) (Scheme.target_point s) in
  featureScore p t = 1 - d / sqrt 5 /\
  (Scheme.track_point t = Scheme.target_point s -> featureScore p t = 1) /\
  (forall (p' : Params) (s' : Sliders) (t' : Track),
      sliders p' = Some s' -> hasSliders p' = true ->
      d < Scheme.distance (Scheme.track_point t') (Scheme.target_point s') ->
      featureScore p' t' < featureScore p t).
Proof.
  intros Hs Hh d.
  pose proof sqrt5_pos as H5.
  split; [|split].
  - apply featureScore_active; assumption.
  - intros E. rewrite (featureScore_active p s t Hs Hh), E.
    unfold Scheme.distance. rewrite sum_sq_diff_same, sqrt_0. field. lra.
  - intros p' s' t' Hs' Hh' Hlt.
    rewrite (featureScore_active p s t Hs Hh),
      (featureScore_active p' s' t' Hs' Hh').
    fold d. apply Rplus_lt_compat_l, Ropp_lt_contravar.
    unfold Rdiv. apply Rmult_lt_compat_r; [|exact Hlt].
    apply Rinv_0_lt_compat, H5.
Qed.

Lemma C2_feature_score_witness :
  let s := mkSliders (JNum 0.8) JNull JNull JNull JNull in
  sliders (dance_only 0.8) = Some s /\
  hasSliders (dance_only 0.8) = true /\
  featureScore (dance_only 0.8) sun
  = 1 - Scheme.distance (Scheme.track_point sun) (Scheme.target_point s)
        / sqrt 5.
Proof.
  intros s. split; [reflexivity|]. split; [reflexivity|].
  exact (proj1 (C2_feature_score (dance_only 0.8) s sun eq_refl eq_refl)).
Defined.

End FeatureScore.

(* ------------------------------------------------------------------ *)
(** ** The stable sort                                                 *)
(* ------------------------------------------------------------------ *)

Section SortFacts.

Local Open Scope R_scope.

Context {A : Type} (cmp : A -> A -> R) (rank : A -> R).

(** The comparator orders by [rank]: [cmp a b] is negative exactly when [a]
    ranks strictly before [b]. *)
Hypothesis cmp_rank : forall a b, cmp a b < 0 <-> rank a < rank b.

Lemma insert_In (x z : A) (l : list A) :
  In z (insert cmp x l) <-> z = x \/ In z l.
Proof.
  induction l as [|y l IH]; simpl.
  - intuition.
  - destruct (Rlt_dec (cmp y x) 0); simpl; rewrite ?IH; intuition.
Qed.

Lemma insert_length (x : A) (l : list A) :
  List.length (insert cmp x l) = S (List.length l).
Proof.
  induction l as [|y l IH]; simpl; [reflexivity|].
  destruct (Rlt_dec (cmp y x) 0); simpl; now rewrite ?IH.
Qed.

Lemma sort_length (l : list A) : List.length (JSNum.sort cmp l) = List.length l.
Proof.
  induction l as [|x l IH]; simpl; [reflexivity|].
  now rewrite insert_length, IH.
Qed.

Lemma sort_In (z : A) (l : list A) : In z (JSNum.sort cmp l) <-> In z l.
Proof.
  induction l as [|x l IH]; simpl; [reflexivity|].
  rewrite insert_In, IH. intuition.
Qed.

Lemma insert_sorted (x : A) (l : list A) :
  StronglySorted (fun a b => rank a <= rank b) l ->
  StronglySorted (fun a b => rank a <= rank b) (insert cmp x l).
Proof.
  induction 1 as [|y l Hs IH Hy]; simpl.
  - repeat constructor.
  - destruct (Rlt_dec (cmp y x) 0) as [Hlt|Hge].
    + constructor; [exact IH|].
      apply Forall_forall. intros z Hz. apply insert_In in Hz.
      destruct Hz as [->|Hz].
      * apply cmp_rank in Hlt. lra.
      * rewrite Forall_forall in Hy. now apply Hy.
    + assert (Hxy : rank x <= rank y).
      { destruct (Rle_dec (rank x) (rank y)) as [|N]; [assumption|].
        exfalso. apply Hge, cmp_rank. lra. }
      constructor; [now constructor|].
      constructor; [exact Hxy|].
      rewrite Forall_forall in Hy |- *. intros z Hz.
      specialize (Hy z Hz). lra.
Qed.

Lemma sort_sorted (l : list A) :
  StronglySorted (fun a b => rank a <= rank b) (JSNum.sort cmp l).
Proof.
  induction l as [|x l IH]; simpl; [constructor|].
  now apply insert_sorted.
Qed.

(** Inserting [x] leaves it in front of the elements of its own rank. *)
Lemma insert_stable (v : R) (x : A) (l : list A) :
  filter (has_rank rank v) (insert cmp x l) = filter (has_rank rank v) (x :: l).
Proof.
  induction l as [|y l IH]; [reflexivity|].
  simpl insert. destruct (Rlt_dec (cmp y x) 0) as [Hlt|Hge]; [|reflexivity].
  apply cmp_rank in Hlt.
  simpl filter in *. rewrite IH. unfold has_rank.
  destruct (Req_dec_T (rank y) v), (Req_dec_T (rank x) v);
    try reflexivity.
  exfalso. lra.
Qed.

(** Stability: the elements of any given rank come out in the order they
    went in. *)
Lemma sort_stable (v : R) (l : list A) :
  filter (has_rank rank v) (JSNum.sort cmp l) = filter (has_rank rank v) l.
Proof.
  induction l as [|x l IH]; [reflexivity|].
  simpl JSNum.sort. rewrite insert_stable. simpl. now rewrite IH.
Qed.

(** The head of the sorted array: the first element of least rank. *)
Lemma sort_head_first_min (l : list A) (best : A) :
  hd_error (JSNum.sort cmp l) = Some best ->
  exists before after,
    l = before ++ best :: after /\
    Forall (fun a => rank best < rank a) before /\
    Forall (fun a => rank best <= rank a) after.
Proof.
  revert best.
  induction l as [|x l IH]; intros best H; [discriminate|].
  simpl in H. destruct (JSNum.sort cmp l) as [|y l'] eqn:E.
  - simpl in H. injection H as <-.
    assert (l = []) as ->.
    { destruct l; [reflexivity|].
      apply (f_equal (@List.length A)) in E. rewrite sort_length in E.
      discriminate. }
    exists [], []. repeat split; constructor.
  - destruct (IH y eq_refl) as (before & after & -> & Hb & Ha).
    simpl in H. destruct (Rlt_dec (cmp y x) 0) as [Hlt|Hge].
    + injection H as <-. apply cmp_rank in Hlt.
      exists (x :: before), after. repeat split; [|assumption].
      constructor; assumption.
    + injection H as <-.
      assert (Hxy : rank x <= rank y).
      { destruct (Rle_dec (rank x) (rank y)) as [|N]; [assumption|].
        exfalso. apply Hge, cmp_rank. lra. }
      exists [], (before ++ y :: after). repeat split; [constructor|].
      apply Forall_app. split.
      * eapply Forall_impl; [|exact Hb]. simpl. intros; lra.
      * constructor; [exact Hxy|].
        eapply Forall_impl; [|exact Ha]. simpl. intros; lra.
Qed.

End SortFacts.

Section SliceFacts.

Context {A : Type}.

Lemma slice0_prefix (l : list A) (n : Z) :
  exists rest, l = slice0 l n ++ rest.
Proof.
  unfold slice0. destruct (n <? 0)%Z;
    eexists; symmetry; apply firstn_skipn.
Qed.

Lemma slice0_length (l : list A) (n : Z) :
  (0 <= n)%Z -> (List.length (slice0 l n) <= Z.to_nat n)%nat.
Proof.
  intros H. unfold slice0.
  destruct (Z.ltb_spec n 0); [lia|].
  apply firstn_le_length.
Qed.

Lemma StronglySorted_prefix (R : A -> A -> Prop) (l1 l2 : list A) :
  StronglySorted R (l1 ++ l2) -> StronglySorted R l1.
Proof.
  induction l1 as [|a l1 IH]; simpl; intros H; [constructor|].
  inversion H as [|? ? Hs Hf]; subst.
  constructor; [now apply IH|].
  apply Forall_app in Hf. tauto.
Qed.

End SliceFacts.

(* ------------------------------------------------------------------ *)
(** ** Ranking engine: order, ties and length of the result           *)
(* ------------------------------------------------------------------ *)

Section SearchOrder.

Import Search.
Local Open Scope R_scope.

(** The comparator of [search] ranks by decreasing score. *)
Lemma search_cmp_rank (a b : Result) :
  score b - score a < 0 <-> - score a < - score b.
Proof. lra. Qed.

Lemma score_is_has_rank (v : R) (l : list Result) :
  filter (score_is v) l = filter (has_rank (fun r => - score r) (- v)) l.
Proof.
  apply filter_ext. intros r. unfold score_is, has_rank.
  destruct (Req_dec_T (score r) v), (Req_dec_T (- score r) (- v));
    try reflexivity; exfalso; lra.
Qed.

Lemma search_active (tracks : list Track) (p : Params) (limit : Z) :
  hasQuery p = true \/ hasSliders p = true ->
  search tracks p limit
  = slice0 (JSNum.sort (fun a b => score b - score a) (candidates tracks p))
      limit.
Proof.
  intros H. unfold search, candidates.
  destruct (hasQuery p), (hasSliders p); simpl; try reflexivity.
  destruct H; discriminate.
Qed.

Lemma filter_scored (p : Params) (v : R) (tracks : list Track) :
  map track (filter (score_is v) (map (scoreTrack p) tracks))
  = filter (scores p v) tracks.
Proof.
  induction tracks as [|t l IH]; simpl; [reflexivity|].
  unfold scores at 1. destruct (score_is v (scoreTrack p t)); simpl;
    now rewrite IH.
Qed.

Lemma filter_positive_score (v : R) (l : list Result) :
  filter (score_is v) (filter positive_score l)
  = if Rlt_dec 0 v then filter (score_is v) l else [].
Proof.
  induction l as [|r l IH]; simpl.
  - now destruct (Rlt_dec 0 v).
  - unfold positive_score at 1, score_is at 2.
    destruct (Rlt_dec 0 (score r)) as [Hp|Hn]; simpl; rewrite IH.
    + unfold score_is at 1.
      destruct (Req_dec_T (score r) v) as [E|N], (Rlt_dec 0 v);
        try reflexivity.
      exfalso; lra.
    + destruct (Req_dec_T (score r) v) as [E|N], (Rlt_dec 0 v);
        try reflexivity.
      exfalso; lra.
Qed.

(** The results of a given score are, track for track, an initial segment
    of the library tracks that have this score. *)
Lemma search_ties_in_library_order (tracks : list Track) (p : Params)
  (limit : Z) (v : R) :
  hasQuery p = true \/ hasSliders p = true ->
  exists rest,
    filter (scores p v) tracks
    = map track (filter (score_is v) (search tracks p limit)) ++ rest.
Proof.
  intros H. rewrite (search_active tracks p limit H).
  set (sorted := JSNum.sort _ _).
  destruct (slice0_prefix sorted limit) as [rest0 Hrest].
  assert (Hst : filter (score_is v) sorted
                = filter (score_is v) (candidates tracks p)).
  { unfold sorted. rewrite !score_is_has_rank.
    apply sort_stable. intros a b. apply search_cmp_rank. }
  rewrite Hrest, filter_app in Hst.
  rewrite <- filter_scored.
  unfold candidates in Hst. destruct (hasQuery p).
  - rewrite filter_positive_score in Hst.
    destruct (Rlt_dec 0 v).
    + exists (map track (filter (score_is v) rest0)).
      now rewrite <- Hst, map_app.
    + apply app_eq_nil in Hst. destruct Hst as [-> _]. simpl.
      now eexists.
  - exists (map track (filter (score_is v) rest0)).
    now rewrite <- Hst, map_app.
Qed.

Lemma search_sorted (tracks : list Track) (p : Params) (limit : Z) :
  hasQuery p = true \/ hasSliders p = true ->
  StronglySorted (fun a b => score a >= score b) (search tracks p limit).
Proof.
  intros H. rewrite (search_active tracks p limit H).
  set (sorted := JSNum.sort _ _).
  assert (Hs : StronglySorted (fun a b => score a >= score b) sorted).
  { pose proof (sort_sorted (fun a b => score b - score a)
                  (fun r => - score r) search_cmp_rank
                  (candidates tracks p)) as Hs.
    fold sorted in Hs. clearbody sorted.
    induction Hs as [|a l Hl IH Ha]; constructor; [assumption|].
    eapply Forall_impl; [|exact Ha]. simpl. intros; lra. }
  destruct (slice0_prefix sorted limit) as [rest Hrest].
  rewrite Hrest in Hs. now apply StronglySorted_prefix in Hs.
Qed.

(** C3. With an active signal and a positive limit, the results are sorted
    by non-increasing score, results of equal score appear in the order of
    their tracks in the library, and there are at most [limit] of them. *)
Theorem C3_sorted_stable_limited (tracks : list Track) (p : Params)
  (limit : Z) :
  hasQuery p = true \/ hasSliders p = true ->
  (0 < limit)%Z ->
  let results := search tracks p limit in
  StronglySorted (fun a b => score a >= score b) results /\
  (forall v, exists rest,
      filter (scores p v) tracks
      = map track (filter (score_is v) results) ++ rest) /\
  (List.length results <= Z.to_nat limit)%nat.
Proof.
  intros H Hl results. unfold results. split; [|split].
  - now apply search_sorted.
  - intros v. now apply search_ties_in_library_order.
  - rewrite (search_active tracks p limit H).
    apply slice0_length. lia.
Qed.

Lemma C3_sorted_stable_limited_witness :
  (hasQuery (dance_only 0.8) = true \/ hasSliders (dance_only 0.8) = true) /\
  (0 < 5)%Z /\
  StronglySorted (fun a b => score a >= score b)
    (search [moon; sun; moon] (dance_only 0.8) 5) /\
  (List.length (search [moon; sun; moon] (dance_only 0.8) 5) <= 5)%nat.
Proof.
  assert (H : hasQuery (dance_only 0.8) = true
              \/ hasSliders (dance_only 0.8) = true)
    by (right; reflexivity).
  assert (L : (0 < 5)%Z) by lia.
  pose proof (C3_sorted_stable_limited [moon; sun; moon] (dance_only 0.8) 5
                H L) as (Hs & _ & Hn).
  repeat split; assumption.
Defined.

End SearchOrder.

(* ------------------------------------------------------------------ *)
(** ** Ranking engine: range of the score, stated percentage           *)
(* ------------------------------------------------------------------ *)

Section ScoreRange.

Import Search.
Local Open Scope R_scope.

Lemma feature_in_range_orZero (v : jsnum) :
  feature_in_range v -> 0 <= orZero v <= 1.
Proof. destruct v; simpl; intros H; try contradiction; exact H. Qed.

Lemma normalizeTempo_range (v : jsnum) : 0 <= orZero (normalizeTempo v) <= 1.
Proof.
  unfold normalizeTempo.
  destruct v as [| | |r]; simpl; try lra.
  - unfold Rmax, Rmin.
    repeat match goal with |- context [Rle_dec ?a ?b] =>
                             destruct (Rle_dec a b) end; lra.
  - unfold Rmax, Rmin.
    repeat match goal with |- context [Rle_dec ?a ?b] =>
                             destruct (Rle_dec a b) end; lra.
Qed.

(** An unset tempo slider is normalized to 0. *)
Lemma normalizeTempo_null : orZero (normalizeTempo JNull) = 0.
Proof.
  unfold normalizeTempo. simpl. unfold Rmax, Rmin.
  repeat match goal with |- context [Rle_dec ?a ?b] =>
                           destruct (Rle_dec a b) end; lra.
Qed.

Lemma sq_diff_unit (u v : R) :
  0 <= u <= 1 -> 0 <= v <= 1 -> 0 <= (u - v) * (u - v) <= 1.
Proof.
  intros Hu Hv. split; [apply Rle_0_sqr|].
  assert (H : 0 <= (1 - (u - v)) * (1 + (u - v)))
    by (apply Rmult_le_pos; lra).
  nra.
Qed.

Lemma computeTextScore_range (t : Track) (q : string) :
  0 <= computeTextScore t q <= 1.
Proof.
  unfold computeTextScore. cbv zeta.
  set (ws := split_ws q).
  set (m := filter _ ws).
  assert (Hw : 0 <= (if (1 <? List.length ws)%nat
                     then INR (List.length m) / INR (List.length ws) * 0.3
                     else 0)).
  { destruct (Nat.ltb_spec 1 (List.length ws)) as [Hlt|]; [|lra].
    assert (0 < INR (List.length ws)) by (apply lt_0_INR; lia).
    assert (0 <= INR (List.length m)) by apply pos_INR.
    apply Rmult_le_pos; [|lra].
    apply Rmult_le_pos; [assumption|].
    apply Rlt_le, Rinv_0_lt_compat. assumption. }
  split.
  - apply Rmin_glb; [|lra].
    destruct (1 <? List.length ws)%nat;
      repeat match goal with
             | |- context [if ?b then _ else _] => destruct b
             end; lra.
  - apply Rmin_r.
Qed.

Lemma textScore_range (p : Params) (t : Track) : 0 <= textScore p t <= 1.
Proof.
  unfold textScore. destruct (hasQuery p); [|lra].
  apply computeTextScore_range.
Qed.

Lemma featureScore_range (p : Params) (t : Track) :
  track_in_range t -> sliders_in_range p -> 0 <= featureScore p t <= 1.
Proof.
  intros Ht Hp.
  destruct (hasSliders p) eqn:Hh.
  2:{ unfold featureScore, normalizedSliders. rewrite Hh. lra. }
  destruct (sliders p) as [s|] eqn:Hs.
  2:{ unfold hasSliders in Hh. rewrite Hs in Hh. discriminate. }
  rewrite (featureScore_active p s t Hs Hh).
  unfold sliders_in_range in Hp. rewrite Hs in Hp.
  destruct Hp as (Hd & He & Hv & Ha).
  pose proof (feature_in_range_orZero _ (Ht K_Danceability)) as T1.
  pose proof (feature_in_range_orZero _ (Ht K_Energy)) as T2.
  pose proof (feature_in_range_orZero _ (Ht K_Valence)) as T3.
  pose proof (feature_in_range_orZero _ (Ht K_tempoNorm)) as T4.
  pose proof (feature_in_range_orZero _ (Ht K_Acousticness)) as T5.
  simpl in T1, T2, T3, T4, T5.
  pose proof (normalizeTempo_range (s_Tempo s)) as Hn.
  unfold slider_in_range in *.
  unfold Scheme.distance, Scheme.track_point, Scheme.target_point.
  simpl Scheme.sum_sq_diff.
  pose proof (sq_diff_unit _ _ T1 Hd) as S1.
  pose proof (sq_diff_unit _ _ T2 He) as S2.
  pose proof (sq_diff_unit _ _ T3 Hv) as S3.
  pose proof (sq_diff_unit _ _ T4 Hn) as S4.
  pose proof (sq_diff_unit _ _ T5 Ha) as S5.
  set (sum := _ + _) in *.
  assert (Hsum : 0 <= sum <= 5) by (unfold sum; lra).
  pose proof sqrt5_pos as H5.
  assert (H0 : 0 <= sqrt sum) by apply sqrt_pos.
  assert (H1 : sqrt sum <= sqrt 5) by (apply sqrt_le_1; lra).
  assert (Hq : 0 <= sqrt sum / sqrt 5 <= 1).
  { split.
    - apply Rmult_le_pos; [assumption|].
      apply Rlt_le, Rinv_0_lt_compat, H5.
    - apply (Rmult_le_reg_r (sqrt 5)); [assumption|].
      unfold Rdiv. rewrite Rmult_assoc, Rinv_l; lra. }
  lra.
Qed.

Lemma combinedScore_range (p : Params) (t : Track) :
  track_in_range t -> sliders_in_range p -> 0 <= combinedScore p t <= 1.
Proof.
  intros Ht Hp.
  pose proof (textScore_range p t) as HT.
  pose proof (featureScore_range p t Ht Hp) as HF.
  unfold combinedScore.
  destruct (hasQuery p && hasSliders p); [lra|].
  destruct (hasQuery p); assumption.
Qed.

(** Every result is the scoring of a track of the library. *)
Lemma search_In (tracks : list Track) (p : Params) (limit : Z) (r : Result) :
  In r (search tracks p limit) ->
  exists t, In t tracks /\ r = scoreTrack p t /\
            (hasQuery p = true \/ hasSliders p = true) /\
            (hasQuery p = true -> 0 < score r).
Proof.
  intros H.
  assert (Ha : hasQuery p = true \/ hasSliders p = true).
  { unfold search in H.
    destruct (hasQuery p), (hasSliders p); auto. }
  rewrite (search_active tracks p limit Ha) in H.
  destruct (slice0_prefix
              (JSNum.sort (fun a b => score b - score a)
                 (candidates tracks p)) limit) as [rest Hrest].
  assert (Hin : In r (candidates tracks p)).
  { apply (sort_In (fun a b => score b - score a)). rewrite Hrest.
    apply in_or_app. now left. }
  unfold candidates in Hin. destruct (hasQuery p) eqn:Hq.
  - apply filter_In in Hin. destruct Hin as [Hin Hpos].
    apply in_map_iff in Hin. destruct Hin as (t & <- & Ht).
    exists t. repeat split; auto.
    intros _. unfold positive_score in Hpos.
    destruct (Rlt_dec 0 (score (scoreTrack p t))); [assumption|discriminate].
  - apply in_map_iff in Hin. destruct Hin as (t & <- & Ht).
    exists t. repeat split; auto. discriminate.
Qed.

Lemma nearest_int_round (x : R) : nearest_int x = Math_round x.
Proof.
  unfold nearest_int, Math_round.
  destruct (base_Int_part x) as [Hle Hgt].
  destruct (Rlt_dec (x - IZR (Int_part x)) (1 / 2)) as [Hlt|Hge].
  - apply Int_part_spec. lra.
  - apply Int_part_spec. rewrite plus_IZR. lra.
Qed.

(** On a non-negative number [toFixed(0)] prints [Math.round]. *)
Lemma toFixed0_round (x : R) :
  0 <= x -> toFixed0 x = string_of_Z (Math_round x).
Proof.
  intros H. unfold toFixed0.
  destruct (Rlt_dec x 0); [lra|].
  now rewrite nearest_int_round.
Qed.

Lemma Forall_track_in_range (t : Track) (tracks : list Track) :
  Forall track_in_range tracks -> In t tracks -> track_in_range t.
Proof. intros H. rewrite Forall_forall in H. apply H. Qed.

(** C4, as amended.  When the tracks hold finite feature values in their
    normalized ranges and the unit sliders that are set lie in [0,1], every
    result has a score in [0,1] (text score, feature score and their
    0.55 / 0.45 combination alike), and the percentage that
    [buildExplanation] states is [round(score * 100)]. *)
Theorem C4_score_in_unit_interval (tracks : list Track) (p : Params)
  (limit : Z) (r : Result) :
  Forall track_in_range tracks ->
  sliders_in_range p ->
  In r (search tracks p limit) ->
  0 <= textScore p (track r) <= 1 /\
  0 <= featureScore p (track r) <= 1 /\
  0 <= score r <= 1 /\
  buildExplanation r = explanation (Math_round (score r * 100)) (reasons r).
Proof.
  intros Ht Hp Hin.
  destruct (search_In tracks p limit r Hin) as (t & Hin' & -> & _ & _).
  pose proof (Forall_track_in_range t tracks Ht Hin') as Hr.
  simpl track. simpl score. simpl reasons.
  pose proof (combinedScore_range p t Hr Hp) as Hc.
  repeat split; try apply textScore_range;
    try apply (featureScore_range p t Hr Hp); try apply Hc.
  unfold buildExplanation, explanation. cbv zeta.
  rewrite toFixed0_round by (simpl score; lra).
  now rewrite !string_app_assoc.
Qed.

Lemma sun_in_range : track_in_range sun.
Proof. intros k. destruct k; simpl; lra. Qed.

Lemma silent_in_range : track_in_range silent.
Proof. intros k. destruct k; simpl; lra. Qed.

Lemma search_single_sliders (t : Track) (d : R) (limit : Z) :
  (0 < limit)%Z ->
  search [t] (dance_only d) limit = [scoreTrack (dance_only d) t].
Proof.
  intros H. unfold search, slice0. simpl.
  destruct (Z.ltb_spec limit 0); [lia|].
  destruct (Z.to_nat limit) eqn:E; [lia|]. simpl. now rewrite firstn_nil.
Qed.

Lemma C4_score_in_unit_interval_witness :
  let r := scoreTrack (dance_only 0.8) sun in
  0 <= score r <= 1 /\
  buildExplanation r = explanation (Math_round (score r * 100)) (reasons r).
Proof.
  intros r.
  assert (Ht : Forall track_in_range [sun])
    by (constructor; [exact sun_in_range|constructor]).
  assert (Hp : sliders_in_range (dance_only 0.8))
    by (unfold sliders_in_range, slider_in_range; simpl; lra).
  assert (Hin : In r (search [sun] (dance_only 0.8) 5))
    by (rewrite search_single_sliders by lia; left; reflexivity).
  destruct (C4_score_in_unit_interval [sun] (dance_only 0.8) 5 r Ht Hp Hin)
    as (_ & _ & Hs & He).
  split; assumption.
Defined.

(** C4 as stated fails: the tracks are in range and a slider is active, yet
    a slider set to 3 drives the score of the result below 0. *)
Lemma C4_score_below_zero :
  Forall track_in_range [silent] /\
  hasSliders (dance_only 3) = true /\
  In (scoreTrack (dance_only 3) silent) (search [silent] (dance_only 3) 5) /\
  score (scoreTrack (dance_only 3) silent) < 0.
Proof.
  split; [constructor; [exact silent_in_range|constructor]|].
  split; [reflexivity|].
  split; [rewrite search_single_sliders by lia; left; reflexivity|].
  simpl score. unfold combinedScore. simpl hasQuery. cbv iota. simpl andb.
  cbv iota.
  rewrite (featureScore_active (dance_only 3)
             (mkSliders (JNum 3) JNull JNull JNull JNull) silent eq_refl
             eq_refl).
  unfold Scheme.distance, Scheme.target_point.
  simpl s_Tempo. rewrite normalizeTempo_null.
  simpl Scheme.sum_sq_diff.
  replace (_ + _) with (3 * 3) by (simpl; ring).
  rewrite sqrt_square by lra.
  assert (H5 : sqrt 5 < 3).
  { rewrite <- (sqrt_square 3) by lra. apply sqrt_lt_1; lra. }
  pose proof sqrt5_pos as Hp.
  assert (1 < 3 / sqrt 5).
  { apply (Rmult_lt_reg_r (sqrt 5)); [assumption|].
    unfold Rdiv. rewrite Rmult_assoc, Rinv_l; lra. }
  change (hasQuery (dance_only 3)) with false. cbv iota.
  lra.
Qed.

End ScoreRange.

(* ------------------------------------------------------------------ *)
(** ** Ranking engine: reasons                                         *)
(* ------------------------------------------------------------------ *)

Section Reasons.

Import Search.
Local Open Scope R_scope.

Lemma search_single (t : Track) (p : Params) (limit : Z) :
  (0 < limit)%Z ->
  hasQuery p = true \/ hasSliders p = true ->
  (hasQuery p = true -> 0 < combinedScore p t) ->
  search [t] p limit = [scoreTrack p t].
Proof.
  intros Hl Ha Hpos. rewrite (search_active [t] p limit Ha).
  unfold candidates. simpl map.
  assert (E : (if hasQuery p
               then filter positive_score [scoreTrack p t]
               else [scoreTrack p t]) = [scoreTrack p t]).
  { destruct (hasQuery p); [|reflexivity].
    simpl. unfold positive_score. simpl score.
    destruct (Rlt_dec 0 (combinedScore p t)) as [|N]; [reflexivity|].
    exfalso. now apply N, Hpos. }
  rewrite E. unfold slice0. simpl.
  destruct (Z.ltb_spec limit 0); [lia|].
  destruct (Z.to_nat limit) eqn:En; [lia|]. simpl. now rewrite firstn_nil.
Qed.

Lemma mkDiffs_keys (t : Track) (ns : NormalizedSliders) :
  map key (mkDiffs t ns) = FEATURE_KEYS.
Proof. reflexivity. Qed.

Lemma mkDiffs_entry (t : Track) (ns : NormalizedSliders) (d : Diff) :
  In d (mkDiffs t ns) ->
  diff d = gap t ns (key d) /\ trackVal d = orZero (track_get t (key d)).
Proof.
  unfold mkDiffs. intros H. apply in_map_iff in H.
  destruct H as (k & <- & _). split; reflexivity.
Qed.

(** The entry [diffs[0]] after the sort: the first of the dimensions on
    which the track is closest to the target. *)
Lemma bestDiff_closest (t : Track) (ns : NormalizedSliders) :
  exists best before after,
    bestDiff t ns = Some best /\
    diff best = gap t ns (key best) /\
    trackVal best = orZero (track_get t (key best)) /\
    FEATURE_KEYS = before ++ key best :: after /\
    Forall (fun k => gap t ns (key best) < gap t ns k) before /\
    Forall (fun k => gap t ns (key best) <= gap t ns k) after.
Proof.
  unfold bestDiff.
  destruct (hd_error (JSNum.sort (fun a b => diff a - diff b)
                        (mkDiffs t ns))) as [best|] eqn:E.
  2:{ exfalso.
      assert (L : List.length (JSNum.sort (fun a b => diff a - diff b)
                                 (mkDiffs t ns)) = 5%nat)
        by (rewrite sort_length; reflexivity).
      destruct (JSNum.sort _ _); discriminate. }
  destruct (sort_head_first_min (fun a b => diff a - diff b) diff
              (fun a b => ltac:(lra)) (mkDiffs t ns) best E)
    as (b & a & Hsplit & Hb & Ha).
  assert (Hall : forall d, In d (mkDiffs t ns) ->
                           diff d = gap t ns (key d) /\
                           trackVal d = orZero (track_get t (key d)))
    by apply mkDiffs_entry.
  rewrite Hsplit in Hall.
  assert (Hbest : In best (b ++ best :: a))
    by (apply in_or_app; right; left; reflexivity).
  destruct (Hall best Hbest) as [Hd Hv].
  exists best, (map key b), (map key a).
  repeat split; try assumption.
  - rewrite <- (mkDiffs_keys t ns), Hsplit, map_app. reflexivity.
  - rewrite Forall_map. rewrite Forall_forall in Hb |- *.
    intros d Hin. specialize (Hb d Hin).
    destruct (Hall d) as [Hd' _]; [apply in_or_app; now left|].
    rewrite <- Hd, <- Hd'. exact Hb.
  - rewrite Forall_map. rewrite Forall_forall in Ha |- *.
    intros d Hin. specialize (Ha d Hin).
    destruct (Hall d) as [Hd' _];
      [apply in_or_app; right; now right|].
    rewrite <- Hd, <- Hd'. exact Ha.
Qed.

(** The slider reason cites the first of the closest dimensions. *)
Lemma buildSliderReason_closest (t : Track) (ns : NormalizedSliders)
  (raw : Sliders) :
  exists k before after,
    FEATURE_KEYS = before ++ k :: after /\
    Forall (fun k' => gap t ns k < gap t ns k') before /\
    Forall (fun k' => gap t ns k <= gap t ns k') after /\
    buildSliderReason t ns raw
    = sliderReasonText (displayName k) (display t k).
Proof.
  destruct (bestDiff_closest t ns)
    as (best & before & after & Hb & Hd & Hv & Hk & Hlt & Hle).
  exists (key best), before, after. repeat split; try assumption.
  unfold buildSliderReason. rewrite Hb.
  unfold trackDisplay, display. now rewrite Hv.
Qed.

Lemma buildTextReason_cases (t : Track) (q : string) :
  buildTextReason t q
  = if Scheme.ci_contains (orEmpty (Track_Name t)) q then inNameReason q
    else if Scheme.ci_contains (orEmpty (Artist_Names t)) q
         then amongArtistsReason q
         else partialReason q.
Proof. reflexivity. Qed.

Lemma buildReasons_text (p : Params) (t : Track) :
  hasQuery p = true -> 0 < textScore p t ->
  In (buildTextReason t (trim (query p))) (buildReasons p t).
Proof.
  intros Hq Hpos. unfold buildReasons. rewrite Hq. simpl andb.
  destruct (Rlt_dec 0 (textScore p t)); [|contradiction].
  destruct (normalizedSliders p) as [[ns raw]|]; simpl; auto.
Qed.

Lemma buildReasons_sliders (p : Params) (s : Sliders) (t : Track) :
  sliders p = Some s -> hasSliders p = true ->
  In (buildSliderReason t (normalize s) s) (buildReasons p t).
Proof.
  intros Hs Hh. unfold buildReasons.
  rewrite (normalizedSliders_active p s Hs Hh).
  apply in_or_app. right. now left.
Qed.

(** C5, as amended.  A result whose text score is positive carries the
    text reason, which names the track name when the name contains the
    query, else the artists when the artist field contains it, and is else
    the generic "partial match" sentence; a result of a search with sliders
    carries the slider reason, which cites the dimension of least absolute
    difference (the first such in the order of [FEATURE_KEYS]), shown in BPM
    for the tempo and as a percentage otherwise. *)
Theorem C5_reasons (tracks : list Track) (p : Params) (limit : Z)
  (r : Result) :
  In r (search tracks p limit) ->
  let t := track r in
  let q := trim (query p) in
  (hasQuery p = true -> 0 < textScore p t ->
   In (if Scheme.ci_contains (orEmpty (Track_Name t)) q
       then inNameReason q
       else if Scheme.ci_contains (orEmpty (Artist_Names t)) q
            then amongArtistsReason q
            else partialReason q)
      (reasons r)) /\
  (forall s, sliders p = Some s -> hasSliders p = true ->
   exists k before after,
     FEATURE_KEYS = before ++ k :: after /\
     Forall (fun k' => gap t (normalize s) k < gap t (normalize s) k')
       before /\
     Forall (fun k' => gap t (normalize s) k <= gap t (normalize s) k')
       after /\
     In (sliderReasonText (displayName k) (display t k)) (reasons r)).
Proof.
  intros Hin t q.
  destruct (search_In tracks p limit r Hin) as (t0 & _ & -> & _ & _).
  simpl in t. subst t q. simpl reasons. split.
  - intros Hq Hpos. rewrite <- buildTextReason_cases.
    now apply buildReasons_text.
  - intros s Hs Hh.
    destruct (buildSliderReason_closest t0 (normalize s) s)
      as (k & before & after & Hk & Hb & Ha & E).
    exists k, before, after. repeat split; try assumption.
    rewrite <- E. now apply buildReasons_sliders.
Qed.

Lemma combinedScore_text_only (p : Params) (t : Track) :
  hasQuery p = true -> hasSliders p = false ->
  combinedScore p t = textScore p t.
Proof. intros Hq Hs. unfold combinedScore. now rewrite Hq, Hs. Qed.

Lemma dawn_score : textScore (text_only "dawn") sun = 0.2.
Proof. exact text_score_album_only. Qed.

Lemma search_dawn :
  search [sun] (text_only "dawn") 5 = [scoreTrack (text_only "dawn") sun].
Proof.
  apply search_single; [lia|left; reflexivity|].
  intros _. rewrite combinedScore_text_only by reflexivity.
  rewrite dawn_score. lra.
Qed.

Lemma C5_reasons_witness :
  In (scoreTrack (text_only "dawn") sun)
     (search [sun] (text_only "dawn") 5) /\
  In (partialReason "dawn")
     (reasons (scoreTrack (text_only "dawn") sun)).
Proof.
  assert (Hin : In (scoreTrack (text_only "dawn") sun)
                   (search [sun] (text_only "dawn") 5))
    by (rewrite search_dawn; left; reflexivity).
  split; [exact Hin|].
  destruct (C5_reasons [sun] (text_only "dawn") 5 _ Hin) as [Ht _].
  apply Ht; [reflexivity|]. simpl track. rewrite dawn_score. lra.
Defined.

(** C5 as stated fails: the query "dawn" matches the track only through
    its album, the text score is positive, and the one reason produced
    names neither the track name nor the artists. *)
Lemma C5_album_match_is_partial :
  let p := text_only "dawn" in
  let r := scoreTrack p sun in
  search [sun] p 5 = [r] /\
  hasQuery p = true /\
  0 < textScore p (track r) /\
  reasons r = [partialReason "dawn"] /\
  partialReason "dawn" <> inNameReason "dawn" /\
  partialReason "dawn" <> amongArtistsReason "dawn".
Proof.
  cbv zeta. split; [exact search_dawn|]. split; [reflexivity|].
  split; [simpl track; rewrite dawn_score; lra|].
  split.
  - simpl reasons. unfold buildReasons. simpl andb.
    change (hasQuery (text_only "dawn")) with true. cbv iota.
    destruct (Rlt_dec 0 (textScore (text_only "dawn") sun)) as [|N].
    + reflexivity.
    + exfalso. apply N. rewrite dawn_score. lra.
  - split; discriminate.
Qed.

(** C10. Every result of a search carries at least one reason: the slider
    reason whenever sliders are active; and when only the text is active,
    the result has a positive text score and carries the text reason. *)
Theorem C10_reasons_nonempty (tracks : list Track) (p : Params)
  (limit : Z) (r : Result) :
  In r (search tracks p limit) ->
  reasons r <> [] /\
  (forall s, sliders p = Some s -> hasSliders p = true ->
             In (buildSliderReason (track r) (normalize s) s) (reasons r)) /\
  (hasSliders p = false ->
   hasQuery p = true /\ 0 < textScore p (track r) /\
   In (buildTextReason (track r) (trim (query p))) (reasons r)).
Proof.
  intros Hin.
  destruct (search_In tracks p limit r Hin) as (t & _ & -> & Ha & Hpos).
  simpl track. simpl reasons. simpl score in Hpos.
  assert (Hsl : forall s, sliders p = Some s -> hasSliders p = true ->
                In (buildSliderReason t (normalize s) s) (buildReasons p t))
    by (intros s; apply buildReasons_sliders).
  assert (Htx : hasSliders p = false ->
                hasQuery p = true /\ 0 < textScore p t /\
                In (buildTextReason t (trim (query p))) (buildReasons p t)).
  { intros Hf. destruct Ha as [Hq|Hh]; [|congruence].
    specialize (Hpos Hq). unfold combinedScore in Hpos.
    rewrite Hq, Hf in Hpos. simpl in Hpos.
    repeat split; try assumption. now apply buildReasons_text. }
  split; [|split; assumption].
  intros E. rewrite E in Hsl, Htx. simpl in Hsl, Htx.
  destruct (hasSliders p) eqn:Hh.
  - assert (Hh' := Hh). unfold hasSliders in Hh'.
    destruct (sliders p) as [s|]; [|discriminate].
    exact (Hsl s eq_refl eq_refl).
  - now destruct (Htx eq_refl) as (_ & _ & Hi).
Qed.

Lemma C10_reasons_nonempty_witness :
  In (scoreTrack (text_only "dawn") sun)
     (search [sun] (text_only "dawn") 5) /\
  reasons (scoreTrack (text_only "dawn") sun) <> [].
Proof.
  assert (Hin : In (scoreTrack (text_only "dawn") sun)
                   (search [sun] (text_only "dawn") 5))
    by (rewrite search_dawn; left; reflexivity).
  split; [exact Hin|].
  exact (proj1 (C10_reasons_nonempty [sun] (text_only "dawn") 5 _ Hin)).
Defined.

End Reasons.

(* ------------------------------------------------------------------ *)
(** ** Ranking engine: a limit that is not positive                    *)
(* ------------------------------------------------------------------ *)

Section Limit.

Import Search.

Lemma candidates_length (tracks : list Track) (p : Params) :
  (List.length (candidates tracks p) <= List.length tracks)%nat.
Proof.
  unfold candidates. destruct (hasQuery p).
  - etransitivity; [apply filter_length_le|]. now rewrite length_map.
  - now rewrite length_map.
Qed.

Lemma ranking_active (tracks : list Track) (p : Params) :
  hasQuery p = true \/ hasSliders p = true ->
  ranking tracks p
  = JSNum.sort (fun a b => (score b - score a)%R) (candidates tracks p).
Proof.
  intros H. unfold ranking. rewrite (search_active _ _ _ H).
  unfold slice0. destruct (Z.ltb_spec (Z.of_nat (List.length tracks)) 0);
    [lia|].
  apply firstn_all2. rewrite sort_length, Nat2Z.id.
  apply candidates_length.
Qed.

Lemma search_inactive (tracks : list Track) (p : Params) (limit : Z) :
  hasQuery p = false -> hasSliders p = false -> search tracks p limit = [].
Proof. intros Hq Hs. unfold search. now rewrite Hq, Hs. Qed.

(** C6, as amended.  A limit that is not positive is not rejected: the call
    returns normally, with no result when the limit is 0, and with the
    ranking deprived of its last [- limit] results when it is negative. *)
Theorem C6_nonpositive_limit (tracks : list Track) (p : Params) (limit : Z) :
  (limit <= 0)%Z ->
  exists results,
    search_call tracks p limit = Returns results /\
    (limit = 0%Z -> results = []) /\
    (limit < 0 ->
     results = firstn (List.length (ranking tracks p) - Z.to_nat (- limit))
                 (ranking tracks p))%Z.
Proof.
  intros Hl. exists (search tracks p limit).
  split; [reflexivity|].
  destruct (hasQuery p) eqn:Hq, (hasSliders p) eqn:Hs;
    try (rewrite (ranking_active tracks p) by auto;
         rewrite (search_active tracks p limit) by auto;
         unfold slice0; split;
         [ intros ->; reflexivity
         | intros Hneg; destruct (Z.ltb_spec limit 0); [|lia];
           f_equal; lia ]).
  unfold ranking.
  rewrite (search_inactive tracks p limit Hq Hs),
    (search_inactive tracks p _ Hq Hs).
  split; intros _; [reflexivity|]. now rewrite firstn_nil.
Qed.

Lemma C6_nonpositive_limit_witness :
  (-1 <= 0)%Z /\
  exists results, search_call [sun; moon] (dance_only 0.8) (-1)
                  = Returns results.
Proof.
  split; [lia|].
  destruct (C6_nonpositive_limit [sun; moon] (dance_only 0.8) (-1))
    as (results & H & _); [lia|].
  exists results. exact H.
Defined.

(** C6 as stated fails: with the limit 0 the call returns the empty list
    and signals nothing. *)
Lemma C6_zero_limit_returns :
  search_call [sun; moon] (dance_only 0.8) 0 = Returns [] /\
  search_call [sun; moon] (dance_only 0.8) 0 <> Throws "InvalidArgument".
Proof.
  split; [reflexivity|discriminate].
Qed.

End Limit.

(* ------------------------------------------------------------------ *)
(** ** Visualizer: interpolation of the features                       *)
(* ------------------------------------------------------------------ *)

Section Interpolation.

Import Visualizer.
Local Open Scope R_scope.

Variable random : nat -> R.

(** One pass of the loop of [lerpFeatures] moves every feature by 3% of
    the gap that separates it from the target. *)
Lemma lerp_fget (target current : Features) (k : fkey) :
  fget (lerp target current) k
  = fget current k + (fget target k - fget current k) * rate.
Proof. destruct k; reflexivity. Qed.

Lemma features_ext (f g : Features) :
  (forall k, fget f k = fget g k) -> f = g.
Proof.
  intros H. destruct f, g.
  pose proof (H F_valence). pose proof (H F_energy).
  pose proof (H F_danceability). pose proof (H F_tempo).
  pose proof (H F_loudness). pose proof (H F_acousticness).
  pose proof (H F_liveness). pose proof (H F_instrumentalness).
  simpl in *. congruence.
Qed.

(** When the current features already are the target, a tick leaves them
    alone. *)
Lemma lerp_same (f : Features) : lerp f f = f.
Proof.
  apply features_ext. intros k. rewrite lerp_fget. ring.
Qed.

Lemma animate_state (s : State) :
  let s' := fst (animate random s) in
  features s' = lerpFeatures s /\
  targetFeatures s' = targetFeatures s /\
  animId s' = true /\
  time s' = time s + 0.016 /\
  width s' = width s /\ height s' = height s.
Proof.
  unfold animate. destruct (lerpFeatures s) as [f|]; simpl.
  - destruct (drawParticles _ _ _ _ _ _ _) as [ps cmds]. simpl.
    repeat split.
  - repeat split.
Qed.

Lemma run_cons (s : State) (e : Event) (es : list Event) :
  fst (run random s (e :: es)) = fst (run random (fst (step random s e)) es).
Proof.
  simpl. destruct (step random s e) as [s1 out1]. simpl.
  now destruct (run random s1 es).
Qed.

Lemma run_app (s : State) (es1 es2 : list Event) :
  fst (run random s (es1 ++ es2))
  = fst (run random (fst (run random s es1)) es2).
Proof.
  revert s. induction es1 as [|e es1 IH]; intros s; [reflexivity|].
  rewrite <- app_comm_cons, !run_cons. apply IH.
Qed.

(** The state a running visualizer reaches after [n] refreshes: the gap to
    the target has been multiplied by [0.97 ^ n]. *)
Lemma frames_state (n : nat) (s : State) (t c : Features) :
  targetFeatures s = Some t -> features s = Some c -> animId s = true ->
  let s' := fst (run random s (frames n)) in
  targetFeatures s' = Some t /\ animId s' = true /\
  exists c', features s' = Some c' /\
             forall k, fget c' k
                       = fget t k + (fget c k - fget t k) * (1 - rate) ^ n.
Proof.
  revert s c. induction n as [|n IH]; intros s c Ht Hc Ha; cbv zeta.
  - simpl. repeat split; try assumption.
    exists c. split; [assumption|]. intros k. ring.
  - change (frames (S n)) with (Frame :: frames n). rewrite run_cons.
    simpl step. rewrite Ha.
    destruct (animate_state s) as (Hf & Ht' & Ha' & _).
    unfold lerpFeatures in Hf. rewrite Ht, Hc in Hf. rewrite Ht in Ht'.
    destruct (IH (fst (animate random s)) (lerp t c) Ht' Hf Ha')
      as (Ht2 & Ha2 & c' & Hc' & Hk).
    repeat split; try assumption.
    exists c'. split; [assumption|]. intros k.
    rewrite Hk, lerp_fget. simpl pow. ring.
Qed.

Lemma setTrack_state (s : State) (t : Search.Track) :
  let s' := fst (setTrack random s t) in
  targetFeatures s' = Some (featuresOf t) /\
  animId s' = true /\
  features s'
  = Some (if animId s then seeded s t else lerp (featuresOf t) (seeded s t)).
Proof.
  cbv zeta. unfold setTrack.
  match goal with |- context [initParticles random ?s0] =>
    set (s1 := initParticles random s0) end.
  assert (H1 : features s1 = Some (seeded s t))
    by (unfold seeded; simpl; now destruct (features s)).
  assert (H2 : targetFeatures s1 = Some (featuresOf t)) by reflexivity.
  assert (H3 : animId s1 = animId s) by reflexivity.
  rewrite H3. destruct (animId s) eqn:Ha.
  - simpl fst. rewrite H1, H2, H3. repeat split.
  - destruct (animate_state s1) as (Hf & Ht & Ha' & _).
    rewrite Hf, Ht, Ha'. unfold lerpFeatures. rewrite H1, H2.
    repeat split.
Qed.

(** The first [setTrack] seeds the current features with the target. *)
Lemma first_setTrack (w h : R) (A : Search.Track) :
  let s := fst (setTrack random (new_visualizer w h) A) in
  features s = Some (featuresOf A) /\
  targetFeatures s = Some (featuresOf A) /\
  animId s = true.
Proof.
  destruct (setTrack_state (new_visualizer w h) A) as (Ht & Ha & Hf).
  cbv zeta. rewrite Ht, Ha, Hf. simpl. rewrite lerp_same. repeat split.
Qed.

(** A later [setTrack] replaces the target and keeps the current
    features. *)
Lemma running_setTrack (s : State) (c : Features) (B : Search.Track) :
  features s = Some c -> animId s = true ->
  let s' := fst (setTrack random s B) in
  features s' = Some c /\
  targetFeatures s' = Some (featuresOf B) /\
  animId s' = true.
Proof.
  intros Hc Hrun.
  destruct (setTrack_state s B) as (Ht & Ha & Hf).
  cbv zeta. rewrite Ht, Ha, Hf, Hrun. unfold seeded. rewrite Hc.
  repeat split.
Qed.

Lemma pow_097_small (eps : R) :
  0 < eps -> exists N, forall n, (N <= n)%nat -> (1 - rate) ^ n < eps.
Proof.
  intros He.
  assert (Hr : Rabs (1 - rate) < 1).
  { unfold rate. rewrite Rabs_pos_eq; lra. }
  destruct (pow_lt_1_zero (1 - rate) Hr eps He) as [N HN].
  exists N. intros n Hn. specialize (HN n ltac:(lia)).
  rewrite Rabs_pos_eq in HN; [exact HN|].
  apply pow_le. unfold rate. lra.
Qed.

Lemma span_bound (a b : Features) (k : fkey) :
  0 <= Rabs (fget a k - fget b k) < span a b.
Proof.
  split; [apply Rabs_pos|].
  unfold span. simpl.
  pose proof (Rabs_pos (valence a - valence b)).
  pose proof (Rabs_pos (energy a - energy b)).
  pose proof (Rabs_pos (danceability a - danceability b)).
  pose proof (Rabs_pos (tempo a - tempo b)).
  pose proof (Rabs_pos (loudness a - loudness b)).
  pose proof (Rabs_pos (acousticness a - acousticness b)).
  pose proof (Rabs_pos (liveness a - liveness b)).
  pose proof (Rabs_pos (instrumentalness a - instrumentalness b)).
  destruct k; simpl; lra.
Qed.

Lemma current_after_closed_form (w h : R) (A B : Search.Track) (n : nat) :
  exists c,
    current_after random w h A B n = Some c /\
    forall k, fget c k
              = fget (featuresOf B) k
                + (fget (featuresOf A) k - fget (featuresOf B) k)
                  * (1 - rate) ^ n.
Proof.
  unfold current_after. rewrite run_app.
  rewrite run_cons. simpl step.
  destruct (first_setTrack w h A) as (Hf & Ht & Ha).
  rewrite run_cons. simpl step.
  destruct (running_setTrack _ (featuresOf A) B Hf Ha) as (Hf2 & Ht2 & Ha2).
  simpl run at 2. simpl fst at 2.
  destruct (frames_state n _ (featuresOf B) (featuresOf A) Ht2 Hf2 Ha2)
    as (_ & _ & c & Hc & Hk).
  exists c. split; assumption.
Qed.

(** C8. On a new visualizer, [setTrack(A)] seeds the current features with
    those of [A]; a [setTrack(B)] issued right after does not move them;
    every tick then moves each feature towards its target by exactly 3% of
    the remaining gap, so that after the next tick each feature on which [A]
    and [B] differ lies strictly between the values of [A] and [B]; and the
    current features come within any [eps] of those of [B] after enough
    ticks. *)
Theorem C8_smooth_transition (w h : R) (A B : Search.Track) :
  let fA := featuresOf A in
  let fB := featuresOf B in
  (* first initialization *)
  features (fst (run random (new_visualizer w h) [SetTrack A])) = Some fA /\
  (* no jump at the track change *)
  current_after random w h A B 0 = Some fA /\
  (* 3% of the remaining gap at each tick *)
  (forall n, exists c c',
      current_after random w h A B n = Some c /\
      current_after random w h A B (S n) = Some c' /\
      forall k, fget c' k - fget c k = 0.03 * (fget fB k - fget c k)) /\
  (* strictly between at the next tick *)
  (exists c, current_after random w h A B 1 = Some c /\
             forall k, fget fA k <> fget fB k ->
                       strictly_between (fget fA k) (fget fB k) (fget c k)) /\
  (* convergence *)
  (forall eps, 0 < eps ->
     exists N, forall n, (N <= n)%nat ->
       exists c, current_after random w h A B n = Some c /\
                 forall k, Rabs (fget c k - fget fB k) < eps).
Proof.
  intros fA fB. split; [|split; [|split; [|split]]].
  - rewrite run_cons. simpl step. simpl run. simpl fst.
    apply (first_setTrack w h A).
  - destruct (current_after_closed_form w h A B 0) as (c & Hc & Hk).
    rewrite Hc. f_equal. apply features_ext. intros k. rewrite Hk.
    fold fA fB. simpl. ring.
  - intros n.
    destruct (current_after_closed_form w h A B n) as (c & Hc & Hk).
    destruct (current_after_closed_form w h A B (S n)) as (c' & Hc' & Hk').
    exists c, c'. repeat split; try assumption.
    intros k. rewrite Hk, Hk'. change 0.03 with rate. unfold fB.
    simpl pow. ring.
  - destruct (current_after_closed_form w h A B 1) as (c & Hc & Hk).
    exists c. split; [assumption|]. intros k Hne.
    rewrite Hk. fold fA fB. unfold rate, strictly_between. simpl pow.
    destruct (Rtotal_order (fget fA k) (fget fB k)) as [Hlt|[Heq|Hgt]].
    + left. lra.
    + contradiction.
    + right. lra.
  - intros eps He.
    pose proof (span_bound fA fB) as Hs.
    assert (Hspan : 0 < span fA fB) by (specialize (Hs F_valence); lra).
    destruct (pow_097_small (eps / span fA fB)) as [N HN].
    { apply Rdiv_lt_0_compat; assumption. }
    exists N. intros n Hn.
    destruct (current_after_closed_form w h A B n) as (c & Hc & Hk).
    exists c. split; [assumption|]. intros k.
    rewrite Hk. fold fA fB.
    replace (fget fB k + (fget fA k - fget fB k) * (1 - rate) ^ n
             - fget fB k)
      with ((fget fA k - fget fB k) * (1 - rate) ^ n) by ring.
    rewrite Rabs_mult.
    assert (Hp : 0 <= (1 - rate) ^ n) by (apply pow_le; unfold rate; lra).
    rewrite (Rabs_pos_eq _ Hp).
    specialize (HN n Hn). specialize (Hs k).
    apply Rle_lt_trans with (span fA fB * (1 - rate) ^ n).
    + apply Rmult_le_compat_r; [assumption|lra].
    + apply (Rmult_lt_compat_l (span fA fB)) in HN; [|assumption].
      replace (span fA fB * (eps / span fA fB)) with eps in HN
        by (field; lra).
      exact HN.
Qed.

End Interpolation.

(* ------------------------------------------------------------------ *)
(** ** Visualizer: particle classes                                    *)
(* ------------------------------------------------------------------ *)

Section ParticleClasses.

Import Visualizer.
Local Open Scope R_scope.

Variable random : nat -> R.

Lemma orDefault_zero (v : R) : orDefault v 0 = v.
Proof. unfold orDefault. destruct (Req_dec_T v 0); congruence. Qed.

Lemma Math_floor_IZR (z : Z) (x : R) :
  IZR z <= x < IZR z + 1 -> Math_floor x = z.
Proof. intros H. symmetry. apply Int_part_spec. lra. Qed.

Lemma drawParticles_organic (f : Features) (t w h : R) (n : nat)
  (ps : list Particle) :
  map organic (fst (drawParticles random f t w h n ps)) = map organic ps.
Proof.
  revert n. induction ps as [|p ps IH]; intros n; simpl; [reflexivity|].
  specialize (IH (n + 2)%nat).
  destruct (drawParticles random f t w h (n + 2) ps) as [rest cmds].
  simpl in *. now rewrite IH.
Qed.

(** A tick moves the particles and leaves their classes alone. *)
Lemma animate_organic (s : State) :
  map organic (particles (fst (animate random s)))
  = map organic (particles s).
Proof.
  unfold animate. destruct (lerpFeatures s) as [f|]; [|reflexivity].
  pose proof (drawParticles_organic f (time s + 0.016) (width s) (height s)
                (draws s) (particles s)) as H.
  destruct (drawParticles _ _ _ _ _ _ _) as [ps cmds]. exact H.
Qed.

Lemma particle_count_target (s : State) (f : Features) :
  targetFeatures s = Some f -> particle_count s = count_for f.
Proof.
  intros H. unfold particle_count, count_for. rewrite H.
  now rewrite orDefault_zero.
Qed.

Lemma createParticle_organic (s : State) (f : Features) (n : nat) :
  targetFeatures s = Some f ->
  organic (createParticle random s n)
  = if Rlt_dec (random (n + 7)) (organic_threshold f) then true else false.
Proof.
  intros H. unfold createParticle, particle_source. rewrite H. reflexivity.
Qed.

Lemma initParticles_classes (s : State) (f : Features) :
  targetFeatures s = Some f ->
  map organic (particles (initParticles random s))
  = map (class_of_draw random f (draws s)) (seq 0 (count_for f)).
Proof.
  intros H. unfold initParticles. cbn [particles].
  rewrite map_map, (particle_count_target s f H).
  apply map_ext. intros i.
  now rewrite (createParticle_organic s f _ H).
Qed.

Lemma setTrack_classes (s : State) (t : Search.Track) :
  map organic (particles (fst (setTrack random s t)))
  = map (class_of_draw random (featuresOf t) (draws s))
      (seq 0 (count_for (featuresOf t))).
Proof.
  unfold setTrack.
  match goal with |- context [initParticles random ?s0] =>
    pose proof (initParticles_classes s0 (featuresOf t) eq_refl) as H;
    set (s1 := initParticles random s0) in * end.
  cbn [draws] in H.
  destruct (animId s1); cbn [fst]; [exact H|].
  now rewrite animate_organic.
Qed.

Lemma drawShape_shape (f : Features) (t : R) (p : Particle) :
  shape_of (drawShape f t p) = Some (shape_for f p).
Proof.
  unfold drawShape, shape_for. destruct (organic p); [reflexivity|].
  destruct (Rlt_dec 0.3 (instrumentalness f)); reflexivity.
Qed.

(** C9, as amended.  At every track change the particle set is generated
    anew, whatever particles existed before; the class of each particle is
    decided at its creation by one random draw and no tick changes it: the
    particle is organic exactly when the draw is below the acousticness of
    the new target, the threshold being 0.3 instead when that acousticness
    is 0; an organic particle is drawn as an ellipse, any other one as a
    diamond when the current instrumentalness exceeds 0.3 and as a rounded
    rectangle otherwise. *)
Theorem C9_particle_classes (s : State) (t : Search.Track) :
  let target := featuresOf t in
  let s' := fst (setTrack random s t) in
  (forall ps, particles (fst (setTrack random (with_particles s ps) t))
              = particles s') /\
  List.length (particles s') = count_for target /\
  (forall i p, nth_error (particles s') i = Some p ->
               (organic p = true
                <-> random (draws s + 8 * i + 7) < organic_threshold target)) /\
  (acousticness target <> 0 -> organic_threshold target = acousticness target) /\
  (acousticness target = 0 -> organic_threshold target = 0.3) /\
  (forall s0, map organic (particles (fst (animate random s0)))
              = map organic (particles s0)) /\
  (forall f time p, shape_of (drawShape f time p) = Some (shape_for f p)).
Proof.
  intros target s'.
  pose proof (setTrack_classes s t) as Hc. fold target s' in Hc.
  split; [reflexivity|]. split; [|split; [|split; [|split; [|split]]]].
  - apply (f_equal (@List.length bool)) in Hc.
    now rewrite !length_map, length_seq in Hc.
  - intros i p Hp.
    assert (Hi : nth_error (map organic (particles s')) i = Some (organic p))
      by (rewrite nth_error_map, Hp; reflexivity).
    rewrite Hc, nth_error_map in Hi.
    destruct (nth_error (seq 0 (count_for target)) i) as [j|] eqn:Hj;
      [|discriminate].
    assert (j = i) as ->.
    { assert (Hlt : (i < List.length (seq 0 (count_for target)))%nat)
        by (apply nth_error_Some; congruence).
      rewrite (nth_error_nth' _ 0%nat Hlt) in Hj.
      rewrite length_seq in Hlt.
      rewrite seq_nth in Hj by assumption. injection Hj as <-. lia. }
    simpl in Hi. injection Hi as Hi. unfold class_of_draw in Hi.
    destruct (Rlt_dec _ _) as [Hlt|Hge]; rewrite <- Hi; split; intros;
      try assumption; try reflexivity; try discriminate; contradiction.
  - intros H. unfold organic_threshold, orDefault.
    destruct (Req_dec_T _ _); [contradiction|reflexivity].
  - intros H. unfold organic_threshold, orDefault.
    destruct (Req_dec_T _ _); [reflexivity|contradiction].
  - apply animate_organic.
  - apply drawShape_shape.
Qed.

End ParticleClasses.

Section ParticleClassesExamples.

Import Visualizer.
Local Open Scope R_scope.

Lemma count_for_silent : count_for (featuresOf silent) = 80%nat.
Proof.
  unfold count_for. rewrite (Math_floor_IZR 80); [reflexivity|].
  simpl. lra.
Qed.

Lemma C9_particle_classes_witness :
  let s' := fst (setTrack (constant_random 0.1) (new_visualizer 800 600) sun) in
  acousticness (featuresOf sun) <> 0 /\
  organic_threshold (featuresOf sun) = acousticness (featuresOf sun) /\
  map organic (particles (fst (animate (constant_random 0.1) s')))
  = map organic (particles s').
Proof.
  intros s'.
  destruct (C9_particle_classes (constant_random 0.1)
              (new_visualizer 800 600) sun)
    as (_ & _ & _ & Hthr & _ & Hfix & _).
  assert (Hne : acousticness (featuresOf sun) <> 0) by (simpl; lra).
  split; [exact Hne|]. split; [exact (Hthr Hne)|]. apply Hfix.
Defined.

(** C9 as stated fails: the target has acousticness 0, the draw 0.1 is not
    below it, and the particle is organic all the same. *)
Lemma C9_zero_acousticness_organic :
  let rnd := constant_random 0.1 in
  let s' := fst (setTrack rnd (new_visualizer 800 600) silent) in
  acousticness (featuresOf silent) = 0 /\
  exists p, nth_error (particles s') 0 = Some p /\
            organic p = true /\
            ~ rnd 7%nat < acousticness (featuresOf silent).
Proof.
  intros rnd s'.
  split; [reflexivity|].
  pose proof (setTrack_classes rnd (new_visualizer 800 600) silent) as Hc.
  fold s' in Hc. rewrite count_for_silent in Hc.
  destruct (particles s') as [|p ps]; [discriminate Hc|].
  exists p. split; [reflexivity|].
  simpl in Hc. injection Hc as Hp _.
  split.
  - rewrite Hp. unfold class_of_draw, organic_threshold, orDefault, rnd,
      constant_random. simpl acousticness.
    destruct (Req_dec_T 0 0) as [_|N]; [|contradiction].
    destruct (Rlt_dec 0.1 0.3) as [_|N]; [reflexivity|].
    exfalso. apply N. lra.
  - unfold rnd, constant_random. simpl. lra.
Qed.

End ParticleClassesExamples.

(* ------------------------------------------------------------------ *)
(** ** Visualizer: the drawing requests of a tick                      *)
(* ------------------------------------------------------------------ *)

Section SafeDrawing.

Import Visualizer.
Local Open Scope R_scope.

Variable random : nat -> R.

(** [Math.random] returns a number of [0, 1). *)
Hypothesis random_range : forall n, 0 <= random n < 1.

Lemma pulse_range (f : Features) (t : R) : 0 <= pulse f t <= 1.
Proof.
  unfold pulse. pose proof (SIN_bound (t * pulseFreq f)). lra.
Qed.

Lemma lerp_in_unit (t c : Features) :
  features_in_unit t -> features_in_unit c -> features_in_unit (lerp t c).
Proof.
  intros Ht Hc k. rewrite lerp_fget. unfold rate.
  specialize (Ht k). specialize (Hc k). lra.
Qed.

Lemma js_rem_360 (a : R) : 0 <= a -> 0 <= js_rem a 360 < 360.
Proof.
  intros Ha. unfold js_rem, trunc.
  assert (Hq : 0 <= a / 360) by (unfold Rdiv; lra).
  destruct (Rlt_dec (a / 360) 0); [lra|].
  destruct (base_Int_part (a / 360)) as [Hle Hgt].
  assert (E : a = 360 * (a / 360)) by (field).
  lra.
Qed.

Lemma unit_product (u v : R) : 0 <= u <= 1 -> 0 <= v <= 1 -> 0 <= u * v <= 1.
Proof. intros Hu Hv. split; nra. Qed.

Lemma particleColor_ok (f : Features) (t : R) (p : Particle) (a : R) :
  features_in_unit f -> 0 <= life p < 1 -> 0 <= a <= 1 ->
  color_ok (Hsla (particleHue f p) (saturation f) (lightness f t) a).
Proof.
  intros Hf Hl Ha.
  pose proof (Hf F_valence) as Hv. pose proof (Hf F_energy) as He.
  pose proof (Hf F_loudness) as Hlo. simpl in Hv, He, Hlo.
  pose proof (pulse_range f t) as Hp.
  unfold color_ok, particleHue, saturation, lightness, getHue.
  split; [apply js_rem_360; lra|].
  repeat split; lra.
Qed.

Lemma alpha_range (f : Features) (t : R) :
  features_in_unit f -> 0.3 <= alpha f t <= 0.7.
Proof.
  intros Hf. pose proof (Hf F_energy) as He. simpl in He.
  pose proof (unit_product _ _ (pulse_range f t) He) as Hpe.
  unfold alpha. lra.
Qed.

Lemma drawSize_pos (f : Features) (t : R) (p : Particle) :
  features_in_unit f -> 0 < size p -> 0 < drawSize f t p.
Proof.
  intros Hf Hs. pose proof (Hf F_danceability) as Hd. simpl in Hd.
  pose proof (unit_product _ _ (pulse_range f t) Hd) as Hpd.
  unfold drawSize. apply Rmult_lt_0_compat; lra.
Qed.

Lemma wobble_range (sn sz a : R) :
  -1 <= sn <= 1 -> 0 < sz -> 0 <= a <= 1 ->
  - (0.2 * sz) <= sn * sz * 0.2 * a <= 0.2 * sz.
Proof.
  intros Hsn Hsz Ha.
  assert (Hu : -1 <= sn * a <= 1) by (split; nra).
  replace (sn * sz * 0.2 * a) with (sn * a * (0.2 * sz)) by ring.
  split; nra.
Qed.

Lemma drawShape_ok (f : Features) (t : R) (p : Particle) :
  features_in_unit f -> particle_ok p -> cmd_ok (drawShape f t p).
Proof.
  intros Hf [Hs Hl].
  pose proof (drawSize_pos f t p Hf Hs) as Hd.
  pose proof (alpha_range f t Hf) as Ha.
  assert (Hc : color_ok (particleColor f t p))
    by (apply particleColor_ok; [assumption|assumption|lra]).
  unfold drawShape, cmd_ok. destruct (organic p).
  - pose proof (wobble_range (sin (t * 2 + phase p)) (drawSize f t p)
                  (acousticness f) (SIN_bound _) Hd (Hf F_acousticness))
      as Hw.
    cbn [valid_cmd styles_ok]. split; [split; lra|exact Hc].
  - destruct (Rlt_dec 0.3 (instrumentalness f)); cbn [valid_cmd styles_ok].
    + split; [exact I|]. split; [exact Hc|lra].
    + split; [lra|]. split; [exact Hc|]. split; lra.
Qed.

Lemma drawGlow_ok (f : Features) (t : R) (p : Particle) :
  features_in_unit f -> particle_ok p -> Forall cmd_ok (drawGlow f t p).
Proof.
  intros Hf [Hs Hl].
  pose proof (drawSize_pos f t p Hf Hs) as Hd.
  pose proof (alpha_range f t Hf) as Ha.
  unfold drawGlow. destruct (Rlt_dec 0.6 (energy f)); [|constructor].
  constructor; [|constructor].
  unfold cmd_ok. cbn [valid_cmd styles_ok]. split; [lra|].
  split; [apply particleColor_ok; [assumption|assumption|lra]|].
  split; [apply particleColor_ok; [assumption|assumption|lra]|].
  lra.
Qed.

Lemma moveParticle_ok (f : Features) (t w h : R) (n : nat) (p : Particle) :
  particle_ok p -> particle_ok (moveParticle random f t w h n p).
Proof. intros H. exact H. Qed.

Lemma drawParticles_ok (f : Features) (t w h : R) (n : nat)
  (ps : list Particle) :
  features_in_unit f -> Forall particle_ok ps ->
  Forall particle_ok (fst (drawParticles random f t w h n ps)) /\
  Forall cmd_ok (snd (drawParticles random f t w h n ps)).
Proof.
  intros Hf. revert n.
  induction ps as [|p ps IH]; intros n Hps; simpl.
  - split; constructor.
  - inversion Hps as [|? ? Hp Hrest]; subst.
    destruct (IH (n + 2)%nat Hrest) as [IH1 IH2].
    destruct (drawParticles random f t w h (n + 2) ps) as [rest cmds].
    simpl in *. split.
    + constructor; [now apply moveParticle_ok|assumption].
    + constructor.
      * apply drawShape_ok; [assumption|now apply moveParticle_ok].
      * apply Forall_app. split; [|assumption].
        apply drawGlow_ok; [assumption|now apply moveParticle_ok].
Qed.

Lemma connect_ok (f : Features) (pi pj : Particle) :
  features_in_unit f -> Forall cmd_ok (connect f pi pj).
Proof.
  intros Hf. pose proof (Hf F_valence) as Hv.
  pose proof (Hf F_danceability) as Hd. simpl in Hv, Hd.
  unfold connect. destruct (Rlt_dec _ _); [|constructor].
  constructor; [|constructor].
  unfold cmd_ok, getHue. simpl. repeat split; lra.
Qed.

Lemma connectAll_ok (f : Features) (ps : list Particle) :
  features_in_unit f -> Forall cmd_ok (connectAll f ps).
Proof.
  intros Hf. induction ps as [|p ps IH]; simpl; [constructor|].
  apply Forall_app. split; [|exact IH].
  apply Forall_flat_map. apply Forall_forall. intros q _.
  now apply connect_ok.
Qed.

Lemma drawLines_ok (f : Features) (ps : list Particle) :
  features_in_unit f -> Forall cmd_ok (drawLines f ps).
Proof.
  intros Hf. unfold drawLines.
  destruct (Rlt_dec 0.5 (danceability f)); [|constructor].
  now apply connectAll_ok.
Qed.

Lemma lerpFeatures_in_unit (s : State) (f : Features) :
  Inv s -> lerpFeatures s = Some f -> features_in_unit f.
Proof.
  intros [Hf Ht _] H. unfold lerpFeatures in H.
  destruct (targetFeatures s) as [t|] eqn:Et.
  - destruct (features s) as [c|] eqn:Ec; [|discriminate].
    injection H as <-. apply lerp_in_unit; auto.
  - now apply Hf.
Qed.

(** A tick keeps the invariant and issues acceptable requests only. *)
Lemma animate_ok (s : State) :
  Inv s ->
  Inv (fst (animate random s)) /\ Forall cmd_ok (snd (animate random s)).
Proof.
  intros HI.
  assert (Hl : forall f, lerpFeatures s = Some f -> features_in_unit f)
    by (intros f; now apply lerpFeatures_in_unit).
  unfold animate. destruct (lerpFeatures s) as [f|] eqn:El.
  - specialize (Hl f eq_refl).
    destruct (drawParticles_ok f (time s + 0.016) (width s) (height s)
                (draws s) (particles s) Hl (inv_particles s HI))
      as [Hps Hcmds].
    destruct (drawParticles _ _ _ _ _ _ _) as [ps cmds]. simpl in *.
    split.
    + constructor; simpl.
      * intros f' E. injection E as <-. exact Hl.
      * apply (inv_target s HI).
      * exact Hps.
    + constructor.
      * pose proof (Hl F_energy) as He. simpl in He.
        unfold cmd_ok. simpl. repeat split; lra.
      * apply Forall_app. split; [exact Hcmds|].
        now apply drawLines_ok.
  - simpl. split; [|constructor].
    constructor; simpl.
    + discriminate.
    + apply (inv_target s HI).
    + apply (inv_particles s HI).
Qed.

Lemma createParticle_ok (s : State) (f : Features) (n : nat) :
  targetFeatures s = Some f -> features_in_unit f ->
  particle_ok (createParticle random s n).
Proof.
  intros Ht Hf. unfold createParticle, particle_source. rewrite Ht.
  unfold particle_ok. simpl.
  pose proof (random_range (n + 4)) as H4.
  pose proof (random_range (n + 5)) as H5.
  pose proof (Hf F_loudness) as Hl. simpl in Hl.
  assert (Hd : 0 <= orDefault (loudness f) 0.5).
  { unfold orDefault. destruct (Req_dec_T _ _); lra. }
  split; [|exact H5].
  assert (0 <= random (n + 4) * 3 * (0.5 + orDefault (loudness f) 0.5)).
  { apply Rmult_le_pos; lra. }
  lra.
Qed.

Lemma initParticles_ok (s : State) (f : Features) :
  targetFeatures s = Some f -> features_in_unit f ->
  Forall particle_ok (particles (initParticles random s)).
Proof.
  intros Ht Hf. unfold initParticles. cbn [particles].
  apply Forall_map, Forall_forall. intros i _.
  now apply (createParticle_ok s f).
Qed.

Lemma setTrack_ok (s : State) (t : Search.Track) :
  Inv s -> features_in_unit (featuresOf t) ->
  Inv (fst (setTrack random s t)) /\
  Forall cmd_ok (snd (setTrack random s t)).
Proof.
  intros HI Ht. unfold setTrack.
  match goal with |- context [initParticles random ?s0] =>
    pose proof (initParticles_ok s0 (featuresOf t) eq_refl Ht) as Hps;
    set (s1 := initParticles random s0) in * end.
  assert (H1 : Inv s1).
  { constructor.
    - intros f E. unfold s1 in E. cbn in E.
      destruct (features s) as [c|] eqn:Ec; injection E as <-;
        [now apply (inv_features s HI)|exact Ht].
    - intros f E. unfold s1 in E. cbn in E. injection E as <-. exact Ht.
    - exact Hps. }
  destruct (animId s1).
  - split; [exact H1|constructor].
  - now apply animate_ok.
Qed.

Lemma step_ok (s : State) (e : Event) :
  Inv s -> event_in_range e ->
  Inv (fst (step random s e)) /\ Forall cmd_ok (snd (step random s e)).
Proof.
  intros HI He. destruct e as [t| |w h|]; simpl.
  - now apply setTrack_ok.
  - destruct (animId s); [now apply animate_ok|].
    split; [exact HI|constructor].
  - split; [|constructor]. destruct HI. constructor; assumption.
  - split; [|constructor]. destruct HI. constructor; assumption.
Qed.

Lemma run_ok (es : list Event) (s : State) :
  Inv s -> Forall event_in_range es ->
  Inv (fst (run random s es)) /\ Forall cmd_ok (snd (run random s es)).
Proof.
  revert s. induction es as [|e es IH]; intros s HI Hes; simpl.
  - split; [exact HI|constructor].
  - inversion Hes as [|? ? He Hrest]; subst.
    destruct (step_ok s e HI He) as [HI1 Hc1].
    destruct (step random s e) as [s1 out1]. simpl in *.
    destruct (IH s1 HI1 Hrest) as [HI2 Hc2].
    destruct (run random s1 es) as [s2 out2]. simpl in *.
    split; [exact HI2|]. apply Forall_app. now split.
Qed.

Lemma new_visualizer_Inv (w h : R) : Inv (new_visualizer w h).
Proof. constructor; simpl; try discriminate. constructor. Qed.

End SafeDrawing.

Section SafeDrawingTheorem.

Import Visualizer.
Local Open Scope R_scope.

Lemma featuresOf_raw (t : Search.Track) (k : fkey) :
  fget (featuresOf t) k = orZero (raw_field t k).
Proof. destruct k; reflexivity. Qed.

(** C7, as amended.  [setTrack] replaces a missing, [null] or [NaN] feature
    by 0 and keeps every number as it is, in range or not.  As long as the
    features of the tracks handed to [setTrack] are, after this defaulting,
    in [0,1], no tick issues a drawing request the canvas rejects: radii are
    non-negative and colour channels are in range. *)
Theorem C7_in_range_tracks_draw_safely (random : nat -> R) (w h : R)
  (es : list Event) :
  (forall n, 0 <= random n < 1) ->
  Forall (event_in_range) es ->
  (forall t k,
      (forall r, raw_field t k = JNum r -> fget (featuresOf t) k = r) /\
      (raw_field t k = JUndefined \/ raw_field t k = JNull \/
       raw_field t k = JNaN -> fget (featuresOf t) k = 0)) /\
  Forall (fun c => valid_cmd c /\ styles_ok c)
    (snd (run random (new_visualizer w h) es)).
Proof.
  intros Hr Hes. split.
  - intros t k. rewrite featuresOf_raw. split.
    + intros r ->. reflexivity.
    + intros [-> | [-> | ->]]; reflexivity.
  - apply (run_ok random Hr es (new_visualizer w h)); [|exact Hes].
    apply new_visualizer_Inv.
Qed.

Lemma sparse_in_range : features_in_unit (featuresOf sparse).
Proof. intros k. destruct k; simpl; lra. Qed.

Lemma sun_features_in_unit : features_in_unit (featuresOf sun).
Proof. intros k. destruct k; simpl; lra. Qed.

Lemma constant_random_range (v : R) :
  0 <= v < 1 -> forall n, 0 <= constant_random v n < 1.
Proof. intros H n. exact H. Qed.

Lemma C7_in_range_tracks_draw_safely_witness :
  Forall (fun c => valid_cmd c /\ styles_ok c)
    (snd (run (constant_random 0.5) (new_visualizer 800 600)
            [SetTrack sparse; Frame; SetTrack sun; Frame; Destroy; Frame])).
Proof.
  apply (C7_in_range_tracks_draw_safely (constant_random 0.5) 800 600).
  - apply constant_random_range. lra.
  - apply Forall_cons; [exact sparse_in_range|].
    apply Forall_cons; [exact I|].
    apply Forall_cons; [exact sun_features_in_unit|].
    repeat (apply Forall_cons; [exact I|]). apply Forall_nil.
Defined.

Lemma count_for_muffled : count_for (featuresOf muffled) = 80%nat.
Proof.
  unfold count_for. rewrite (Math_floor_IZR 80); [reflexivity|].
  simpl. lra.
Qed.

(** The first particle of a tick is moved and drawn. *)
Lemma animate_draws_head (random : nat -> R) (s : State) (f : Features)
  (p : Particle) (ps : list Particle) :
  particles s = p :: ps -> lerpFeatures s = Some f ->
  In (drawShape f (time s + 0.016)
        (moveParticle random f (time s + 0.016) (width s) (height s)
           (draws s) p))
     (snd (animate random s)).
Proof.
  intros Hp Hf. unfold animate. rewrite Hf, Hp. simpl drawParticles.
  destruct (drawParticles random f _ _ _ _ ps) as [rest cmds].
  simpl. right. left. reflexivity.
Qed.

(** C7 as stated fails: the loudness -10 is outside [0,1] and is not
    replaced by 0; with it the first tick asks for a rounded rectangle of
    negative corner radius, which the canvas rejects. *)
Lemma C7_out_of_range_invalid_draw :
  let rnd := constant_random 0.5 in
  loudness (featuresOf muffled) = -10 /\
  exists c,
    In c (snd (run rnd (new_visualizer 800 600) [SetTrack muffled])) /\
    ~ valid_cmd c.
Proof.
  intros rnd. split; [reflexivity|].
  set (s0 := {| particles := []; features := Some (featuresOf muffled);
                targetFeatures := Some (featuresOf muffled);
                animId := false; time := 0; width := 800; height := 600;
                draws := 0 |}).
  set (s1 := initParticles rnd s0).
  assert (Hrun : snd (run rnd (new_visualizer 800 600) [SetTrack muffled])
                 = snd (animate rnd s1) ++ []).
  { change (snd (run rnd (new_visualizer 800 600) [SetTrack muffled]))
      with (snd (let '(s', out) := animate rnd s1 in (s', out ++ []))).
    destruct (animate rnd s1). reflexivity. }
  assert (Hps : particles s1
                = createParticle rnd s0 0
                    :: map (fun i => createParticle rnd s0 (0 + 8 * i))
                         (seq 1 79)).
  { unfold s1, initParticles. cbn [particles draws].
    rewrite (particle_count_target s0 (featuresOf muffled) eq_refl).
    rewrite count_for_muffled. reflexivity. }
  assert (Hl : lerpFeatures s1 = Some (featuresOf muffled)).
  { unfold lerpFeatures, s1, initParticles. cbn [targetFeatures features].
    unfold s0. cbn [targetFeatures features]. now rewrite lerp_same. }
  pose proof (animate_draws_head rnd s1 _ _ _ Hps Hl) as Hin.
  eexists. split.
  - rewrite Hrun, app_nil_r. exact Hin.
  - unfold drawShape.
    cbn [organic moveParticle createParticle].
    unfold particle_source, field_or, orDefault, rnd, constant_random.
    cbn [targetFeatures s0 acousticness loudness instrumentalness
           featuresOf Search.Acousticness Search.loudnessNorm
           Search.Instrumentalness muffled orZero].
    destruct (Req_dec_T 0 0) as [_|N]; [|contradiction].
    destruct (Rlt_dec 0.5 0.3) as [H|_]; [lra|].
    destruct (Rlt_dec 0.3 0) as [H|_]; [lra|].
    cbn [valid_cmd]. unfold drawSize.
    cbn [size moveParticle createParticle danceability featuresOf
           Search.Danceability muffled orZero].
    unfold particle_source, field_or, orDefault.
    cbn [targetFeatures s0 loudness featuresOf Search.loudnessNorm muffled
           orZero].
    destruct (Req_dec_T (-10) 0) as [H|_]; [lra|].
    rewrite Rmult_0_r. lra.
Qed.

End SafeDrawingTheorem.

Section InterpolationExample.

Import Visualizer.
Local Open Scope R_scope.

Lemma C8_smooth_transition_witness :
  exists c,
    current_after (constant_random 0.5) 800 600 sun moon 1 = Some c /\
    strictly_between 0.8 0.2 (danceability c).
Proof.
  destruct (C8_smooth_transition (constant_random 0.5) 800 600 sun moon)
    as (_ & _ & _ & (c & Hc & Hb) & _).
  exists c. split; [exact Hc|].
  apply (Hb F_danceability). simpl. lra.
Defined.

End InterpolationExample.

(* ------------------------------------------------------------------ *)
(** ** Ranking engine: worked examples                                 *)
(* ------------------------------------------------------------------ *)

Section RankingExamples.

Import Search.
Local Open Scope R_scope.

(** The normalization of the tempo at the ends and in the middle of the
    slider. *)
Lemma clamp_unit (x : R) : 0 <= x <= 1 -> Rmax 0 (Rmin 1 x) = x.
Proof. intros H. rewrite Rmin_right by lra. now rewrite Rmax_right by lra. Qed.

Example normalizeTempo_examples :
  normalizeTempo (JNum 40) = JNum 0 /\
  normalizeTempo (JNum 220) = JNum 1 /\
  normalizeTempo (JNum 130) = JNum 0.5.
Proof.
  unfold normalizeTempo, toNumber.
  repeat split; rewrite clamp_unit by lra; f_equal; lra.
Qed.

Lemma star_score : textScore (text_only "aria") star = 0.9.
Proof.
  unfold textScore, computeTextScore; simpl.
  unfold Rmin. destruct (Rle_dec _ _); lra.
Qed.

Lemma sun_score : textScore (text_only "aria") sun = 0.9.
Proof. exact text_score_artist. Qed.

(** Two tracks that tie on the query "aria" are returned in the order of
    the library, whichever it is. *)
Example ties_keep_library_order :
  search [star; sun] (text_only "aria") 5
  = [scoreTrack (text_only "aria") star; scoreTrack (text_only "aria") sun]
  /\
  search [sun; star] (text_only "aria") 5
  = [scoreTrack (text_only "aria") sun; scoreTrack (text_only "aria") star].
Proof.
  assert (Hs : combinedScore (text_only "aria") sun = 0.9)
    by (rewrite combinedScore_text_only by reflexivity; exact sun_score).
  assert (Ht : combinedScore (text_only "aria") star = 0.9)
    by (rewrite combinedScore_text_only by reflexivity; exact star_score).
  split.
  - rewrite search_active by (left; reflexivity).
    unfold candidates. change (hasQuery (text_only "aria")) with true.
    cbv iota. simpl map. simpl filter. unfold positive_score. simpl score.
    rewrite Hs, Ht.
    destruct (Rlt_dec 0 0.9) as [_|N]; [|exfalso; lra].
    simpl JSNum.sort. simpl score. rewrite Hs, Ht.
    destruct (Rlt_dec (0.9 - 0.9) 0) as [N|_]; [exfalso; lra|].
    reflexivity.
  - rewrite search_active by (left; reflexivity).
    unfold candidates. change (hasQuery (text_only "aria")) with true.
    cbv iota. simpl map. simpl filter. unfold positive_score. simpl score.
    rewrite Hs, Ht.
    destruct (Rlt_dec 0 0.9) as [_|N]; [|exfalso; lra].
    simpl JSNum.sort. simpl score. rewrite Hs, Ht.
    destruct (Rlt_dec (0.9 - 0.9) 0) as [N|_]; [exfalso; lra|].
    reflexivity.
Qed.

(** A track that the query does not match is filtered out. *)
Example unmatched_track_dropped :
  search [moon; sun] (text_only "aria") 5
  = [scoreTrack (text_only "aria") sun].
Proof.
  assert (Hs : combinedScore (text_only "aria") sun = 0.9)
    by (rewrite combinedScore_text_only by reflexivity; exact sun_score).
  assert (Hm : combinedScore (text_only "aria") moon = 0).
  { rewrite combinedScore_text_only by reflexivity.
    unfold textScore, computeTextScore; simpl.
    unfold Rmin. destruct (Rle_dec _ _); lra. }
  rewrite search_active by (left; reflexivity).
  unfold candidates. change (hasQuery (text_only "aria")) with true.
  cbv iota. simpl map. simpl filter. unfold positive_score. simpl score.
  rewrite Hs, Hm.
  destruct (Rlt_dec 0 0) as [N|_]; [exfalso; lra|].
  destruct (Rlt_dec 0 0.9) as [_|N]; [|exfalso; lra].
  reflexivity.
Qed.

(** With the danceability slider on 0.8 the track of danceability 0.8 is
    ranked before the one of danceability 0.2. *)
Example closest_track_first :
  search [moon; sun] (dance_only 0.8) 5
  = [scoreTrack (dance_only 0.8) sun; scoreTrack (dance_only 0.8) moon].
Proof.
  set (p := dance_only 0.8).
  set (s := mkSliders (JNum 0.8) JNull JNull JNull JNull).
  assert (Hlt : combinedScore p moon < combinedScore p sun).
  { unfold combinedScore. change (hasQuery p) with false. cbv iota.
    simpl andb. cbv iota.
    rewrite (featureScore_active p s sun eq_refl eq_refl),
      (featureScore_active p s moon eq_refl eq_refl).
    unfold Scheme.distance, Scheme.target_point, Scheme.track_point.
    simpl s_Tempo. rewrite normalizeTempo_null.
    simpl Scheme.sum_sq_diff. cbn [orZero s_Danceability s_Energy s_Valence
                                     s_Acousticness s].
    match goal with |- 1 - sqrt ?a / _ < 1 - sqrt ?b / _ =>
      assert (Hs : sqrt b < sqrt a) by (apply sqrt_lt_1; simpl; nra) end.
    pose proof sqrt5_pos as H5.
    apply Rplus_lt_compat_l, Ropp_lt_contravar.
    unfold Rdiv. apply Rmult_lt_compat_r; [|exact Hs].
    apply Rinv_0_lt_compat, H5. }
  rewrite search_active by (right; reflexivity).
  unfold candidates. change (hasQuery p) with false. cbv iota.
  simpl map. simpl JSNum.sort. simpl score.
  destruct (Rlt_dec (combinedScore p moon - combinedScore p sun) 0)
    as [_|N]; [reflexivity|exfalso; lra].
Qed.

(** With nothing to search for, the result is empty. *)
Example nothing_to_search (tracks : list Track) (limit : Z) :
  search tracks (mkParams "   "
                   (Some (mkSliders JNull JNull JNull JNull JNull))) limit
  = [].
Proof. reflexivity. Qed.

End RankingExamples.

(* ================================================================== *)
(** * Further properties of the code                                   *)
(* ================================================================== *)

(* ------------------------------------------------------------------ *)
(** ** Ranking engine: what a search returns                           *)
(* ------------------------------------------------------------------ *)

Section SearchContents.

Import Search.
Local Open Scope R_scope.

Lemma trimStart_all_ws (s : string) : all_ws s = true -> trimStart s = ""%string.
Proof.
  induction s as [|c s IH]; simpl; [reflexivity|].
  intros H. apply andb_prop in H. destruct H as [Hc Hs].
  rewrite Hc. now apply IH.
Qed.

Lemma trimStart_empty (s : string) : trimStart s = ""%string -> all_ws s = true.
Proof.
  induction s as [|c s IH]; simpl; [reflexivity|].
  destruct (is_ws c); [exact IH|discriminate].
Qed.

Lemma trimEnd_empty (s : string) : trimEnd s = ""%string -> all_ws s = true.
Proof.
  induction s as [|c s IH]; simpl; [reflexivity|].
  destruct (trimEnd s) as [|d r]; [|discriminate].
  destruct (is_ws c); [|discriminate].
  intros _. now apply IH.
Qed.

(** The trimmed text is empty exactly when the text is white space only. *)
Lemma trim_empty_iff (s : string) :
  nonempty (trim s) = false <-> all_ws s = true.
Proof.
  unfold trim. split.
  - intros H.
    assert (E : trimEnd (trimStart s) = ""%string)
      by (destruct (trimEnd (trimStart s)); [reflexivity|discriminate]).
    apply trimEnd_empty in E.
    pose proof (trimStart_head s) as Hh.
    destruct (trimStart s) as [|c r] eqn:Es; [now apply trimStart_empty|].
    simpl in E. rewrite Hh in E. discriminate.
  - intros H. now rewrite (trimStart_all_ws s H).
Qed.

Lemma hasSliders_false_iff (p : Params) :
  hasSliders p = false <->
  sliders p = None \/ exists s, sliders p = Some s /\ all_null s.
Proof.
  unfold hasSliders, all_null. destruct (sliders p) as [s|]; split.
  - intros H. right. exists s. split; [reflexivity|].
    intros v Hv.
    assert (Hn : not_null v = false).
    { destruct (not_null v) eqn:E; [|reflexivity].
      assert (existsb not_null (slider_values s) = true)
        by (apply existsb_exists; now exists v).
      congruence. }
    destruct v; try discriminate. reflexivity.
  - intros [H|(s' & E & H)]; [discriminate|]. injection E as <-.
    destruct (existsb not_null (slider_values s)) eqn:E; [|reflexivity].
    apply existsb_exists in E. destruct E as (v & Hv & Hn).
    rewrite (H v Hv) in Hn. discriminate.
  - intros _. now left.
  - reflexivity.
Qed.

(** X1. With a query made of white space only and sliders that are absent
    or all [null] there is nothing to search for: the result is empty for
    every library and every limit. *)
Theorem X1_nothing_to_search (tracks : list Track) (p : Params) (limit : Z) :
  all_ws (query p) = true ->
  sliders p = None \/ (exists s, sliders p = Some s /\ all_null s) ->
  search tracks p limit = [].
Proof.
  intros Hq Hs. apply search_inactive.
  - unfold hasQuery. now apply trim_empty_iff.
  - now apply hasSliders_false_iff.
Qed.

Lemma X1_nothing_to_search_witness :
  search [sun; moon]
    (mkParams "  "%string (Some (mkSliders JNull JNull JNull JNull JNull))) 5
  = [].
Proof.
  apply X1_nothing_to_search; [reflexivity|].
  right. eexists. split; [reflexivity|].
  intros v Hv. simpl in Hv. intuition.
Defined.

Lemma prefix_refl (s : string) : String.prefix s s = true.
Proof.
  induction s as [|c s IH]; simpl; [reflexivity|].
  destruct (ascii_dec c c); [exact IH|contradiction].
Qed.

Lemma prefix_includes (s sub : string) :
  String.prefix sub s = true -> includes s sub = true.
Proof. intros H. destruct s; simpl in *; now rewrite H. Qed.

Lemma eqb_includes (s sub : string) :
  String.eqb s sub = true -> includes s sub = true.
Proof.
  intros H. apply String.eqb_eq in H. subst.
  apply prefix_includes, prefix_refl.
Qed.

Lemma includes_empty (w : string) :
  nonempty w = true -> includes "" w = false.
Proof. destruct w; [discriminate|reflexivity]. Qed.

Lemma filter_length_zero {A : Type} (f : A -> bool) (l : list A) :
  List.length (filter f l) = 0%nat <-> forall a, In a l -> f a = false.
Proof.
  induction l as [|a l IH]; simpl.
  - split; [intros _ b []|reflexivity].
  - destruct (f a) eqn:E; simpl.
    + split; [discriminate|]. intros H. specialize (H a (or_introl eq_refl)).
      congruence.
    + rewrite IH. split.
      * intros H b [<-|Hb]; auto.
      * intros H b Hb. apply H. now right.
Qed.

(** The bonus for the words of the query is positive exactly when the
    query has several words of which one occurs in the name or artist. *)
Lemma word_bonus_zero (name artist : string) (ws : list string) :
  let m := filter (fun w => includes name w || includes artist w) ws in
  let bonus :=
    if (1 <? List.length ws)%nat
    then INR (List.length m) / INR (List.length ws) * 0.3
    else 0 in
  0 <= bonus /\
  (bonus = 0 <->
   (List.length ws <= 1)%nat \/
   forall w, In w ws -> includes name w = false /\ includes artist w = false).
Proof.
  cbv zeta. set (m := filter _ ws).
  destruct (Nat.ltb_spec 1 (List.length ws)) as [Hlt|Hle].
  - assert (Hl : 0 < INR (List.length ws)) by (apply lt_0_INR; lia).
    assert (Hm : 0 <= INR (List.length m)) by apply pos_INR.
    assert (Hi : 0 < / INR (List.length ws)) by now apply Rinv_0_lt_compat.
    split.
    + apply Rmult_le_pos; [|lra]. apply Rmult_le_pos; lra.
    + split.
      * intros H. right.
        assert (Hz : INR (List.length m) = 0).
        { destruct (Req_dec (INR (List.length m)) 0) as [|N]; [assumption|].
          exfalso.
          assert (0 < INR (List.length m) / INR (List.length ws) * 0.3).
          { apply Rmult_lt_0_compat; [|lra].
            apply Rmult_lt_0_compat; lra. }
          lra. }
        change 0 with (INR 0) in Hz. apply INR_eq in Hz. unfold m in Hz.
        pose proof (proj1 (filter_length_zero _ ws) Hz) as Ha.
        intros w Hw. specialize (Ha w Hw). now apply orb_false_elim in Ha.
      * intros [H|H]; [lia|].
        assert (Hz : List.length m = 0%nat).
        { apply filter_length_zero. intros w Hw.
          destruct (H w Hw) as [-> ->]. reflexivity. }
        rewrite Hz. simpl. unfold Rdiv. ring.
  - split; [lra|]. split; [intros _; now left|reflexivity].
Qed.

(** The text score is 0 exactly when the query touches no text of the
    track. *)
Lemma computeTextScore_zero_iff (t : Track) (q : string) :
  computeTextScore t q = 0 <-> no_text_match t q.
Proof.
  unfold computeTextScore, no_text_match. cbv zeta.
  set (name := toLowerCase (orEmpty (Track_Name t))).
  set (artist := toLowerCase (orEmpty (Artist_Names t))).
  set (album := toLowerCase (orEmpty (Album_Name t))).
  destruct (word_bonus_zero name artist (split_ws q)) as [Hw0 Hw].
  cbv zeta in Hw0, Hw.
  set (W := if (1 <? List.length (split_ws q))%nat then _ else 0) in *.
  pose proof (eqb_includes name q) as E1.
  pose proof (prefix_includes name q) as P1.
  pose proof (eqb_includes artist q) as E2.
  unfold startsWith.
  assert (Hgen : forall x : R,
             (if (1 <? List.length (split_ws q))%nat
              then x + INR (List.length
                              (filter (fun w => includes name w
                                                || includes artist w)
                                 (split_ws q)))
                       / INR (List.length (split_ws q)) * 0.3
              else x) = x + W).
  { intros x. unfold W.
    destruct (1 <? List.length (split_ws q))%nat; [reflexivity|ring]. }
  rewrite Hgen. clear Hgen.
  rewrite <- Hw. clearbody W.
  destruct (String.eqb name q) eqn:C1;
    [rewrite (E1 eq_refl)|
     destruct (String.prefix q name) eqn:C2;
     [rewrite (P1 eq_refl)|destruct (includes name q) eqn:C3]];
    (destruct (String.eqb artist q) eqn:C4;
     [rewrite (E2 eq_refl)|destruct (includes artist q) eqn:C5]);
    destruct (includes album q) eqn:C6;
    unfold Rmin;
    match goal with |- context [Rle_dec ?a ?b] => destruct (Rle_dec a b) end;
    split; intros H;
    try (exfalso; lra);
    try (destruct H as (H1 & H2 & H3 & H4); discriminate);
    try (repeat split; try reflexivity; lra);
    try (destruct H as (_ & _ & _ & H4); lra).
Qed.

Lemma computeTextScore_exact_name (t : Track) (q : string) :
  String.eqb (toLowerCase (orEmpty (Track_Name t))) q = true ->
  computeTextScore t q = 1.
Proof.
  intros H. unfold computeTextScore. cbv zeta. rewrite H.
  set (name := toLowerCase (orEmpty (Track_Name t))).
  set (artist := toLowerCase (orEmpty (Artist_Names t))).
  destruct (word_bonus_zero name artist (split_ws q)) as [Hw0 _].
  cbv zeta in Hw0.
  apply Rmin_right.
  destruct (1 <? List.length (split_ws q))%nat;
    repeat match goal with
           | |- context [if ?b then _ else _] => destruct b
           end; lra.
Qed.

(** X2. A track whose name equals the trimmed query, letter case aside,
    gets the text score 1, the largest there is, whatever its artist and
    album. *)
Theorem X2_exact_name_scores_one (p : Params) (t : Track) :
  hasQuery p = true ->
  Scheme.ci_equal (orEmpty (Track_Name t)) (trim (query p)) = true ->
  textScore p t = 1 /\ forall t', textScore p t' <= textScore p t.
Proof.
  intros Hq He. unfold textScore. rewrite Hq.
  rewrite (computeTextScore_exact_name t _ He). split; [reflexivity|].
  intros t'. apply computeTextScore_range.
Qed.

Lemma X2_exact_name_scores_one_witness :
  textScore (text_only " SUN ") sun = 1.
Proof.
  apply (X2_exact_name_scores_one (text_only " SUN ") sun); reflexivity.
Defined.

Lemma scoreTrack_In (p : Params) (t : Track) (tracks : list Track) :
  In (scoreTrack p t) (map (scoreTrack p) tracks) <-> In t tracks.
Proof.
  rewrite in_map_iff. split.
  - intros (t' & E & H). apply (f_equal track) in E. simpl in E. now subst.
  - intros H. now exists t.
Qed.

(** The tracks of the whole ranking: all of them without a query, those of
    positive score with one. *)
Lemma ranking_In (tracks : list Track) (p : Params) (t : Track) :
  hasQuery p = true \/ hasSliders p = true ->
  In (scoreTrack p t) (ranking tracks p) <->
  In t tracks /\ (hasQuery p = true -> 0 < combinedScore p t).
Proof.
  intros Ha. rewrite (ranking_active tracks p Ha).
  rewrite (sort_In (fun a b => score b - score a)).
  unfold candidates. destruct (hasQuery p).
  - rewrite filter_In, scoreTrack_In. unfold positive_score. simpl score.
    destruct (Rlt_dec 0 (combinedScore p t)); split.
    + intros [H _]. split; [exact H|auto].
    + intros [H _]. split; [exact H|reflexivity].
    + intros [_ H]. discriminate.
    + intros [_ H]. exfalso. auto.
  - rewrite scoreTrack_In. split; [intros H; split; [exact H|discriminate]|].
    now intros [H _].
Qed.

(** X3. In a search by text alone, a track of the library is ranked exactly
    when the query touches it: the lower-cased trimmed query occurs in its
    name, artist or album, or the query has several words and one of them
    occurs in the name or the artist. *)
Theorem X3_text_only_results (tracks : list Track) (p : Params) (t : Track) :
  hasQuery p = true -> hasSliders p = false ->
  In (scoreTrack p t) (ranking tracks p) <->
  In t tracks /\ ~ no_text_match t (toLowerCase (trim (query p))).
Proof.
  intros Hq Hs. rewrite ranking_In by now left.
  rewrite (combinedScore_text_only p t Hq Hs).
  pose proof (textScore_range p t) as Hr.
  unfold textScore in *. rewrite Hq in *.
  rewrite <- computeTextScore_zero_iff.
  split; intros [Hin H]; (split; [exact Hin|]).
  - specialize (H eq_refl). lra.
  - intros _. lra.
Qed.

Lemma X3_text_only_results_witness :
  In (scoreTrack (text_only "dawn") sun) (ranking [moon; sun] (text_only "dawn")).
Proof.
  apply (X3_text_only_results [moon; sun] (text_only "dawn") sun);
    [reflexivity|reflexivity|].
  split; [right; left; reflexivity|].
  intros (_ & _ & H & _). discriminate H.
Defined.

Lemma nonempty_lower (s : string) : nonempty (toLowerCase s) = nonempty s.
Proof. destruct s; reflexivity. Qed.

Lemma words_from_nonempty (s acc : string) :
  Forall (fun w => nonempty w = true) (Scheme.words_from s acc).
Proof.
  revert acc. induction s as [|c s IH]; intros acc; simpl.
  - destruct (nonempty acc) eqn:E; repeat constructor. exact E.
  - destruct (is_ws c); [|apply IH].
    destruct (nonempty acc) eqn:E; [constructor; [exact E|]|]; apply IH.
Qed.

(** The pieces of the lower-cased trimmed query are not empty. *)
Lemma query_pieces_nonempty (q w : string) :
  nonempty (trim q) = true ->
  In w (split_ws (toLowerCase (trim q))) -> nonempty w = true.
Proof.
  intros H Hw. rewrite (split_query_words q H) in Hw.
  apply in_map_iff in Hw. destruct Hw as (w' & <- & Hw').
  rewrite nonempty_lower.
  pose proof (words_from_nonempty (trim q) "") as Hf.
  rewrite Forall_forall in Hf. now apply Hf.
Qed.

(** X4. A track that has no name, no artist and no album gets the text
    score 0 for every query, and a search by text alone never returns
    it. *)
Theorem X4_textless_track_unreachable (tracks : list Track) (p : Params)
  (limit : Z) (t : Track) :
  hasQuery p = true ->
  orEmpty (Track_Name t) = ""%string ->
  orEmpty (Artist_Names t) = ""%string ->
  orEmpty (Album_Name t) = ""%string ->
  textScore p t = 0 /\
  (hasSliders p = false -> ~ In (scoreTrack p t) (search tracks p limit)).
Proof.
  intros Hq Hn Ha Hl.
  assert (Hz : textScore p t = 0).
  { unfold textScore. rewrite Hq. apply computeTextScore_zero_iff.
    unfold no_text_match. cbv zeta. rewrite Hn, Ha, Hl. simpl toLowerCase.
    assert (Hne : nonempty (toLowerCase (trim (query p))) = true)
      by now rewrite nonempty_lower.
    rewrite (includes_empty _ Hne). repeat split.
    right. intros w Hw.
    now rewrite (includes_empty w (query_pieces_nonempty _ _ Hq Hw)). }
  split; [exact Hz|].
  intros Hs Hin.
  destruct (search_In tracks p limit _ Hin) as (_ & _ & _ & _ & Hpos).
  specialize (Hpos Hq). simpl score in Hpos.
  rewrite (combinedScore_text_only p t Hq Hs) in Hpos. lra.
Qed.

Lemma X4_textless_track_unreachable_witness :
  let blank := mkTrack None (Some ""%string) None (JNum 0.5) (JNum 0.5)
                 (JNum 0.5) (JNum 100) (JNum 0.3) (JNum 0.5) (JNum 0.5)
                 (JNum 0.5) (JNum 0.5) in
  textScore (text_only "sun") blank = 0.
Proof.
  intros blank.
  apply (X4_textless_track_unreachable [blank] (text_only "sun") 5 blank);
    reflexivity.
Defined.

(** X5. When the text and the sliders are both active, a track that the
    query does not touch is still ranked as soon as its feature score is
    positive, that is, as soon as it lies at a distance below [sqrt 5] from
    the slider target. *)
Theorem X5_unmatched_track_kept_by_sliders (tracks : list Track) (p : Params)
  (s : Sliders) (t : Track) :
  hasQuery p = true -> sliders p = Some s -> hasSliders p = true ->
  textScore p t = 0 ->
  score (scoreTrack p t) = 0.45 * featureScore p t /\
  (In (scoreTrack p t) (ranking tracks p) <->
   In t tracks /\
   Scheme.distance (Scheme.track_point t) (Scheme.target_point s) < sqrt 5).
Proof.
  intros Hq Hs Hh Hz.
  assert (Hc : combinedScore p t = 0.45 * featureScore p t).
  { unfold combinedScore. rewrite Hq, Hh, Hz. simpl. ring. }
  split; [exact Hc|].
  rewrite ranking_In by now left. rewrite Hc.
  rewrite (featureScore_active p s t Hs Hh).
  set (d := Scheme.distance _ _).
  pose proof sqrt5_pos as H5.
  assert (Hd : d < sqrt 5 <-> d / sqrt 5 < 1).
  { split; intros H.
    - apply (Rmult_lt_reg_r (sqrt 5)); [exact H5|].
      unfold Rdiv. rewrite Rmult_assoc, Rinv_l; lra.
    - apply (Rmult_lt_compat_r (sqrt 5)) in H; [|exact H5].
      unfold Rdiv in H. rewrite Rmult_assoc, Rinv_l in H; lra. }
  split; intros [Hin H]; (split; [exact Hin|]).
  - specialize (H Hq). apply Hd. lra.
  - intros _. apply Hd in H. lra.
Qed.

Lemma zzz_score : textScore (both "zzz" 0.8) sun = 0.
Proof.
  unfold textScore, computeTextScore; simpl.
  unfold Rmin. destruct (Rle_dec _ _); lra.
Qed.

Lemma X5_unmatched_track_kept_by_sliders_witness :
  score (scoreTrack (both "zzz" 0.8) sun)
  = 0.45 * featureScore (both "zzz" 0.8) sun.
Proof.
  exact (proj1 (X5_unmatched_track_kept_by_sliders [sun] (both "zzz" 0.8)
                  (mkSliders (JNum 0.8) JNull JNull JNull JNull) sun
                  eq_refl eq_refl eq_refl zzz_score)).
Defined.

Lemma search_firstn (tracks : list Track) (p : Params) (k : Z) :
  (0 <= k)%Z ->
  search tracks p k = firstn (Z.to_nat k) (ranking tracks p).
Proof.
  intros Hk.
  destruct (hasQuery p) eqn:Hq, (hasSliders p) eqn:Hs;
    try (rewrite (ranking_active tracks p) by auto;
         rewrite (search_active tracks p k) by auto;
         unfold slice0; destruct (Z.ltb_spec k 0); [lia|reflexivity]).
  unfold ranking.
  rewrite (search_inactive tracks p k Hq Hs),
    (search_inactive tracks p _ Hq Hs).
  now rewrite firstn_nil.
Qed.

(** X6. Raising the limit only appends results: the search with a limit
    [k] returns the first [k] results of the search with any larger
    limit. *)
Theorem X6_limit_prefix (tracks : list Track) (p : Params) (k m : Z) :
  (0 <= k <= m)%Z ->
  search tracks p k = firstn (Z.to_nat k) (search tracks p m).
Proof.
  intros H. rewrite !search_firstn by lia.
  rewrite firstn_firstn. f_equal. lia.
Qed.

Lemma X6_limit_prefix_witness :
  search [moon; sun] (dance_only 0.8) 1
  = firstn 1 (search [moon; sun] (dance_only 0.8) 5).
Proof. apply (X6_limit_prefix [moon; sun] (dance_only 0.8) 1 5). lia. Defined.

(** X7. The number of results is the limit, or the number of candidates
    when there are fewer: every track of the library when only sliders are
    active, the tracks of positive score when there is a query. *)
Theorem X7_result_count (tracks : list Track) (p : Params) (limit : Z) :
  (0 <= limit)%Z ->
  hasQuery p = true \/ hasSliders p = true ->
  List.length (search tracks p limit)
  = Nat.min (Z.to_nat limit) (List.length (candidates tracks p)) /\
  (hasQuery p = false ->
   List.length (candidates tracks p) = List.length tracks) /\
  (hasQuery p = true ->
   List.length (candidates tracks p)
   = List.length
       (filter (fun t => if Rlt_dec 0 (combinedScore p t) then true else false)
          tracks)).
Proof.
  intros Hl Ha. split; [|split].
  - rewrite (search_firstn tracks p limit Hl), (ranking_active tracks p Ha).
    rewrite length_firstn, sort_length. reflexivity.
  - intros Hq. unfold candidates. rewrite Hq. apply length_map.
  - intros Hq. unfold candidates. rewrite Hq.
    induction tracks as [|t l IH]; simpl; [reflexivity|].
    unfold positive_score at 1. simpl score.
    destruct (Rlt_dec 0 (combinedScore p t)); simpl; now rewrite IH.
Qed.

Lemma X7_result_count_witness :
  List.length (search [moon; sun; star] (dance_only 0.8) 2) = 2%nat.
Proof.
  destruct (X7_result_count [moon; sun; star] (dance_only 0.8) 2)
    as (H & Hc & _); [lia|right; reflexivity|].
  rewrite H, (Hc eq_refl). reflexivity.
Defined.

End SearchContents.

Section SortPermutation.

Local Open Scope R_scope.

Context {A : Type} (cmp : A -> A -> R).

Lemma insert_Permutation (x : A) (l : list A) :
  Permutation (insert cmp x l) (x :: l).
Proof.
  induction l as [|y l IH]; simpl; [reflexivity|].
  destruct (Rlt_dec (cmp y x) 0); [|reflexivity].
  rewrite IH. apply perm_swap.
Qed.

Lemma sort_Permutation (l : list A) : Permutation (JSNum.sort cmp l) l.
Proof.
  induction l as [|x l IH]; simpl; [reflexivity|].
  rewrite insert_Permutation. now constructor.
Qed.

End SortPermutation.

Section SearchContents2.

Import Search.
Local Open Scope R_scope.

(** X8. The whole ranking is a rearrangement of the scored candidates:
    sorting loses no track and repeats none. *)
Theorem X8_ranking_permutation (tracks : list Track) (p : Params) :
  hasQuery p = true \/ hasSliders p = true ->
  Permutation (ranking tracks p) (candidates tracks p) /\
  (hasQuery p = false -> Permutation (map track (ranking tracks p)) tracks).
Proof.
  intros Ha. rewrite (ranking_active tracks p Ha).
  pose proof (sort_Permutation (fun a b => score b - score a)
                (candidates tracks p)) as H.
  split; [exact H|].
  intros Hq. rewrite H. unfold candidates. rewrite Hq.
  rewrite map_map. simpl. now rewrite map_id.
Qed.

Lemma X8_ranking_permutation_witness :
  Permutation (map track (ranking [moon; sun; star] (dance_only 0.8)))
    [moon; sun; star].
Proof.
  destruct (X8_ranking_permutation [moon; sun; star] (dance_only 0.8))
    as [_ H]; [right; reflexivity|].
  apply H. reflexivity.
Defined.

Lemma sum_sq_diff_nonneg (a b : list R) : 0 <= Scheme.sum_sq_diff a b.
Proof.
  revert b. induction a as [|u a IH]; intros [|v b]; simpl; try lra.
  specialize (IH b). pose proof (Rle_0_sqr (u - v)) as H. unfold Rsqr in H.
  lra.
Qed.

Lemma sum_sq_diff_zero (a b : list R) :
  List.length a = List.length b ->
  Scheme.sum_sq_diff a b = 0 -> a = b.
Proof.
  revert b. induction a as [|u a IH]; intros [|v b] Hl H;
    try discriminate; [reflexivity|].
  simpl in *. injection Hl as Hl.
  pose proof (sum_sq_diff_nonneg a b) as Hn.
  pose proof (Rle_0_sqr (u - v)) as Hs. unfold Rsqr in Hs.
  assert (E : (u - v) * (u - v) = 0) by lra.
  apply Rmult_integral in E.
  f_equal; [destruct E; lra|]. apply IH; [exact Hl|lra].
Qed.

(** X9. The feature score never exceeds 1, and it is 1 only for a track
    that coincides with the slider target on the five dimensions. *)
Theorem X9_feature_score_one_iff (p : Params) (s : Sliders) (t : Track) :
  sliders p = Some s -> hasSliders p = true ->
  featureScore p t <= 1 /\
  (featureScore p t = 1 <-> Scheme.track_point t = Scheme.target_point s).
Proof.
  intros Hs Hh. rewrite (featureScore_active p s t Hs Hh).
  unfold Scheme.distance.
  set (sum := Scheme.sum_sq_diff _ _).
  pose proof sqrt5_pos as H5.
  assert (Hn : 0 <= sum) by apply sum_sq_diff_nonneg.
  assert (H0 : 0 <= sqrt sum) by apply sqrt_pos.
  assert (Hq : 0 <= sqrt sum / sqrt 5).
  { apply Rmult_le_pos; [exact H0|]. apply Rlt_le, Rinv_0_lt_compat, H5. }
  split; [lra|]. split.
  - intros H.
    assert (Hz : sqrt sum = 0).
    { assert (E : sqrt sum / sqrt 5 = 0) by lra.
      apply (f_equal (fun x => x * sqrt 5)) in E.
      unfold Rdiv in E. rewrite Rmult_assoc, Rinv_l in E; lra. }
    apply sqrt_eq_0 in Hz; [|exact Hn].
    apply sum_sq_diff_zero; [reflexivity|exact Hz].
  - intros E. unfold sum. rewrite E, sum_sq_diff_same, sqrt_0.
    unfold Rdiv. ring.
Qed.

Lemma X9_feature_score_one_iff_witness :
  featureScore (dance_only 0.8) sun <= 1.
Proof.
  exact (proj1 (X9_feature_score_one_iff (dance_only 0.8)
                  (mkSliders (JNum 0.8) JNull JNull JNull JNull) sun
                  eq_refl eq_refl)).
Defined.

Lemma Math_round_percent (x : R) :
  0 <= x <= 1 -> (0 <= Math_round (x * 100) <= 100)%Z.
Proof.
  intros H. unfold Math_round.
  destruct (base_Int_part (x * 100 + 1 / 2)) as [Hle Hgt].
  split.
  - assert (IZR (-1) < IZR (Int_part (x * 100 + 1 / 2))) by lra.
    apply lt_IZR in H0. lia.
  - assert (IZR (Int_part (x * 100 + 1 / 2)) < IZR 101) by lra.
    apply lt_IZR in H0. lia.
Qed.

(** X10. For tracks and sliders in range, the percentage that the
    explanation of a result states is a whole number between 0 and 100. *)
Theorem X10_explanation_percentage (tracks : list Track) (p : Params)
  (limit : Z) (r : Result) :
  Forall track_in_range tracks ->
  sliders_in_range p ->
  In r (search tracks p limit) ->
  exists pct : Z,
    (0 <= pct <= 100)%Z /\
    buildExplanation r = explanation pct (reasons r).
Proof.
  intros Ht Hp Hin.
  destruct (search_In tracks p limit r Hin) as (t & Hin' & -> & _ & _).
  pose proof (Forall_track_in_range t tracks Ht Hin') as Hr.
  pose proof (combinedScore_range p t Hr Hp) as Hc.
  exists (Math_round (combinedScore p t * 100)). split.
  - now apply Math_round_percent.
  - unfold buildExplanation, explanation. cbv zeta.
    rewrite toFixed0_round by (simpl score; lra).
    now rewrite !string_app_assoc.
Qed.

Lemma X10_explanation_percentage_witness :
  exists pct : Z,
    (0 <= pct <= 100)%Z /\
    buildExplanation (scoreTrack (dance_only 0.8) sun)
    = explanation pct (reasons (scoreTrack (dance_only 0.8) sun)).
Proof.
  apply (X10_explanation_percentage [sun] (dance_only 0.8) 5).
  - constructor; [exact sun_in_range|constructor].
  - unfold sliders_in_range, slider_in_range; simpl; lra.
  - rewrite search_single_sliders by lia. left. reflexivity.
Defined.

(** X11. The normalization of the tempo is a clamp: 0 up to 40 BPM, 1 from
    220 BPM on, linear in between; it never leaves [0,1] and it never
    decreases when the tempo grows. *)
Theorem X11_normalizeTempo_clamp (x y : R) :
  (x <= 40 -> normalizeTempo (JNum x) = JNum 0) /\
  (40 <= x <= 220 -> normalizeTempo (JNum x) = JNum ((x - 40) / 180)) /\
  (220 <= x -> normalizeTempo (JNum x) = JNum 1) /\
  0 <= orZero (normalizeTempo (JNum x)) <= 1 /\
  (x <= y -> orZero (normalizeTempo (JNum x))
             <= orZero (normalizeTempo (JNum y))).
Proof.
  unfold normalizeTempo, toNumber, orZero.
  assert (C : forall z, Rmax 0 (Rmin 1 ((z - 40) / 180))
                        = if Rle_dec z 40 then 0
                          else if Rle_dec 220 z then 1 else (z - 40) / 180).
  { intros z. unfold Rmax, Rmin.
    destruct (Rle_dec 1 ((z - 40) / 180)) as [H1|H1];
      destruct (Rle_dec z 40), (Rle_dec 220 z);
      match goal with |- context [Rle_dec 0 ?a] => destruct (Rle_dec 0 a) end;
      lra. }
  rewrite !C.
  destruct (Rle_dec x 40), (Rle_dec 220 x), (Rle_dec y 40), (Rle_dec 220 y);
    repeat split; intros; try (f_equal; lra); try lra.
Qed.

End SearchContents2.

(* ------------------------------------------------------------------ *)
(** ** Visualizer: life cycle and particles                            *)
(* ------------------------------------------------------------------ *)

Section VisualizerLifeCycle.

Import Visualizer.
Local Open Scope R_scope.

Variable random : nat -> R.

Lemma stopped_frames (s : State) (n : nat) :
  animId s = false -> run random s (frames n) = (s, []).
Proof.
  intros H. unfold frames. induction n as [|n IH]; [reflexivity|].
  simpl. rewrite H, IH. reflexivity.
Qed.

(** X12. Once [destroy] has been called no refresh draws anything or
    changes the visualizer, however many follow; calling [destroy] again
    changes nothing; and a visualizer that was never given a track is idle
    in the same way. *)
Theorem X12_destroy_stops (s : State) (w h : R) (n : nat) :
  run random (destroy s) (frames n) = (destroy s, []) /\
  destroy (destroy s) = destroy s /\
  run random s [Destroy; Destroy] = (destroy s, []) /\
  run random (new_visualizer w h) (frames n) = (new_visualizer w h, []).
Proof.
  split; [apply stopped_frames; reflexivity|].
  split; [reflexivity|]. split; [reflexivity|].
  apply stopped_frames. reflexivity.
Qed.

Lemma animate_output_head (s : State) (f : Features) :
  lerpFeatures s = Some f ->
  exists rest,
    snd (animate random s)
    = FillRect (Rgba 10 10 26 (0.08 + (1 - energy f) * 0.15)) 0 0
        (width s) (height s) :: rest.
Proof.
  intros H. unfold animate. rewrite H.
  destruct (drawParticles _ _ _ _ _ _ _) as [ps cmds]. simpl.
  now eexists.
Qed.

(** X13. [setTrack] on a running visualizer draws nothing and leaves the
    current features where they are: it only replaces the target and the
    particles.  On a visualizer that is not running (new, or destroyed) it
    starts the loop and draws a first frame at once, beginning with the
    background. *)
Theorem X13_setTrack_running_or_not (s : State) (t : Search.Track) :
  (animId s = true ->
   snd (setTrack random s t) = [] /\
   time (fst (setTrack random s t)) = time s /\
   (forall c, features s = Some c ->
              features (fst (setTrack random s t)) = Some c)) /\
  (animId s = false ->
   animId (fst (setTrack random s t)) = true /\
   time (fst (setTrack random s t)) = time s + 0.016 /\
   exists alpha rest,
     snd (setTrack random s t)
     = FillRect (Rgba 10 10 26 alpha) 0 0 (width s) (height s) :: rest).
Proof.
  split; intros Ha.
  - unfold setTrack. simpl animId. rewrite Ha. simpl.
    repeat split. intros c Hc. now rewrite Hc.
  - destruct (setTrack_state random s t) as (_ & Hrun & _).
    split; [exact Hrun|].
    unfold setTrack. simpl animId. rewrite Ha.
    match goal with |- context [animate random ?s0] =>
      set (s1 := s0) end.
    destruct (animate_state random s1) as (Hf & _ & _ & Ht & _).
    split; [exact Ht|].
    assert (Hl : exists f, lerpFeatures s1 = Some f).
    { unfold lerpFeatures, s1, initParticles. cbn [targetFeatures features].
      destruct (features s); eexists; reflexivity. }
    destruct Hl as [f Hl].
    destruct (animate_output_head s1 f Hl) as [rest Hr].
    exists (0.08 + (1 - energy f) * 0.15), rest. exact Hr.
Qed.


Lemma pow_097_range (n : nat) : 0 <= (1 - rate) ^ n <= 1.
Proof.
  unfold rate. induction n as [|n IH]; simpl; [lra|]. split; nra.
Qed.

(** X14. Whatever the state of a running visualizer, [n] ticks multiply the
    gap between each current feature and its target by [0.97 ^ n]: the
    feature moves towards the target, never past it, and never away. *)
Theorem X14_approach_without_overshoot (s : State) (t c : Features)
  (n : nat) :
  targetFeatures s = Some t -> features s = Some c -> animId s = true ->
  exists c',
    features (fst (run random s (frames n))) = Some c' /\
    forall k,
      fget c' k - fget t k = (fget c k - fget t k) * (1 - rate) ^ n /\
      Rabs (fget c' k - fget t k) <= Rabs (fget c k - fget t k) /\
      Rmin (fget c k) (fget t k) <= fget c' k <= Rmax (fget c k) (fget t k).
Proof.
  intros Ht Hc Ha.
  destruct (frames_state random n s t c Ht Hc Ha) as (_ & _ & c' & Hc' & Hk).
  exists c'. split; [exact Hc'|]. intros k.
  pose proof (pow_097_range n) as Hp. rewrite Hk.
  set (g := fget c k - fget t k). set (q := (1 - rate) ^ n) in *.
  split; [ring|]. split.
  - replace (fget t k + g * q - fget t k) with (g * q) by ring.
    rewrite Rabs_mult, (Rabs_pos_eq q) by lra.
    pose proof (Rabs_pos g). nra.
  - unfold Rmin, Rmax. destruct (Rle_dec (fget c k) (fget t k));
      unfold g in *; split; nra.
Qed.

Lemma setTrack_count (s : State) (t : Search.Track) :
  List.length (particles (fst (setTrack random s t)))
  = count_for (featuresOf t).
Proof.
  pose proof (setTrack_classes random s t) as H.
  apply (f_equal (@List.length bool)) in H.
  now rewrite !length_map, length_seq in H.
Qed.

(** X15. A track change generates [floor(80 + 180 * danceability)]
    particles: between 80 and 260 of them when the danceability of the
    track is in [0,1], and none at all when it is below -4/9. *)
Theorem X15_particle_count (s : State) (t : Search.Track) :
  let d := danceability (featuresOf t) in
  let n := List.length (particles (fst (setTrack random s t))) in
  (0 <= d <= 1 -> (80 <= n <= 260)%nat) /\
  (d < - (4 / 9) -> n = 0%nat) /\
  (0 <= d -> IZR (Z.of_nat n) <= 80 + d * 180 < IZR (Z.of_nat n) + 1).
Proof.
  cbv zeta. rewrite setTrack_count. unfold count_for, Math_floor.
  set (d := danceability (featuresOf t)).
  destruct (base_Int_part (80 + d * 180)) as [Hle Hgt].
  split; [|split].
  - intros Hd.
    assert (H1 : IZR 79 < IZR (Int_part (80 + d * 180))) by lra.
    assert (H2 : IZR (Int_part (80 + d * 180)) < IZR 261) by lra.
    apply lt_IZR in H1, H2. lia.
  - intros Hd.
    assert (H1 : IZR (Int_part (80 + d * 180)) < IZR 1) by lra.
    apply lt_IZR in H1. lia.
  - intros Hd.
    assert (H1 : IZR 79 < IZR (Int_part (80 + d * 180))) by lra.
    apply lt_IZR in H1. rewrite Z2Nat.id by lia. lra.
Qed.

Lemma drawParticles_attributes (f : Features) (t w h : R) (n : nat)
  (ps : list Particle) :
  Forall2 same_attributes ps (fst (drawParticles random f t w h n ps)).
Proof.
  revert n. induction ps as [|p ps IH]; intros n; simpl; [constructor|].
  specialize (IH (n + 2)%nat).
  destruct (drawParticles random f t w h (n + 2) ps) as [rest cmds].
  simpl in *. constructor; [|exact IH].
  unfold same_attributes. simpl. repeat split.
Qed.

Lemma Forall2_same_attributes_refl (ps : list Particle) :
  Forall2 same_attributes ps ps.
Proof.
  induction ps; constructor; [|assumption].
  unfold same_attributes. repeat split.
Qed.

(** X16. A tick moves the particles and does nothing else to them: their
    number, and the velocity, size, life, phase and class of each, are
    the same after the tick as before. *)
Theorem X16_tick_keeps_particles (s : State) :
  Forall2 same_attributes (particles s) (particles (fst (animate random s))).
Proof.
  unfold animate. destruct (lerpFeatures s) as [f|].
  - pose proof (drawParticles_attributes f (time s + 0.016) (width s)
                  (height s) (draws s) (particles s)) as H.
    destruct (drawParticles _ _ _ _ _ _ _) as [ps cmds]. exact H.
  - apply Forall2_same_attributes_refl.
Qed.

Lemma moveParticle_in_margin (f : Features) (t w h : R) (n : nat)
  (p : Particle) :
  -20 <= w -> -20 <= h ->
  in_margin w h (moveParticle random f t w h n p).
Proof.
  intros Hw Hh. unfold in_margin, moveParticle. cbn [x y].
  repeat match goal with
         | |- context [Rlt_dec ?a ?b] => destruct (Rlt_dec a b)
         end; lra.
Qed.

Lemma drawParticles_in_margin (f : Features) (t w h : R) (n : nat)
  (ps : list Particle) :
  -20 <= w -> -20 <= h ->
  Forall (in_margin w h) (fst (drawParticles random f t w h n ps)).
Proof.
  intros Hw Hh. revert n.
  induction ps as [|p ps IH]; intros n; simpl; [constructor|].
  specialize (IH (n + 2)%nat).
  destruct (drawParticles random f t w h (n + 2) ps) as [rest cmds].
  simpl in *. constructor; [|exact IH].
  now apply moveParticle_in_margin.
Qed.

(** X17. Particles wrap around the edges: after every tick of a visualizer
    that has a track, each particle lies on the surface or within 10 pixels
    of it. *)
Theorem X17_particles_wrap (s : State) (c : Features) :
  features s = Some c -> 0 <= width s -> 0 <= height s ->
  Forall (in_margin (width s) (height s))
    (particles (fst (animate random s))).
Proof.
  intros Hc Hw Hh. unfold animate.
  assert (Hl : exists f, lerpFeatures s = Some f).
  { unfold lerpFeatures. rewrite Hc.
    destruct (targetFeatures s); eexists; reflexivity. }
  destruct Hl as [f Hl]. rewrite Hl.
  pose proof (drawParticles_in_margin f (time s + 0.016) (width s)
                (height s) (draws s) (particles s)) as H.
  destruct (drawParticles _ _ _ _ _ _ _) as [ps cmds]. simpl.
  apply H; lra.
Qed.

Lemma shapes_drawn_app (a b : list DrawCmd) :
  shapes_drawn (a ++ b) = shapes_drawn a ++ shapes_drawn b.
Proof. unfold shapes_drawn. apply flat_map_app. Qed.

Lemma shapes_drawn_glow (f : Features) (t : R) (p : Particle) :
  shapes_drawn (drawGlow f t p) = [].
Proof. unfold drawGlow. destruct (Rlt_dec 0.6 (energy f)); reflexivity. Qed.

Lemma shapes_drawn_connectAll (f : Features) (ps : list Particle) :
  shapes_drawn (connectAll f ps) = [].
Proof.
  induction ps as [|p ps IH]; simpl; [reflexivity|].
  rewrite shapes_drawn_app, IH, app_nil_r.
  induction ps as [|q qs IHq]; simpl; [reflexivity|].
  rewrite shapes_drawn_app.
  assert (E : shapes_drawn (connect f p q) = []).
  { unfold connect. destruct (Rlt_dec _ _); reflexivity. }
  rewrite E. simpl. apply IHq.
  clear -IH. simpl in IH. rewrite shapes_drawn_app in IH.
  apply app_eq_nil in IH. tauto.
Qed.

Lemma shapes_drawn_lines (f : Features) (ps : list Particle) :
  shapes_drawn (drawLines f ps) = [].
Proof.
  unfold drawLines. destruct (Rlt_dec 0.5 (danceability f)); [|reflexivity].
  apply shapes_drawn_connectAll.
Qed.

Lemma shapes_drawn_particles (f : Features) (t w h : R) (n : nat)
  (ps : list Particle) :
  shapes_drawn (snd (drawParticles random f t w h n ps))
  = map (shape_for f) (fst (drawParticles random f t w h n ps)).
Proof.
  revert n. induction ps as [|p ps IH]; intros n; simpl; [reflexivity|].
  specialize (IH (n + 2)%nat).
  destruct (drawParticles random f t w h (n + 2) ps) as [rest cmds].
  simpl in *.
  change (shapes_drawn (?c :: ?l)) with (shapes_drawn [c] ++ shapes_drawn l).
  rewrite shapes_drawn_app, shapes_drawn_glow, IH. simpl.
  unfold shapes_drawn. simpl. rewrite drawShape_shape. reflexivity.
Qed.

(** X18. Every tick of a visualizer that has a track repaints the
    background first and then draws each particle exactly once, in the
    order of the particle list and in the shape of its class; glows and
    connecting lines add no further shape. *)
Theorem X18_one_shape_per_particle (s : State) (c : Features) :
  features s = Some c ->
  exists f rest,
    features (fst (animate random s)) = Some f /\
    snd (animate random s)
    = FillRect (Rgba 10 10 26 (0.08 + (1 - energy f) * 0.15)) 0 0
        (width s) (height s) :: rest /\
    shapes_drawn (snd (animate random s))
    = map (shape_for f) (particles (fst (animate random s))).
Proof.
  intros Hc.
  assert (Hl : exists f, lerpFeatures s = Some f).
  { unfold lerpFeatures. rewrite Hc.
    destruct (targetFeatures s); eexists; reflexivity. }
  destruct Hl as [f Hl].
  destruct (animate_output_head s f Hl) as [rest Hr].
  exists f, rest.
  split; [now rewrite (proj1 (animate_state random s))|].
  split; [exact Hr|].
  unfold animate. rewrite Hl.
  pose proof (shapes_drawn_particles f (time s + 0.016) (width s)
                (height s) (draws s) (particles s)) as H.
  destruct (drawParticles _ _ _ _ _ _ _) as [ps cmds]. simpl in *.
  change (shapes_drawn (?c :: ?l)) with (shapes_drawn [c] ++ shapes_drawn l).
  rewrite shapes_drawn_app, shapes_drawn_lines, app_nil_r. exact H.
Qed.

Lemma filter_is_line_particles (f : Features) (t w h : R) (n : nat)
  (ps : list Particle) :
  filter is_line (snd (drawParticles random f t w h n ps)) = [].
Proof.
  revert n. induction ps as [|p ps IH]; intros n; simpl; [reflexivity|].
  specialize (IH (n + 2)%nat).
  destruct (drawParticles random f t w h (n + 2) ps) as [rest cmds].
  simpl in *. rewrite filter_app, IH, app_nil_r.
  assert (E1 : is_line (drawShape f t (moveParticle random f t w h n p))
               = false).
  { unfold drawShape. destruct (organic _); [reflexivity|].
    destruct (Rlt_dec _ _); reflexivity. }
  rewrite E1. unfold drawGlow. destruct (Rlt_dec _ _); reflexivity.
Qed.

Lemma connect_length (f : Features) (pi pj : Particle) :
  (List.length (connect f pi pj) <= 1)%nat.
Proof. unfold connect. destruct (Rlt_dec _ _); simpl; lia. Qed.

Lemma connectAll_length (f : Features) (ps : list Particle) :
  (2 * List.length (connectAll f ps)
   <= List.length ps * (List.length ps - 1))%nat.
Proof.
  induction ps as [|p ps IH]; simpl; [lia|].
  rewrite length_app.
  assert (H : (List.length (flat_map (connect f p) ps) <= List.length ps)%nat).
  { clear IH. induction ps as [|q qs IHq]; simpl; [lia|].
    rewrite length_app. pose proof (connect_length f p q). lia. }
  rewrite Nat.sub_0_r. destruct ps as [|q qs]; simpl in *; [lia|].
  rewrite Nat.sub_0_r in IH. nia.
Qed.

Lemma stride3_length (ps : list Particle) :
  (3 * List.length (stride3 ps) <= List.length ps + 2)%nat.
Proof.
  assert (G : forall n ps, (List.length ps <= n)%nat ->
                           (3 * List.length (stride3 ps)
                            <= List.length ps + 2)%nat).
  { clear ps. induction n as [|n IH]; intros ps Hn.
    - destruct ps; simpl in *; lia.
    - destruct ps as [|a [|b [|c rest]]]; simpl in *; try lia.
      assert (Hr : (List.length rest <= n)%nat) by lia.
      specialize (IH rest Hr). lia. }
  now apply (G (List.length ps)).
Qed.

(** X19. The connecting lines are drawn between particles of index 0, 3,
    6, ... only: with [n] particles a tick draws at most [k (k - 1) / 2]
    lines where [k] is [n / 3] rounded up, and it draws none unless the
    current danceability exceeds 0.5. *)
Theorem X19_connecting_lines_bound (s : State) (f : Features) :
  lerpFeatures s = Some f ->
  let lines := filter is_line (snd (animate random s)) in
  let n := List.length (particles s) in
  (exists k, (3 * k <= n + 2)%nat /\
             (2 * List.length lines <= k * (k - 1))%nat) /\
  (danceability f <= 0.5 -> lines = []).
Proof.
  intros Hl. cbv zeta. unfold animate. rewrite Hl.
  pose proof (filter_is_line_particles f (time s + 0.016) (width s)
                (height s) (draws s) (particles s)) as Hp.
  pose proof (drawParticles_attributes f (time s + 0.016) (width s)
                (height s) (draws s) (particles s)) as Ha.
  apply Forall2_length in Ha.
  destruct (drawParticles _ _ _ _ _ _ _) as [ps cmds]. simpl in *.
  rewrite filter_app, Hp. simpl.
  unfold drawLines. destruct (Rlt_dec 0.5 (danceability f)) as [Hd|Hd].
  - split; [|intros; lra].
    exists (List.length (stride3 ps)). split.
    + rewrite Ha. apply stride3_length.
    + pose proof (connectAll_length f (stride3 ps)) as Hc.
      pose proof (filter_length_le is_line (connectAll f (stride3 ps))) as Hf.
      lia.
  - simpl. split; [|reflexivity]. exists 0%nat. lia.
Qed.

End VisualizerLifeCycle.

Section ParticleCreation.

Import Visualizer.
Local Open Scope R_scope.

Variable random : nat -> R.
Hypothesis random_range : forall n, 0 <= random n < 1.

Lemma createParticle_fresh (s : State) (f : Features) (n : nat) :
  targetFeatures s = Some f -> 0 <= loudness f <= 1 ->
  0 <= width s -> 0 <= height s ->
  freshly_created (width s) (height s) (createParticle random s n).
Proof.
  intros Ht Hl Hw Hh. unfold createParticle, particle_source. rewrite Ht.
  unfold freshly_created. cbn [x y vx vy size life phase field_or].
  pose proof (random_range n) as R0.
  pose proof (random_range (n + 1)) as R1.
  pose proof (random_range (n + 2)) as R2.
  pose proof (random_range (n + 3)) as R3.
  pose proof (random_range (n + 4)) as R4.
  pose proof (random_range (n + 5)) as R5.
  pose proof (random_range (n + 6)) as R6.
  pose proof PI_RGT_0 as Hpi.
  assert (Hd : 0 <= orDefault (loudness f) 0.5 <= 1).
  { unfold orDefault. destruct (Req_dec_T _ _); lra. }
  repeat split; try lra; try nra.
Qed.

(** X20. The particles that [setTrack] generates on a running visualizer
    start on the surface, with a velocity in [-1, 1) on each axis, a life
    in [0, 1), a phase in [0, 2 pi) and, for a target loudness in [0,1], a
    size in [1.5, 6). *)
Theorem X20_fresh_particles (s : State) (t : Search.Track) :
  animId s = true ->
  0 <= loudness (featuresOf t) <= 1 ->
  0 <= width s -> 0 <= height s ->
  Forall (freshly_created (width s) (height s))
    (particles (fst (setTrack random s t))).
Proof.
  intros Ha Hl Hw Hh. unfold setTrack. simpl animId. rewrite Ha.
  cbn [fst]. unfold initParticles. cbn [particles].
  apply Forall_map, Forall_forall. intros i _.
  match goal with |- freshly_created _ _ (createParticle random ?s0 _) =>
    apply (createParticle_fresh s0 (featuresOf t)) end;
    cbn [targetFeatures width height]; try reflexivity; assumption.
Qed.

End ParticleCreation.

(* ------------------------------------------------------------------ *)
(** ** The ambient background                                          *)
(* ------------------------------------------------------------------ *)

Section AmbientBackground.

Import Background.
Local Open Scope R_scope.

Variable random : nat -> R.
Hypothesis random_range : forall n, 0 <= random n < 1.

Lemma newOrb_ok (w h : R) (i : nat) : orb_ok (newOrb random w h i).
Proof.
  unfold orb_ok, newOrb. cbn [r hue vx vy].
  pose proof (random_range (6 * i + 2)).
  pose proof (random_range (6 * i + 3)).
  pose proof (random_range (6 * i + 4)).
  pose proof (random_range (6 * i + 5)).
  repeat split; lra.
Qed.

Lemma moveOrb_same (t w h : R) (o : Orb) : same_orb o (moveOrb t w h o).
Proof. unfold same_orb. repeat split. Qed.

Lemma moveOrb_ok (t w h : R) (o : Orb) : orb_ok o -> orb_ok (moveOrb t w h o).
Proof. intros H. exact H. Qed.

Lemma step_orbs (s : State) (e : Event) :
  Forall orb_ok (orbs s) ->
  Forall orb_ok (orbs (fst (step s e))) /\
  Forall2 same_orb (orbs s) (orbs (fst (step s e))) /\
  Forall valid_cmd (snd (step s e)).
Proof.
  intros H. destruct e as [|w h]; simpl.
  - split; [|split].
    + apply Forall_map. eapply Forall_impl; [|exact H].
      intros o Ho. now apply moveOrb_ok.
    + clear H. induction (orbs s); simpl; constructor;
        [apply moveOrb_same|assumption].
    + constructor; [exact I|].
      rewrite map_map. apply Forall_map.
      eapply Forall_impl; [|exact H].
      intros o [[Hr _] _]. simpl. lra.
  - split; [exact H|]. split; [|constructor].
    clear H. induction (orbs s); constructor; [|assumption].
    unfold same_orb. repeat split.
Qed.

Lemma same_orb_trans (a b c : Orb) : same_orb a b -> same_orb b c -> same_orb a c.
Proof. unfold same_orb. intros (?&?&?&?) (?&?&?&?). repeat split; congruence. Qed.

Lemma Forall2_same_orb_trans (a b c : list Orb) :
  Forall2 same_orb a b -> Forall2 same_orb b c -> Forall2 same_orb a c.
Proof.
  intros H. revert c. induction H as [|x y a b Hxy _ IH]; intros c Hc.
  - inversion Hc. constructor.
  - inversion Hc as [|? z ? c' Hyz Hbc]; subst. constructor.
    + eapply same_orb_trans; eassumption.
    + now apply IH.
Qed.

Lemma run_orbs (es : list Event) (s : State) :
  Forall orb_ok (orbs s) ->
  Forall orb_ok (orbs (fst (run s es))) /\
  Forall2 same_orb (orbs s) (orbs (fst (run s es))) /\
  Forall valid_cmd (snd (run s es)).
Proof.
  revert s. induction es as [|e es IH]; intros s H; simpl.
  - split; [exact H|]. split; [|constructor].
    clear H. induction (orbs s); constructor; [|assumption].
    unfold same_orb. repeat split.
  - destruct (step_orbs s e H) as (H1 & H2 & H3).
    destruct (step s e) as [s1 out1]. simpl in *.
    destruct (IH s1 H1) as (H4 & H5 & H6).
    destruct (run s1 es) as [s2 out2]. simpl in *.
    split; [exact H4|]. split.
    + eapply Forall2_same_orb_trans; eassumption.
    + apply Forall_app. now split.
Qed.

(** X21. The ambient background always has its five orbs; whatever
    refreshes and resizes follow its creation, each orb keeps the radius
    (between 100 and 300), the hue (between 240 and 320) and the drift it
    was created with, and no frame asks the canvas for a disc or a gradient
    of negative radius. *)
Theorem X21_ambient_orbs (w h : R) (es : list Event) :
  let s0 := fst (create random w h) in
  let s := fst (run s0 es) in
  List.length (orbs s) = 5%nat /\
  Forall orb_ok (orbs s) /\
  Forall2 same_orb (orbs s0) (orbs s) /\
  Forall valid_cmd (snd (create random w h) ++ snd (run s0 es)).
Proof.
  cbv zeta.
  assert (H0 : Forall orb_ok (orbs (fst (create random w h)))).
  { unfold create, animate, initOrbs. cbn [fst orbs app].
    apply Forall_map, Forall_map, Forall_forall. intros i _.
    apply moveOrb_ok, newOrb_ok. }
  destruct (run_orbs es _ H0) as (H1 & H2 & H3).
  assert (L0 : List.length (orbs (fst (create random w h))) = 5%nat)
    by reflexivity.
  split; [|split; [exact H1|split; [exact H2|]]].
  - apply Forall2_length in H2. congruence.
  - apply Forall_app. split; [|exact H3].
    unfold create, animate, initOrbs. cbn [snd fst orbs app width height].
    constructor; [exact I|].
    rewrite map_map. apply Forall_map, Forall_map, Forall_forall.
    intros i _. cbn [valid_cmd drawOrb moveOrb newOrb r].
    pose proof (random_range (6 * i + 2)). lra.
Qed.

End AmbientBackground.

Section AmbientWrap.

Import Background.
Local Open Scope R_scope.

(** X22. Orbs wrap around the edges: after a tick every orb still
    overlaps or touches the surface, its centre being no more than its
    radius outside. *)
Theorem X22_orbs_wrap (s : State) :
  Forall (fun o => 0 <= r o) (orbs s) -> 0 <= width s -> 0 <= height s ->
  Forall (orb_in_reach (width s) (height s)) (orbs (fst (animate s))).
Proof.
  intros Hr Hw Hh. unfold animate. cbn [fst orbs].
  apply Forall_map. eapply Forall_impl; [|exact Hr].
  intros o Ho. unfold orb_in_reach, moveOrb. cbn [x y r].
  repeat match goal with
         | |- context [Rlt_dec ?a ?b] => destruct (Rlt_dec a b)
         end; lra.
Qed.

End AmbientWrap.

(* ------------------------------------------------------------------ *)
(** ** The loading of the library                                      *)
(* ------------------------------------------------------------------ *)

Section Loading.

Import Data.
Local Open Scope R_scope.

Variable parseFloat : option string -> jsnum.

Lemma castNumeric_spec (cells : numeric_field -> option string)
  (f : numeric_field) :
  castNumeric parseFloat cells f = orZero (parseFloat (cells f)).
Proof. destruct f; reflexivity. Qed.

Lemma normalizeTracks_kept (row : Row) :
  kept row = true ->
  exists t, normalizeTracks parseFloat row = Some t /\
            Track_Name t = row_Track_Name row /\
            Track_URI t = row_Track_URI row.
Proof.
  unfold kept, normalizeTracks. intros H.
  apply andb_prop in H. destruct H as [-> ->]. simpl.
  eexists. repeat split.
Qed.

Lemma normalizeTracks_dropped (row : Row) :
  kept row = false -> normalizeTracks parseFloat row = None.
Proof.
  unfold kept, normalizeTracks. intros H.
  destruct (truthy (row_Track_Name row)), (truthy (row_Track_URI row));
    try discriminate; reflexivity.
Qed.

(** X23. The loader keeps exactly the rows that have a track name and a
    track URI, both non-empty, and keeps them in the order of the file:
    the library is the list of the normalized kept rows. *)
Theorem X23_rows_kept (data : list Row) :
  map Some (complete parseFloat data)
  = map (normalizeTracks parseFloat) (filter kept data) /\
  Forall (fun t => truthy (Track_Name t) = true /\
                   truthy (Track_URI t) = true)
    (complete parseFloat data) /\
  (forall row, normalizeTracks parseFloat row = None <-> kept row = false).
Proof.
  split; [|split].
  - induction data as [|row data IH]; [reflexivity|].
    unfold complete in *. cbn [flat_map filter].
    destruct (kept row) eqn:K.
    + destruct (normalizeTracks_kept row K) as (t & E & _).
      cbn [map]. rewrite E. cbn [app map]. now rewrite IH.
    + rewrite (normalizeTracks_dropped row K). exact IH.
  - induction data as [|row data IH]; [constructor|].
    unfold complete in *. cbn [flat_map].
    destruct (kept row) eqn:K.
    + destruct (normalizeTracks_kept row K) as (t & E & Hn & Hu).
      rewrite E. cbn [app]. constructor; [|exact IH].
      rewrite Hn, Hu. unfold kept in K. now apply andb_prop in K.
    + rewrite (normalizeTracks_dropped row K). exact IH.
  - intros row. split.
    + intros H. destruct (kept row) eqn:K; [|reflexivity].
      destruct (normalizeTracks_kept row K) as (t & E & _). congruence.
    + apply normalizeTracks_dropped.
Qed.

Lemma clamp_range (v : R) : 0 <= Rmax 0 (Rmin 1 v) <= 1.
Proof.
  unfold Rmax, Rmin. destruct (Rle_dec 1 v);
    match goal with |- context [Rle_dec 0 ?a] => destruct (Rle_dec 0 a) end;
    lra.
Qed.

Lemma normalizeTracks_fields (row : Row) (t : LoadedTrack) :
  normalizeTracks parseFloat row = Some t ->
  (forall f, numeric t f = orZero (parseFloat (row_numeric row f))) /\
  tempoNorm t = Rmax 0 (Rmin 1 ((numeric t N_Tempo - 40) / 180)) /\
  loudnessNorm t = Rmax 0 (Rmin 1 ((numeric t N_Loudness + 60) / 60)).
Proof.
  unfold normalizeTracks.
  destruct (negb _ || negb _); [discriminate|].
  intros E. injection E as <-. cbn [numeric tempoNorm loudnessNorm].
  split; [|split; reflexivity].
  intros f. apply castNumeric_spec.
Qed.

(** X24. Every numeric field of a loaded track is a number: the number in
    the cell when there is one, and 0 when the cell is missing or does not
    parse, never [NaN]; and the two derived fields, the normalized tempo
    and the normalized loudness, always lie in [0,1]. *)
Theorem X24_loaded_numbers (row : Row) (t : LoadedTrack) :
  normalizeTracks parseFloat row = Some t ->
  (forall f v, parseFloat (row_numeric row f) = JNum v -> numeric t f = v) /\
  (forall f, parseFloat (row_numeric row f) = JNaN -> numeric t f = 0) /\
  0 <= tempoNorm t <= 1 /\
  0 <= loudnessNorm t <= 1.
Proof.
  intros H. destruct (normalizeTracks_fields row t H) as (Hn & Ht & Hl).
  split; [|split; [|split]].
  - intros f v E. now rewrite Hn, E.
  - intros f E. now rewrite Hn, E.
  - rewrite Ht. apply clamp_range.
  - rewrite Hl. apply clamp_range.
Qed.

(** X26. The loader and the search normalize the tempo alike: the
    normalized tempo of a loaded track is the normalization that the
    search applies to a slider set on the tempo of the track, so that such
    a slider leaves no gap on the tempo dimension. *)
Theorem X26_tempo_normalized_alike (row : Row) (t : LoadedTrack)
  (s : Search.Sliders) :
  normalizeTracks parseFloat row = Some t ->
  Search.tempoNorm (to_track t)
  = normalizeTempo (Search.Tempo (to_track t)) /\
  (Search.s_Tempo s = Search.Tempo (to_track t) ->
   gap (to_track t) (Search.normalize s) Search.K_tempoNorm = 0).
Proof.
  intros H. destruct (normalizeTracks_fields row t H) as (_ & Ht & _).
  assert (E : Search.tempoNorm (to_track t)
              = normalizeTempo (Search.Tempo (to_track t))).
  { simpl. unfold normalizeTempo. simpl. now rewrite Ht. }
  split; [exact E|].
  intros Hs. unfold gap.
  cbn [Search.track_get Search.target_get Search.normalize
         Search.n_tempoNorm].
  rewrite Hs, <- E.
  replace (_ - _) with 0 by ring. apply Rabs_R0.
Qed.

End Loading.

Section SpotifyId.

Import Data.

Lemma split_char_from_length (sep : ascii) (s acc : string) :
  List.length (split_char_from sep s acc)
  = S (List.length (filter (Ascii.eqb sep) (list_ascii_of_string s))).
Proof.
  revert acc. induction s as [|c s IH]; intros acc; simpl; [reflexivity|].
  rewrite (Ascii.eqb_sym sep c).
  destruct (Ascii.eqb c sep); simpl; now rewrite IH.
Qed.

Lemma colons_count (s : string) :
  colons s
  = List.length (filter (Ascii.eqb ":"%char) (list_ascii_of_string s)).
Proof.
  induction s as [|c s IH]; [reflexivity|].
  cbn [colons list_ascii_of_string filter].
  rewrite (Ascii.eqb_sym ":"%char c).
  destruct (Ascii.eqb c ":"%char); cbn [List.length]; now rewrite IH.
Qed.

Lemma string_app_nil_r (s : string) : (s ++ "")%string = s.
Proof. induction s as [|c s IH]; simpl; [reflexivity|]. now f_equal. Qed.

Lemma split_char_from_free (sep : ascii) (s acc rest : string) :
  free_of sep s = true ->
  split_char_from sep (s ++ String sep rest) acc
  = (acc ++ s)%string :: split_char_from sep rest "".
Proof.
  revert acc. induction s as [|c s IH]; intros acc H; simpl in *.
  - now rewrite Ascii.eqb_refl, string_app_nil_r.
  - apply andb_prop in H. destruct H as [Hc Hs].
    destruct (Ascii.eqb c sep); [discriminate|].
    rewrite (IH _ Hs). f_equal. apply string_app_assoc.
Qed.

Lemma split_char_from_free_end (sep : ascii) (s acc : string) :
  free_of sep s = true ->
  split_char_from sep s acc = [(acc ++ s)%string].
Proof.
  revert acc. induction s as [|c s IH]; intros acc H; simpl in *.
  - now rewrite string_app_nil_r.
  - apply andb_prop in H. destruct H as [Hc Hs].
    destruct (Ascii.eqb c sep); [discriminate|].
    rewrite (IH _ Hs). f_equal. apply string_app_assoc.
Qed.

(** X25. The Spotify identifier of a track is the third part of a URI made
    of exactly three parts separated by colons, such as
    [spotify:track:<id>]; a URI with fewer or more colons than two, or no
    URI, gives no identifier. *)
Theorem X25_spotify_id (a b id : string) (uri : string) :
  (free_of ":"%char a = true -> free_of ":"%char b = true ->
   free_of ":"%char id = true ->
   spotifyId_of (Some (a ++ ":" ++ b ++ ":" ++ id)%string) = Some id) /\
  (colons uri <> 2%nat -> spotifyId_of (Some uri) = None) /\
  (colons uri = 2%nat -> exists id', spotifyId_of (Some uri) = Some id') /\
  spotifyId_of None = None.
Proof.
  split; [|split; [|split]].
  - intros Ha Hb Hi. unfold spotifyId_of, split_char, orEmpty.
    change (a ++ ":" ++ b ++ ":" ++ id)%string
      with (a ++ String ":"%char (b ++ String ":"%char id))%string.
    rewrite (split_char_from_free _ a "" _ Ha).
    rewrite (split_char_from_free _ b "" _ Hb).
    rewrite (split_char_from_free_end _ id "" Hi). reflexivity.
  - intros H. unfold spotifyId_of, split_char, orEmpty.
    pose proof (split_char_from_length ":"%char uri "") as L.
    rewrite <- colons_count in L.
    destruct (split_char_from ":"%char uri "") as [|p1 [|p2 [|p3 [|p4 l]]]];
      simpl in L; try reflexivity. lia.
  - intros H. unfold spotifyId_of, split_char, orEmpty.
    pose proof (split_char_from_length ":"%char uri "") as L.
    rewrite <- colons_count in L.
    destruct (split_char_from ":"%char uri "") as [|p1 [|p2 [|p3 [|p4 l]]]];
      simpl in L; try lia. now exists p3.
  - reflexivity.
Qed.

End SpotifyId.

(* ------------------------------------------------------------------ *)
(** ** From the library to the visualizer, and the search panel        *)
(* ------------------------------------------------------------------ *)

Section LibraryToVisualizer.

Import Visualizer.
Local Open Scope R_scope.

Variable parseFloat : option string -> jsnum.
Variable random : nat -> R.
Hypothesis random_range : forall n, 0 <= random n < 1.

Lemma complete_In (data : list Data.Row) (lt : Data.LoadedTrack) :
  In lt (Data.complete parseFloat data) ->
  exists row, In row data /\ Data.normalizeTracks parseFloat row = Some lt.
Proof.
  unfold Data.complete. intros H. apply in_flat_map in H.
  destruct H as (row & Hrow & Hin). exists row. split; [exact Hrow|].
  destruct (Data.normalizeTracks parseFloat row) as [t|]; [|contradiction].
  destruct Hin as [->|[]]. reflexivity.
Qed.

Lemma loaded_features_in_unit (row : Data.Row) (lt : Data.LoadedTrack) :
  Data.normalizeTracks parseFloat row = Some lt ->
  Data.unit_features lt ->
  features_in_unit (featuresOf (Data.to_track lt)).
Proof.
  intros H Hu.
  destruct (normalizeTracks_fields parseFloat row lt H) as (_ & Ht & Hl).
  pose proof (clamp_range ((Data.numeric lt Data.N_Tempo - 40) / 180)) as Ct.
  pose proof (clamp_range ((Data.numeric lt Data.N_Loudness + 60) / 60)) as Cl.
  rewrite <- Ht in Ct. rewrite <- Hl in Cl.
  intros k. destruct k; simpl; try assumption; apply Hu; simpl; tauto.
Qed.

(** X27. Tracks that come out of the loader and whose danceability, energy,
    valence, acousticness, liveness and instrumentalness are in [0,1] can
    be handed to the visualizer in any order and at any time: no tick ever
    issues a drawing request that the canvas rejects.  Nothing is required
    of the tempo and the loudness of the file, which the loader clamps. *)
Theorem X27_loaded_tracks_draw_safely (data : list Data.Row) (w h : R)
  (es : list Event) :
  Forall (loaded_event (Data.complete parseFloat data)) es ->
  Forall (fun c => valid_cmd c /\ styles_ok c)
    (snd (run random (new_visualizer w h) es)).
Proof.
  intros Hes.
  apply (run_ok random random_range es (new_visualizer w h)).
  - apply new_visualizer_Inv.
  - eapply Forall_impl; [|exact Hes].
    intros e He. destruct e as [t| | |]; simpl; try exact I.
    destruct He as (lt & Hin & Hu & ->).
    destruct (complete_In data lt Hin) as (row & _ & Hrow).
    now apply (loaded_features_in_unit row).
Qed.

End LibraryToVisualizer.

Section SearchPanel.

Import UI.
Local Open Scope R_scope.

Variable random : nat -> R.

Lemma set_slider_set (s : Search.Sliders) (k : slider_key) (val : R) :
  sliders_set s -> sliders_set (set_slider s k (JNum val)).
Proof.
  intros H k'. destruct k, k'; simpl;
    try (now exists val); apply (H S_Danceability) || apply (H S_Energy)
    || apply (H S_Valence) || apply (H S_Tempo) || apply (H S_Acousticness).
Qed.

Lemma create_sliders_set (tracks : list Search.Track) (v : Visualizer.State) :
  sliders_set (sliderValues (create tracks v)).
Proof. intros k. destruct k; simpl; eexists; reflexivity. Qed.

Lemma selectResult_keeps (ui : State) (r : Search.Result) :
  tracks (fst (selectResult random ui r)) = tracks ui /\
  sliderValues (fst (selectResult random ui r)) = sliderValues ui /\
  panel (fst (selectResult random ui r)) = panel ui /\
  selectedResult (fst (selectResult random ui r)) = Some r /\
  explanationText (fst (selectResult random ui r)) = Search.buildExplanation r /\
  visualizer (fst (selectResult random ui r))
  = fst (Visualizer.setTrack random (visualizer ui) (Search.track r)).
Proof.
  unfold selectResult.
  destruct (Visualizer.setTrack random (visualizer ui) (Search.track r)).
  repeat split.
Qed.

Lemma dispatch_keeps (ui : State) (e : Event) :
  tracks (fst (dispatch random ui e)) = tracks ui /\
  (sliders_set (sliderValues ui) ->
   sliders_set (sliderValues (fst (dispatch random ui e)))).
Proof.
  destruct e as [k val|q|i]; simpl.
  - split; [reflexivity|]. apply set_slider_set.
  - unfold performSearch.
    destruct (Search.search _ _ _) as [|top rest]; simpl; [tauto|].
    destruct (selectResult_keeps
                (with_panel ui (Listed (top :: rest) 0)) top)
      as (-> & -> & _). tauto.
  - destruct (panel ui) as [| |results a]; try tauto.
    destruct (nth_error results i) as [r|]; [|tauto].
    destruct (selectResult_keeps (with_panel ui (Listed results i)) r)
      as (-> & -> & _). tauto.
Qed.

Lemma run_keeps (es : list Event) (ui : State) :
  tracks (fst (run random ui es)) = tracks ui /\
  (sliders_set (sliderValues ui) ->
   sliders_set (sliderValues (fst (run random ui es)))).
Proof.
  revert ui. induction es as [|e es IH]; intros ui; simpl; [tauto|].
  destruct (dispatch_keeps ui e) as [Ht Hs].
  destruct (dispatch random ui e) as [s1 out1]. simpl in *.
  destruct (IH s1) as [Ht2 Hs2].
  destruct (run random s1 es) as [s2 out2]. simpl in *.
  split; [congruence|auto].
Qed.

Lemma sliders_set_active (q : string) (s : Search.Sliders) :
  sliders_set s -> Search.hasSliders (Search.mkParams q (Some s)) = true.
Proof.
  intros H. unfold Search.hasSliders. simpl.
  destruct (H S_Danceability) as [val E]. simpl in E. now rewrite E.
Qed.

Lemma search_sliders_only_length (tracks : list Search.Track)
  (p : Search.Params) (limit : Z) :
  Search.hasQuery p = false -> Search.hasSliders p = true ->
  (0 <= limit)%Z ->
  List.length (Search.search tracks p limit)
  = Nat.min (Z.to_nat limit) (List.length tracks).
Proof.
  intros Hq Hs Hl.
  rewrite (search_firstn tracks p limit Hl).
  rewrite (ranking_active tracks p) by now right.
  rewrite length_firstn, sort_length. unfold candidates. rewrite Hq.
  now rewrite length_map.
Qed.

(** X28. In the search panel the sliders always hold numbers, whatever the
    user has done before, so a search is never without a signal: with the
    search box left blank it lists the five best tracks for the sliders,
    or the whole library when it has fewer than five tracks, and it says
    "no matches" only for an empty library. *)
Theorem X28_blank_search_lists_tracks (tracks0 : list Search.Track)
  (v : Visualizer.State) (es : list Event) (q : string) :
  all_ws q = true ->
  let ui := fst (run random (create tracks0 v) es) in
  let params := Search.mkParams q (Some (sliderValues ui)) in
  Search.hasSliders params = true /\
  (tracks0 = [] -> panel (fst (performSearch random ui q)) = NoMatches) /\
  (tracks0 <> [] ->
   exists results,
     panel (fst (performSearch random ui q)) = Listed results 0 /\
     results = Search.search tracks0 params 5 /\
     List.length results = Nat.min 5 (List.length tracks0)).
Proof.
  intros Hq ui params.
  destruct (run_keeps es (create tracks0 v)) as [Ht Hs].
  specialize (Hs (create_sliders_set tracks0 v)).
  fold ui in Ht, Hs. simpl in Ht.
  assert (Hh : Search.hasSliders params = true)
    by now apply sliders_set_active.
  assert (Hn : Search.hasQuery params = false)
    by (unfold Search.hasQuery; now apply trim_empty_iff).
  pose proof (search_sliders_only_length tracks0 params 5 Hn Hh
                ltac:(lia)) as Hlen.
  split; [exact Hh|]. unfold performSearch. rewrite Ht. fold params.
  split.
  - intros ->. simpl in Hlen.
    destruct (Search.search [] params 5); [reflexivity|discriminate].
  - intros Hne.
    destruct (Search.search tracks0 params 5) as [|top rest] eqn:E.
    + destruct tracks0; [contradiction|]. simpl in Hlen. discriminate.
    + exists (top :: rest). unfold renderResults.
      destruct (selectResult_keeps
                  (with_panel ui (Listed (top :: rest) 0)) top)
        as (_ & _ & -> & _).
      repeat split. exact Hlen.
Qed.

Lemma StronglySorted_head {A : Type} (R : A -> A -> Prop) (a : A)
  (l : list A) :
  StronglySorted R (a :: l) -> forall b, In b l -> R a b.
Proof.
  intros H b Hb. inversion H as [|? ? _ Hf]; subst.
  rewrite Forall_forall in Hf. now apply Hf.
Qed.

(** X29. A search of the panel that finds nothing leaves the selection and
    the visualizer alone.  One that finds results lists them, selects the
    first, which no other result outscores, makes the features of its
    track the target of the visualizer, and shows its explanation. *)
Theorem X29_panel_selects_top_result (ui : State) (q : string) :
  let params := Search.mkParams q (Some (sliderValues ui)) in
  let results := Search.search (tracks ui) params 5 in
  let ui' := fst (performSearch random ui q) in
  (results = [] ->
   panel ui' = NoMatches /\ visualizer ui' = visualizer ui /\
   selectedResult ui' = selectedResult ui /\
   snd (performSearch random ui q) = []) /\
  (forall top rest, results = top :: rest ->
     panel ui' = Listed results 0 /\
     selectedResult ui' = Some top /\
     In (Search.track top) (tracks ui) /\
     (forall r, In r results -> (Search.score r <= Search.score top)%R) /\
     Visualizer.targetFeatures (visualizer ui')
     = Some (Visualizer.featuresOf (Search.track top)) /\
     explanationText ui' = Search.buildExplanation top).
Proof.
  cbv zeta. set (params := Search.mkParams q (Some (sliderValues ui))).
  unfold performSearch. fold params.
  destruct (Search.search (tracks ui) params 5) as [|top rest] eqn:E.
  - split; [intros _; repeat split|]. intros top rest H. discriminate.
  - split; [discriminate|]. intros top' rest' H. injection H as <- <-.
    unfold renderResults.
    destruct (selectResult_keeps
                (with_panel ui (Listed (top :: rest) 0)) top)
      as (_ & _ & Hp & Hs & He & Hv).
    assert (Hin : In top (Search.search (tracks ui) params 5))
      by (rewrite E; now left).
    destruct (search_In (tracks ui) params 5 top Hin)
      as (t & Ht & -> & Ha & _).
    pose proof (search_sorted (tracks ui) params 5 Ha) as Hsort.
    rewrite E in Hsort.
    repeat split; try assumption.
    + intros r [<-|Hr]; [lra|].
      pose proof (StronglySorted_head _ _ _ Hsort r Hr). simpl in *. lra.
    + rewrite Hv. simpl visualizer.
      exact (proj1 (setTrack_state random (visualizer ui) t)).
Qed.

End SearchPanel.

(* ------------------------------------------------------------------ *)
(** ** Instances                                                       *)
(* ------------------------------------------------------------------ *)

Section Instances.

Import Visualizer.
Local Open Scope R_scope.

Lemma X11_normalizeTempo_clamp_witness :
  normalizeTempo (JNum 130) = JNum ((130 - 40) / 180).
Proof.
  destruct (X11_normalizeTempo_clamp 130 220) as (_ & H & _).
  apply H. lra.
Defined.

Lemma X13_setTrack_running_or_not_witness :
  animId (fst (setTrack (constant_random 0.5) (new_visualizer 800 600) sun))
  = true.
Proof.
  destruct (X13_setTrack_running_or_not (constant_random 0.5)
              (new_visualizer 800 600) sun) as [_ H].
  exact (proj1 (H eq_refl)).
Defined.

Lemma X14_approach_without_overshoot_witness :
  exists c',
    features (fst (run (constant_random 0.5) running (frames 3))) = Some c' /\
    Rabs (danceability c' - 0.2) <= Rabs (0.8 - 0.2).
Proof.
  destruct (X14_approach_without_overshoot (constant_random 0.5) running
              (featuresOf moon) (featuresOf sun) 3 eq_refl eq_refl eq_refl)
    as (c' & Hc & Hk).
  exists c'. split; [exact Hc|].
  exact (proj1 (proj2 (Hk F_danceability))).
Defined.

Lemma X15_particle_count_witness :
  (80 <= List.length
           (particles (fst (setTrack (constant_random 0.5) running sun)))
   <= 260)%nat.
Proof.
  destruct (X15_particle_count (constant_random 0.5) running sun) as [H _].
  apply H. simpl. lra.
Defined.

Lemma X17_particles_wrap_witness :
  Forall (in_margin 800 600)
    (particles (fst (animate (constant_random 0.5) running))).
Proof.
  apply (X17_particles_wrap (constant_random 0.5) running (featuresOf sun));
    [reflexivity|simpl; lra|simpl; lra].
Defined.

Lemma X18_one_shape_per_particle_witness :
  exists f rest,
    features (fst (animate (constant_random 0.5) running)) = Some f /\
    snd (animate (constant_random 0.5) running)
    = FillRect (Rgba 10 10 26 (0.08 + (1 - energy f) * 0.15)) 0 0 800 600
        :: rest /\
    shapes_drawn (snd (animate (constant_random 0.5) running))
    = map (shape_for f) (particles (fst (animate (constant_random 0.5) running))).
Proof.
  exact (X18_one_shape_per_particle (constant_random 0.5) running
           (featuresOf sun) eq_refl).
Defined.

Lemma X19_connecting_lines_bound_witness :
  exists k, (3 * k <= 4 + 2)%nat /\
            (2 * List.length
                   (filter is_line
                      (snd (animate (constant_random 0.5) running)))
             <= k * (k - 1))%nat.
Proof.
  exact (proj1 (X19_connecting_lines_bound (constant_random 0.5) running
                  (lerp (featuresOf moon) (featuresOf sun)) eq_refl)).
Defined.

Lemma X20_fresh_particles_witness :
  Forall (freshly_created 800 600)
    (particles (fst (setTrack (constant_random 0.5) running sun))).
Proof.
  apply (X20_fresh_particles (constant_random 0.5)
           (constant_random_range 0.5 ltac:(lra)) running sun).
  - reflexivity.
  - simpl. lra.
  - simpl. lra.
  - simpl. lra.
Defined.

Lemma X21_ambient_orbs_witness :
  List.length
    (Background.orbs
       (fst (Background.run
               (fst (Background.create (constant_random 0.5) 1280 720))
               [Background.Frame; Background.Resize 800 600;
                Background.Frame])))
  = 5%nat.
Proof.
  apply (X21_ambient_orbs (constant_random 0.5)).
  apply constant_random_range. lra.
Defined.

Lemma X22_orbs_wrap_witness :
  let s := fst (Background.create (constant_random 0.5) 1280 720) in
  Forall (Background.orb_in_reach 1280 720)
    (Background.orbs (fst (Background.animate s))).
Proof.
  intros s.
  apply (X22_orbs_wrap s); [|simpl; lra|simpl; lra].
  unfold s, Background.create, Background.animate, Background.initOrbs.
  cbn [fst Background.orbs app].
  apply Forall_map, Forall_map, Forall_forall. intros i _.
  cbn [Background.r Background.moveOrb Background.newOrb].
  unfold constant_random. lra.
Defined.

Lemma X24_loaded_numbers_witness :
  exists t,
    Data.normalizeTracks sample_parseFloat sample_row = Some t /\
    Data.numeric t Data.N_Tempo = 120 /\
    Data.numeric t Data.N_Loudness = 0 /\
    0 <= Data.tempoNorm t <= 1.
Proof.
  eexists. split; [reflexivity|].
  match goal with |- Data.numeric ?t _ = _ /\ _ =>
    destruct (X24_loaded_numbers sample_parseFloat sample_row t eq_refl)
      as (Hn & Hz & Ht & _) end.
  split; [apply Hn; reflexivity|].
  split; [apply Hz; reflexivity|exact Ht].
Defined.

Lemma X25_spotify_id_witness :
  Data.spotifyId_of (Some "spotify:track:abc"%string) = Some "abc"%string.
Proof.
  destruct (X25_spotify_id "spotify" "track" "abc" "") as [H _].
  apply H; reflexivity.
Defined.

Lemma X26_tempo_normalized_alike_witness :
  exists t,
    Data.normalizeTracks sample_parseFloat sample_row = Some t /\
    Search.tempoNorm (Data.to_track t)
    = normalizeTempo (Search.Tempo (Data.to_track t)).
Proof.
  eexists. split; [reflexivity|].
  match goal with |- Search.tempoNorm (Data.to_track ?t) = _ =>
    exact (proj1 (X26_tempo_normalized_alike sample_parseFloat sample_row t
                    (Search.mkSliders JNull JNull JNull JNull JNull)
                    eq_refl)) end.
Defined.

Lemma sample_row_loaded :
  exists lt,
    Data.normalizeTracks sample_parseFloat sample_row = Some lt /\
    Data.unit_features lt.
Proof.
  eexists. split; [reflexivity|].
  intros f Hf. simpl in Hf.
  destruct Hf as [<-|[<-|[<-|[<-|[<-|[<-|[]]]]]]];
    cbn [Data.numeric]; rewrite castNumeric_spec;
    unfold sample_row, sample_parseFloat; cbn; lra.
Qed.

Lemma X27_loaded_tracks_draw_safely_witness :
  exists lt,
    Data.normalizeTracks sample_parseFloat sample_row = Some lt /\
    Forall (fun c => valid_cmd c /\ styles_ok c)
      (snd (run (constant_random 0.5) (new_visualizer 800 600)
              [SetTrack (Data.to_track lt); Frame; Frame])).
Proof.
  destruct sample_row_loaded as (lt & E & Hu).
  exists lt. split; [exact E|].
  apply (X27_loaded_tracks_draw_safely sample_parseFloat
           (constant_random 0.5) (constant_random_range 0.5 ltac:(lra))
           [sample_row]).
  apply Forall_cons.
  - exists lt. split; [|split; [exact Hu|reflexivity]].
    unfold Data.complete. cbn [flat_map]. rewrite E. now left.
  - repeat (apply Forall_cons; [exact I|]). apply Forall_nil.
Defined.

Lemma X28_blank_search_lists_tracks_witness :
  let ui := fst (UI.run (constant_random 0.5)
                   (UI.create [sun; moon] (new_visualizer 800 600))
                   [UI.SliderInput UI.S_Tempo 90; UI.Search "moon"]) in
  Search.hasSliders (Search.mkParams " " (Some (UI.sliderValues ui))) = true.
Proof.
  intros ui.
  exact (proj1 (X28_blank_search_lists_tracks (constant_random 0.5)
                  [sun; moon] (new_visualizer 800 600)
                  [UI.SliderInput UI.S_Tempo 90; UI.Search "moon"] " "
                  eq_refl)).
Defined.

End Instances.
